(** * Pokemon data platform: fetch / cache / transform / load / analyse

    A shallow embedding of the pipeline of [src/]:

    - [ApiClient]   : [src/ingestion/api_client.py]
    - [Transformer] : [src/transformation/pokemon_transformer.py]
    - [Loader]      : [src/loading/db_loader.py], over the schema of
                      [src/models/]
    - [Analyzer]    : [src/analytics/type_analyzer.py]
    - [TransformerBatch], [TypeTransformer], [AbilityTransformer],
      [TypeRanking], [AbilityFetcher], [TypeFetcher] : the batch
      transformation, the transformers of types and abilities, the
      rankings of the analyzer and two fetchers

    Python code that threads state (the cache directory and the request log
    of the client, the SQLAlchemy session of the loader) is written in a state
    and exception monad; [try]/[except] is [try_except].  The first part of
    the file holds the definitions, the second part the theorems. *)

From Stdlib Require Import ZArith QArith String Ascii List Bool Lia.
From Stdlib Require Import Permutation Sorted Lqa.
From stdpp Require Import base gmap strings.

Import ListNotations.
Open Scope string_scope.
Open Scope Z_scope.

(* ================================================================== *)
(** * Part I: definitions *)
(* ================================================================== *)

(** ** Exceptions and the state-and-exception monad *)

(** The exception classes the modelled code can meet. *)
Inductive exn : Type :=
| RequestException   (* requests.exceptions.RequestException and subclasses *)
| ValueError         (* json decoding of a cache file, int() of a non-number *)
| KeyError
| TypeError
| AttributeError
| IntegrityError     (* sqlalchemy.exc.IntegrityError at flush time *)
| OperationalError.  (* the database connection failed *)

Inductive result (A : Type) : Type :=
| Ret (a : A)
| Raise (e : exn).
Arguments Ret {A} a.
Arguments Raise {A} e.

Definition M (S A : Type) : Type := S -> S * result A.

Definition ret {S A} (a : A) : M S A := fun s => (s, Ret a).

Definition raise {S A} (e : exn) : M S A := fun s => (s, Raise e).

Definition bind {S A B} (m : M S A) (k : A -> M S B) : M S B :=
  fun s =>
    match m s with
    | (s', Ret a) => k a s'
    | (s', Raise e) => (s', Raise e)
    end.

(** [try: body except Exception as e: handler e]. *)
Definition try_except {S A} (body : M S A) (handler : exn -> M S A) : M S A :=
  fun s =>
    match body s with
    | (s', Ret a) => (s', Ret a)
    | (s', Raise e) => handler e s'
    end.

Declare Scope monad_scope.
Delimit Scope monad_scope with monad.
Notation "'let*' x ':=' m 'in' k" := (bind m (fun x => k))
  (at level 10, x name, m at level 100, k at level 200) : monad_scope.
Notation "m ';;' k" := (bind m (fun _ => k))
  (at level 100, k at level 200, right associativity) : monad_scope.

(** [for x in xs: f x]. *)
Fixpoint for_each {S A} (f : A -> M S unit) (xs : list A) : M S unit :=
  match xs with
  | [] => ret tt
  | x :: rest => bind (f x) (fun _ => for_each f rest)
  end.

(** The pure fragment: computations that may raise but have no state. *)
Definition rbind {A B} (r : result A) (k : A -> result B) : result B :=
  match r with
  | Ret a => k a
  | Raise e => Raise e
  end.

Declare Scope result_scope.
Delimit Scope result_scope with result.
Notation "'let?' x ':=' r 'in' k" := (rbind r (fun x => k))
  (at level 10, x name, r at level 100, k at level 200) : result_scope.

(** [[f x for x in xs]] where [f] may raise. *)
Fixpoint rmap {A B} (f : A -> result B) (xs : list A) : result (list B) :=
  match xs with
  | [] => Ret []
  | x :: rest =>
      rbind (f x) (fun y => rbind (rmap f rest) (fun ys => Ret (y :: ys)))
  end.

(** ** Python strings *)

Module PyStr.

Definition slash : ascii := "/"%char.

(** [s.replace(old, new)] for one-character [old] and [new]. *)
Fixpoint replace (old new : ascii) (s : string) : string :=
  match s with
  | EmptyString => EmptyString
  | String c rest =>
      String (if Ascii.eqb c old then new else c) (replace old new rest)
  end.

(** [s.lstrip('/')]. *)
Fixpoint lstrip_slash (s : string) : string :=
  match s with
  | EmptyString => EmptyString
  | String c rest => if Ascii.eqb c slash then lstrip_slash rest else s
  end.

(** [s.rstrip('/')]. *)
Fixpoint rstrip_slash (s : string) : string :=
  match s with
  | EmptyString => EmptyString
  | String c rest =>
      match rstrip_slash rest with
      | EmptyString =>
          if Ascii.eqb c slash then EmptyString else String c EmptyString
      | r => String c r
      end
  end.

(** [s.split('/')[-1]]: what follows the last slash ([acc] is the segment
    read so far). *)
Fixpoint last_segment_from (acc s : string) : string :=
  match s with
  | EmptyString => acc
  | String c rest =>
      if Ascii.eqb c slash then last_segment_from EmptyString rest
      else last_segment_from (acc ++ String c EmptyString) rest
  end.

Definition last_segment (s : string) : string :=
  last_segment_from EmptyString s.

(** [list(s)]: the one-character strings of [s]. *)
Fixpoint chars (s : string) : list string :=
  match s with
  | EmptyString => []
  | String c rest => String c EmptyString :: chars rest
  end.

End PyStr.

(** ** JSON documents, as [json.load] and [response.json()] return them *)

Module Json.

(** Numbers are the integers the API serves; [JObj] keeps the members of a
    [dict] in order, and a lookup takes the first member with the key. *)
#[warnings="-register-all"]
Inductive json : Type :=
| JNull
| JBool (b : bool)
| JInt (n : Z)
| JStr (s : string)
| JList (items : list json)
| JObj (members : list (string * json)).

(** [bool(v)]: the truth value Python gives a JSON value. *)
Definition truthy (v : json) : bool :=
  match v with
  | JNull => false
  | JBool b => b
  | JInt n => negb (n =? 0)
  | JStr s => negb (String.eqb s "")
  | JList items => match items with [] => false | _ => true end
  | JObj members => match members with [] => false | _ => true end
  end.

Fixpoint assoc (k : string) (members : list (string * json)) : option json :=
  match members with
  | [] => None
  | (k', v) :: rest => if String.eqb k k' then Some v else assoc k rest
  end.

(** [v[k]] for a string key [k]: only a [dict] can be subscripted by a
    string. *)
Definition py_getitem (v : json) (k : string) : result json :=
  match v with
  | JObj members =>
      match assoc k members with
      | Some x => Ret x
      | None => Raise KeyError
      end
  | _ => Raise TypeError
  end.

(** [v.get(k, default)]: only a [dict] has the method. *)
Definition py_get (v : json) (k : string) (default : json) : result json :=
  match v with
  | JObj members =>
      match assoc k members with
      | Some x => Ret x
      | None => Ret default
      end
  | _ => Raise AttributeError
  end.

(** [for x in v]: a list gives its items, a [dict] its keys, a string its
    characters; nothing else can be iterated. *)
Definition py_iter (v : json) : result (list json) :=
  match v with
  | JList items => Ret items
  | JObj members => Ret (map (fun kv => JStr (fst kv)) members)
  | JStr s => Ret (map JStr (PyStr.chars s))
  | _ => Raise TypeError
  end.

(** [v in names] for a list of string literals: [==] against each. *)
Definition py_in (v : json) (names : list string) : bool :=
  match v with
  | JStr s => existsb (String.eqb s) names
  | _ => false
  end.

End Json.

(** ** The API client ([src/ingestion/api_client.py]) *)

Module ApiClient.
Import Json.

(** The constructor's parameters.  [request_interval] is [60.0 / rate_limit]
    in the unit of the clock below; [cache_dir] is the cache root. *)
Record client : Type := {
  base_url : string;
  request_interval : Z;
  cache_dir : string
}.

(** What a file of the cache directory holds: a JSON document, or bytes that
    [json.load] rejects. *)
Inductive file : Type :=
| Document (data : json)
| Garbage.

(** What [requests.get(url)] followed by [raise_for_status()] and [.json()]
    comes to: a decoded body, or an exception. *)
Inductive response : Type :=
| Body (data : json)
| Fails (e : exn).

(** The remote service: its answer to the [n]-th request (counted from 0)
    for a URL. *)
Definition network : Type := nat -> string -> response.

(** The mutable world of a client: the files under the cache directory
    (keyed by path), the [last_request_time] attribute, the clock, and the
    log of the URLs requested so far (latest first). *)
Record world : Type := {
  files : gmap string file;
  last_request_time : Z;
  now : Z;
  requests : list string
}.

Definition set_files (f : gmap string file) (w : world) : world :=
  {| files := f; last_request_time := last_request_time w;
     now := now w; requests := requests w |}.

(** [_rate_limit_wait]: sleep until [request_interval] has passed since the
    last request, then stamp the time. *)
Definition _rate_limit_wait (c : client) : M world unit :=
  fun w =>
    let time_since_last_request := now w - last_request_time w in
    let woke :=
      if time_since_last_request <? request_interval c
      then now w + (request_interval c - time_since_last_request)
      else now w in
    ({| files := files w; last_request_time := woke;
        now := woke; requests := requests w |}, Ret tt).

(** [_get_cache_path]: [cache_dir / f"{cache_key}.json"]. *)
Definition cache_key (endpoint : string) : string :=
  PyStr.replace "?"%char "_"%char (PyStr.replace "/"%char "_"%char endpoint).

Definition _get_cache_path (c : client) (endpoint : string) : string :=
  cache_dir c ++ "/" ++ cache_key endpoint ++ ".json".

(** [_get_from_cache]: [None] when the file does not exist. *)
Definition _get_from_cache (c : client) (endpoint : string)
  : M world (option json) :=
  fun w =>
    match files w !! _get_cache_path c endpoint with
    | Some (Document data) => (w, Ret (Some data))
    | Some Garbage => (w, Raise ValueError)
    | None => (w, Ret None)
    end.

(** [_save_to_cache]: [json.dump] into the file, created or overwritten. *)
Definition _save_to_cache (c : client) (endpoint : string) (data : json)
  : M world unit :=
  fun w =>
    (set_files (<[_get_cache_path c endpoint := Document data]> (files w)) w,
     Ret tt).

(** [requests.get(url)]: logs the request and asks the network. *)
Definition requests_get (net : network) (url : string) : M world json :=
  fun w =>
    let w' := {| files := files w; last_request_time := last_request_time w;
                 now := now w; requests := url :: requests w |} in
    match net (length (requests w)) url with
    | Body data => (w', Ret data)
    | Fails e => (w', Raise e)
    end.

(** [f"{self.base_url}/{endpoint.lstrip('/')}"]. *)
Definition url_of (c : client) (endpoint : string) : string :=
  base_url c ++ "/" ++ PyStr.lstrip_slash endpoint.

(** The tail of [get], after the cache check: throttle, request, save. *)
Definition fetch (net : network) (c : client) (endpoint : string)
    (use_cache : bool) : M world json :=
  (_rate_limit_wait c ;;
   let* data := requests_get net (url_of c endpoint) in
   (if use_cache then _save_to_cache c endpoint data else ret tt) ;;
   ret data)%monad.

(** The body of [get], one attempt.  [if cached_data:] tests the truth
    value of what the cache returned. *)
Definition get_attempt (net : network) (c : client) (endpoint : string)
    (use_cache : bool) : M world json :=
  if use_cache then
    (let* cached_data := _get_from_cache c endpoint in
     match cached_data with
     | Some data =>
         if truthy data then ret data else fetch net c endpoint use_cache
     | None => fetch net c endpoint use_cache
     end)%monad
  else fetch net c endpoint use_cache.

Definition is_request_exception (e : exn) : bool :=
  match e with
  | RequestException => true
  | _ => false
  end.

(** [@backoff.on_exception(backoff.expo, (RequestException, HTTPError),
    max_tries=N)]: call again while a listed exception is raised, at most
    [N] calls in all; any other exception passes through.  The pauses
    between calls are not tracked. *)
Fixpoint retrying {A} (retries_left : nat) (attempt : M world A)
    {struct retries_left} : M world A :=
  fun w =>
    match attempt w with
    | (w', Ret a) => (w', Ret a)
    | (w', Raise e) =>
        match retries_left with
        | S n =>
            if is_request_exception e then retrying n attempt w'
            else (w', Raise e)
        | O => (w', Raise e)
        end
    end.

Definition on_exception {A} (max_tries : nat) (attempt : M world A)
  : M world A :=
  retrying (Nat.pred max_tries) attempt.

(** [PokemonApiClient.get]. *)
Definition get (net : network) (c : client) (endpoint : string)
    (use_cache : bool) : M world json :=
  on_exception 5 (get_attempt net c endpoint use_cache).

End ApiClient.

(** ** The Pokemon transformer ([src/transformation/pokemon_transformer.py]) *)

Module Transformer.
Import Json.

(** The dictionaries [transform_pokemon] builds.  A value copied from the
    raw record stays the JSON value it was; an identifier cut out of a URL
    is the integer [int()] returned. *)
Record PokemonDict : Type := {
  id : json;
  name : json;
  height : json;
  weight : json;
  base_experience : json;
  is_default : json;
  order_num : json
}.

Record StatDict : Type := {
  stat_pokemon_id : json;
  stat_name : json;
  base_value : json
}.

Record TypeDict : Type := {
  type_pokemon_id : json;
  type_id : Z;
  type_slot : json
}.

Record AbilityDict : Type := {
  ability_pokemon_id : json;
  ability_id : Z;
  is_hidden : json;
  ability_slot : json
}.

Record MoveDict : Type := {
  move_pokemon_id : json;
  move_id : Z;
  level_learned_at : json;
  learn_method : json
}.

Record Transformed : Type := {
  pokemon : PokemonDict;
  stats : list StatDict;
  types : list TypeDict;
  abilities : list AbilityDict;
  moves : list MoveDict
}.

(** The version groups whose move details are kept (line 74). *)
Definition version_groups : list string := ["sword-shield"; "sun-moon"; "x-y"].

Section WithInt.

(** Python's [int(s)] on a string: [None] stands for [ValueError]. *)
Variable py_int : string -> option Z.

(** [_extract_id_from_url]: [int(url.rstrip('/').split('/')[-1])]. *)
Definition _extract_id_from_url (url : json) : result Z :=
  match url with
  | JStr s =>
      match py_int (PyStr.last_segment (PyStr.rstrip_slash s)) with
      | Some n => Ret n
      | None => Raise ValueError
      end
  | _ => Raise AttributeError
  end.

Definition transform_stat (raw_id stat_data : json) : result StatDict :=
  (let? stat := py_getitem stat_data "stat" in
   let? stat_name := py_getitem stat "name" in
   let? base_stat := py_getitem stat_data "base_stat" in
   Ret {| stat_pokemon_id := raw_id; stat_name := stat_name;
          base_value := base_stat |})%result.

Definition transform_type (raw_id type_data : json) : result TypeDict :=
  (let? type := py_getitem type_data "type" in
   let? url := py_getitem type "url" in
   let? type_id := _extract_id_from_url url in
   let? slot := py_getitem type_data "slot" in
   Ret {| type_pokemon_id := raw_id; type_id := type_id;
          type_slot := slot |})%result.

Definition transform_ability (raw_id ability_data : json)
  : result AbilityDict :=
  (let? ability := py_getitem ability_data "ability" in
   let? url := py_getitem ability "url" in
   let? ability_id := _extract_id_from_url url in
   let? is_hidden := py_getitem ability_data "is_hidden" in
   let? slot := py_getitem ability_data "slot" in
   Ret {| ability_pokemon_id := raw_id; ability_id := ability_id;
          is_hidden := is_hidden; ability_slot := slot |})%result.

(** The inner loop of lines 72-82 over the version-group details of one
    move entry: the rows it appends, none or one because of the [break]. *)
Fixpoint transform_details (raw_id : json) (move_id : Z)
    (details : list json) : result (list MoveDict) :=
  match details with
  | [] => Ret []
  | version_group_detail :: rest =>
      (let? version_group := py_getitem version_group_detail "version_group" in
       let? group_name := py_getitem version_group "name" in
       if py_in group_name version_groups then
         let? level := py_getitem version_group_detail "level_learned_at" in
         let? method := py_getitem version_group_detail "move_learn_method" in
         let? method_name := py_getitem method "name" in
         Ret [ {| move_pokemon_id := raw_id; move_id := move_id;
                  level_learned_at := level; learn_method := method_name |} ]
       else transform_details raw_id move_id rest)%result
  end.

(** One turn of the outer loop of lines 69-82. *)
Definition transform_move_entry (raw_id move_entry : json)
  : result (list MoveDict) :=
  (let? move := py_getitem move_entry "move" in
   let? url := py_getitem move "url" in
   let? move_id := _extract_id_from_url url in
   let? details_value := py_get move_entry "version_group_details" (JList []) in
   let? details := py_iter details_value in
   transform_details raw_id move_id details)%result.

(** [for x in raw_data.get(key, []): out.append(f(x))]. *)
Definition transform_each {A} (raw_data : json) (key : string)
    (f : json -> result A) : result (list A) :=
  (let? value := py_get raw_data key (JList []) in
   let? items := py_iter value in
   rmap f items)%result.

(** [PokemonTransformer.transform_pokemon]. *)
Definition transform_pokemon (raw_data : json) : result Transformed :=
  (let? species_details := py_get raw_data "species_details" (JObj []) in
   let? raw_id := py_getitem raw_data "id" in
   let? raw_name := py_getitem raw_data "name" in
   let? raw_height := py_getitem raw_data "height" in
   let? raw_weight := py_getitem raw_data "weight" in
   let? raw_base_experience := py_get raw_data "base_experience" JNull in
   let? raw_is_default := py_getitem raw_data "is_default" in
   let? raw_order := py_get raw_data "order" JNull in
   let pokemon := {| id := raw_id; name := raw_name; height := raw_height;
                     weight := raw_weight;
                     base_experience := raw_base_experience;
                     is_default := raw_is_default; order_num := raw_order |} in
   let? stats := transform_each raw_data "stats" (transform_stat raw_id) in
   let? types := transform_each raw_data "types" (transform_type raw_id) in
   let? abilities :=
     transform_each raw_data "abilities" (transform_ability raw_id) in
   let? moves :=
     transform_each raw_data "moves" (transform_move_entry raw_id) in
   Ret {| pokemon := pokemon; stats := stats; types := types;
          abilities := abilities; moves := concat moves |})%result.

End WithInt.

(** A reading of decimal digits, enough to run [transform_pokemon] on the
    URLs the API serves; [int()] accepts more (signs, spaces, underscores). *)
Fixpoint digits_value (acc : Z) (s : string) : option Z :=
  match s with
  | EmptyString => Some acc
  | String c rest =>
      let n := Z.of_nat (nat_of_ascii c) in
      if (48 <=? n) && (n <=? 57) then digits_value (10 * acc + (n - 48)) rest
      else None
  end.

Definition decimal_int (s : string) : option Z :=
  match s with
  | EmptyString => None
  | _ => digits_value 0 s
  end.

End Transformer.

(** ** The relational schema ([src/models/]) *)

(** One module per mapped class, so that columns keep their names.  A
    nullable column is an [option].  The association tables' surrogate [id]
    is assigned by the database and never read by the pipeline: a row of
    such a table is identified by its position in the table. *)

Module Pokemon.
Record t : Type := {
  id : Z;
  name : string;
  height : Z;
  weight : Z;
  base_experience : option Z;
  is_default : bool;
  order_num : option Z
}.
End Pokemon.

Module PokemonStat.
Record t : Type := {
  pokemon_id : Z;
  stat_name : string;
  base_value : Z
}.
End PokemonStat.

Module Type_.
Record t : Type := {
  id : Z;
  name : string
}.
End Type_.

Module PokemonType.
Record t : Type := {
  pokemon_id : Z;
  type_id : Z;
  slot : Z
}.
End PokemonType.

Module TypeEffectiveness.
Record t : Type := {
  attack_type_id : Z;
  defense_type_id : Z;
  effectiveness : Q
}.
End TypeEffectiveness.

Module Ability.
Record t : Type := {
  id : Z;
  name : string;
  effect_text : option string;
  short_effect : option string
}.
End Ability.

Module PokemonAbility.
Record t : Type := {
  pokemon_id : Z;
  ability_id : Z;
  is_hidden : bool;
  slot : Z
}.
End PokemonAbility.

Module Move.
Record t : Type := {
  id : Z;
  name : string;
  power : option Z;
  pp : option Z;
  accuracy : option Z;
  type_id : option Z;
  damage_class : option string
}.
End Move.

Module PokemonMove.
Record t : Type := {
  pokemon_id : Z;
  move_id : Z;
  level_learned_at : option Z;
  learn_method : option string
}.
End PokemonMove.

Module Schema.

(** The contents of the nine tables, each in insertion order. *)
Record DB : Type := {
  pokemon : list Pokemon.t;
  pokemon_stats : list PokemonStat.t;
  types : list Type_.t;
  pokemon_types : list PokemonType.t;
  type_effectiveness : list TypeEffectiveness.t;
  abilities : list Ability.t;
  pokemon_abilities : list PokemonAbility.t;
  moves : list Move.t;
  pokemon_moves : list PokemonMove.t
}.

Definition empty_db : DB :=
  {| pokemon := []; pokemon_stats := []; types := []; pokemon_types := [];
     type_effectiveness := []; abilities := []; pokemon_abilities := [];
     moves := []; pokemon_moves := [] |}.

(** Table-wise concatenation. *)
Definition db_app (a b : DB) : DB :=
  {| pokemon := pokemon a ++ pokemon b;
     pokemon_stats := pokemon_stats a ++ pokemon_stats b;
     types := types a ++ types b;
     pokemon_types := pokemon_types a ++ pokemon_types b;
     type_effectiveness := type_effectiveness a ++ type_effectiveness b;
     abilities := abilities a ++ abilities b;
     pokemon_abilities := pokemon_abilities a ++ pokemon_abilities b;
     moves := moves a ++ moves b;
     pokemon_moves := pokemon_moves a ++ pokemon_moves b |}.

(** A mapped class seen as a table of the database. *)
Record table (R : Type) : Type := {
  view : DB -> list R;
  put : list R -> DB -> DB
}.
Arguments view {R} _ _.
Arguments put {R} _ _ _.

Definition pokemon_table : table Pokemon.t :=
  {| view := pokemon;
     put rows d :=
       {| pokemon := rows; pokemon_stats := pokemon_stats d; types := types d;
          pokemon_types := pokemon_types d;
          type_effectiveness := type_effectiveness d;
          abilities := abilities d; pokemon_abilities := pokemon_abilities d;
          moves := moves d; pokemon_moves := pokemon_moves d |} |}.

Definition pokemon_stats_table : table PokemonStat.t :=
  {| view := pokemon_stats;
     put rows d :=
       {| pokemon := pokemon d; pokemon_stats := rows; types := types d;
          pokemon_types := pokemon_types d;
          type_effectiveness := type_effectiveness d;
          abilities := abilities d; pokemon_abilities := pokemon_abilities d;
          moves := moves d; pokemon_moves := pokemon_moves d |} |}.

Definition types_table : table Type_.t :=
  {| view := types;
     put rows d :=
       {| pokemon := pokemon d; pokemon_stats := pokemon_stats d; types := rows;
          pokemon_types := pokemon_types d;
          type_effectiveness := type_effectiveness d;
          abilities := abilities d; pokemon_abilities := pokemon_abilities d;
          moves := moves d; pokemon_moves := pokemon_moves d |} |}.

Definition pokemon_types_table : table PokemonType.t :=
  {| view := pokemon_types;
     put rows d :=
       {| pokemon := pokemon d; pokemon_stats := pokemon_stats d;
          types := types d; pokemon_types := rows;
          type_effectiveness := type_effectiveness d;
          abilities := abilities d; pokemon_abilities := pokemon_abilities d;
          moves := moves d; pokemon_moves := pokemon_moves d |} |}.

Definition type_effectiveness_table : table TypeEffectiveness.t :=
  {| view := type_effectiveness;
     put rows d :=
       {| pokemon := pokemon d; pokemon_stats := pokemon_stats d;
          types := types d; pokemon_types := pokemon_types d;
          type_effectiveness := rows;
          abilities := abilities d; pokemon_abilities := pokemon_abilities d;
          moves := moves d; pokemon_moves := pokemon_moves d |} |}.

Definition abilities_table : table Ability.t :=
  {| view := abilities;
     put rows d :=
       {| pokemon := pokemon d; pokemon_stats := pokemon_stats d;
          types := types d; pokemon_types := pokemon_types d;
          type_effectiveness := type_effectiveness d;
          abilities := rows; pokemon_abilities := pokemon_abilities d;
          moves := moves d; pokemon_moves := pokemon_moves d |} |}.

Definition pokemon_abilities_table : table PokemonAbility.t :=
  {| view := pokemon_abilities;
     put rows d :=
       {| pokemon := pokemon d; pokemon_stats := pokemon_stats d;
          types := types d; pokemon_types := pokemon_types d;
          type_effectiveness := type_effectiveness d;
          abilities := abilities d; pokemon_abilities := rows;
          moves := moves d; pokemon_moves := pokemon_moves d |} |}.

Definition pokemon_moves_table : table PokemonMove.t :=
  {| view := pokemon_moves;
     put rows d :=
       {| pokemon := pokemon d; pokemon_stats := pokemon_stats d;
          types := types d; pokemon_types := pokemon_types d;
          type_effectiveness := type_effectiveness d;
          abilities := abilities d; pokemon_abilities := pokemon_abilities d;
          moves := moves d; pokemon_moves := rows |} |}.

(** *** What the database enforces *)

Fixpoint distinct {K} (eqb : K -> K -> bool) (keys : list K) : bool :=
  match keys with
  | [] => true
  | k :: rest => negb (existsb (eqb k) rest) && distinct eqb rest
  end.

Definition references (ids : list Z) (fk : Z) : bool := existsb (Z.eqb fk) ids.

Definition references_opt (ids : list Z) (fk : option Z) : bool :=
  match fk with
  | Some k => references ids k
  | None => true
  end.

(** Primary keys, the [unique=True] columns and the foreign keys.  (The
    types of the columns come below.) *)
Definition integrity_ok (d : DB) : bool :=
  let pokemon_ids := map Pokemon.id (pokemon d) in
  let type_ids := map Type_.id (types d) in
  let ability_ids := map Ability.id (abilities d) in
  let move_ids := map Move.id (moves d) in
  distinct Z.eqb pokemon_ids
  && distinct Z.eqb type_ids
  && distinct String.eqb (map Type_.name (types d))
  && distinct Z.eqb ability_ids
  && distinct String.eqb (map Ability.name (abilities d))
  && distinct Z.eqb move_ids
  && distinct String.eqb (map Move.name (moves d))
  && forallb (fun r => references pokemon_ids (PokemonStat.pokemon_id r))
       (pokemon_stats d)
  && forallb (fun r => references pokemon_ids (PokemonType.pokemon_id r)
                       && references type_ids (PokemonType.type_id r))
       (pokemon_types d)
  && forallb (fun r =>
                references type_ids (TypeEffectiveness.attack_type_id r)
                && references type_ids (TypeEffectiveness.defense_type_id r))
       (type_effectiveness d)
  && forallb (fun r => references pokemon_ids (PokemonAbility.pokemon_id r)
                       && references ability_ids (PokemonAbility.ability_id r))
       (pokemon_abilities d)
  && forallb (fun r => references_opt type_ids (Move.type_id r)) (moves d)
  && forallb (fun r => references pokemon_ids (PokemonMove.pokemon_id r)
                       && references move_ids (PokemonMove.move_id r))
       (pokemon_moves d).

(** *** What the columns hold *)

(** The column types of [src/models].  The database refuses a value
    outside the type of its column, and rounds a number given to a
    [Numeric(3, 2)] column to two decimals; the predicates tell the values
    a column holds as they are given. *)

(** [Integer]: a signed integer of 32 bits. *)
Definition Integer (value : Z) : bool :=
  (- 2147483648 <=? value) && (value <=? 2147483647).

(** [Text]: a string without the character NUL. *)
Definition Text (value : string) : bool :=
  negb (existsb (Ascii.eqb Ascii.zero) (list_ascii_of_string value)).

(** [String(n)]: at most [n] characters (counted here as bytes, which are
    no fewer). *)
Definition String_ (n : nat) (value : string) : bool :=
  Text value && (String.length value <=? n)%nat.

(** [Numeric(3, 2)]: a whole number of hundredths, below 10 in absolute
    value. *)
Definition Numeric_3_2 (value : Q) : bool :=
  let hundredths := Qnum value * 100 in
  (hundredths mod Zpos (Qden value) =? 0)
  && (Z.abs (hundredths / Zpos (Qden value)) <? 1000).

Definition nullable {A} (column : A -> bool) (value : option A) : bool :=
  match value with
  | Some v => column v
  | None => true
  end.

Definition pokemon_columns (r : Pokemon.t) : bool :=
  Integer (Pokemon.id r) && String_ 100 (Pokemon.name r)
  && Integer (Pokemon.height r) && Integer (Pokemon.weight r)
  && nullable Integer (Pokemon.base_experience r)
  && nullable Integer (Pokemon.order_num r).

Definition pokemon_stat_columns (r : PokemonStat.t) : bool :=
  Integer (PokemonStat.pokemon_id r) && String_ 50 (PokemonStat.stat_name r)
  && Integer (PokemonStat.base_value r).

Definition type_columns (r : Type_.t) : bool :=
  Integer (Type_.id r) && String_ 50 (Type_.name r).

Definition pokemon_type_columns (r : PokemonType.t) : bool :=
  Integer (PokemonType.pokemon_id r) && Integer (PokemonType.type_id r)
  && Integer (PokemonType.slot r).

Definition type_effectiveness_columns (r : TypeEffectiveness.t) : bool :=
  Integer (TypeEffectiveness.attack_type_id r)
  && Integer (TypeEffectiveness.defense_type_id r)
  && Numeric_3_2 (TypeEffectiveness.effectiveness r).

Definition pokemon_ability_columns (r : PokemonAbility.t) : bool :=
  Integer (PokemonAbility.pokemon_id r)
  && Integer (PokemonAbility.ability_id r)
  && Integer (PokemonAbility.slot r).

Definition pokemon_move_columns (r : PokemonMove.t) : bool :=
  Integer (PokemonMove.pokemon_id r) && Integer (PokemonMove.move_id r)
  && nullable Integer (PokemonMove.level_learned_at r)
  && nullable (String_ 50) (PokemonMove.learn_method r).

End Schema.

(** ** The database loader ([src/loading/db_loader.py]) *)

Module Loader.
Import Schema.

(** The dictionaries handed to the loader are taken as records with the
    columns of the mapped class, the keys the transformers emit.  A value
    is stored as it is given, which is what the database does with the
    values its columns hold ([Schema], "What the columns hold"); the
    statements that turn on a stored value or on the acceptance of a load
    suppose such values.

    The SQLAlchemy session of a [DatabaseLoader], made with
    [autoflush=False] ([src/models/base.py]):

    - [store]: what the database holds, i.e. what is committed;
    - [live]: the identity map, the persistent objects with the attribute
      values assigned in this transaction; its [i]-th row of a table is the
      object of the [i]-th stored row;
    - [pending]: the objects passed to [add], not yet flushed, which no
      query sees;
    - [faults]: for each coming round trip to the database, whether it
      fails; an exhausted list means no more failures. *)
Record Session : Type := {
  store : DB;
  live : DB;
  pending : DB;
  faults : list bool
}.

Definition set_live (d : DB) (s : Session) : Session :=
  {| store := store s; live := d; pending := pending s; faults := faults s |}.

Definition set_pending (d : DB) (s : Session) : Session :=
  {| store := store s; live := live s; pending := d; faults := faults s |}.

Definition set_faults (f : list bool) (s : Session) : Session :=
  {| store := store s; live := live s; pending := pending s; faults := f |}.

(** Nothing is staged: the state of a session after [commit] or
    [rollback]. *)
Definition clean (s : Session) : Prop :=
  live s = store s /\ pending s = empty_db.

(** One round trip to the database. *)
Definition round_trip : M Session unit :=
  fun s =>
    match faults s with
    | [] => (s, Ret tt)
    | false :: rest => (set_faults rest s, Ret tt)
    | true :: rest => (set_faults rest s, Raise OperationalError)
    end.

Fixpoint find_index {R} (p : R -> bool) (rows : list R) : option nat :=
  match rows with
  | [] => None
  | r :: rest => if p r then Some O else option_map S (find_index p rest)
  end.

Fixpoint update_at {R} (i : nat) (f : R -> R) (rows : list R) : list R :=
  match rows, i with
  | [], _ => []
  | r :: rest, O => f r :: rest
  | r :: rest, S j => r :: update_at j f rest
  end.

(** [self.db.query(C).filter(p).first()]: a SELECT over the stored rows;
    the answer is the mapped object of the first row found, named by its
    position.  (The query has no ORDER BY: where several rows match, the
    database may answer with another of them.) *)
Definition query_first {R} (T : table R) (p : R -> bool)
  : M Session (option nat) :=
  (round_trip ;;
   fun s => (s, Ret (find_index p (view T (store s)))))%monad.

(** Attribute assignment on a persistent object. *)
Definition set_attributes {R} (T : table R) (obj : nat) (f : R -> R)
  : M Session unit :=
  fun s =>
    (set_live (put T (update_at obj f (view T (live s))) (live s)) s, Ret tt).

(** [self.db.add(obj)]. *)
Definition add {R} (T : table R) (obj : R) : M Session unit :=
  fun s =>
    (set_pending (put T (view T (pending s) ++ [obj]) (pending s)) s, Ret tt).

(** [self.db.commit()]: flush the assigned attributes and the added
    objects, which the database accepts only if its constraints hold
    afterwards.  (PostgreSQL checks a unique column at each UPDATE and
    INSERT of the flush, so it also refuses a flush that breaks the
    constraint on the way.) *)
Definition commit : M Session unit :=
  (round_trip ;;
   fun s =>
     let flushed := db_app (live s) (pending s) in
     if integrity_ok flushed
     then ({| store := flushed; live := flushed; pending := empty_db;
              faults := faults s |}, Ret tt)
     else (s, Raise IntegrityError))%monad.

(** [self.db.rollback()]. *)
Definition rollback : M Session unit :=
  fun s =>
    ({| store := store s; live := store s; pending := empty_db;
        faults := faults s |}, Ret tt).

(** [try: body; self.db.commit() except Exception: self.db.rollback();
    raise]: the frame of every write method. *)
Definition unit_of_work (body : M Session unit) : M Session unit :=
  (body ;; commit)%monad.

Definition transaction (body : M Session unit) : M Session unit :=
  try_except (unit_of_work body) (fun e => (rollback ;; raise e)%monad).

(** Query by natural key, then assign the attributes or add: the step the
    write methods repeat per entity.  [same_key data] is the filter of the
    query, [assign data] the assignments of the update branch; the insert
    branch adds the object built from [data]. *)
Definition upsert {R} (T : table R) (same_key : R -> R -> bool)
    (assign : R -> R -> R) (data : R) : M Session unit :=
  (let* existing := query_first T (same_key data) in
   match existing with
   | Some obj => set_attributes T obj (assign data)
   | None => add T data
   end)%monad.

(** *** [load_pokemon] (lines 32-66) *)

Definition pokemon_key (data row : Pokemon.t) : bool :=
  Pokemon.id row =? Pokemon.id data.

(** [for key, value in pokemon_data.items(): setattr(existing, key, value)]
    with the seven keys the transformer emits. *)
Definition pokemon_assign (data row : Pokemon.t) : Pokemon.t :=
  {| Pokemon.id := Pokemon.id data;
     Pokemon.name := Pokemon.name data;
     Pokemon.height := Pokemon.height data;
     Pokemon.weight := Pokemon.weight data;
     Pokemon.base_experience := Pokemon.base_experience data;
     Pokemon.is_default := Pokemon.is_default data;
     Pokemon.order_num := Pokemon.order_num data |}.

Definition load_pokemon (pokemon_data : Pokemon.t) : M Session unit :=
  transaction (upsert pokemon_table pokemon_key pokemon_assign pokemon_data).

(** *** [load_pokemon_stats] (lines 68-105) *)

Definition stat_key (data row : PokemonStat.t) : bool :=
  (PokemonStat.pokemon_id row =? PokemonStat.pokemon_id data)
  && String.eqb (PokemonStat.stat_name row) (PokemonStat.stat_name data).

Definition stat_assign (data row : PokemonStat.t) : PokemonStat.t :=
  {| PokemonStat.pokemon_id := PokemonStat.pokemon_id row;
     PokemonStat.stat_name := PokemonStat.stat_name row;
     PokemonStat.base_value := PokemonStat.base_value data |}.

Definition load_pokemon_stats (stats_data : list PokemonStat.t)
  : M Session unit :=
  transaction (for_each (upsert pokemon_stats_table stat_key stat_assign)
                 stats_data).

(** *** [load_types] (lines 107-141) *)

Definition type_key (data row : Type_.t) : bool :=
  Type_.id row =? Type_.id data.

Definition type_assign (data row : Type_.t) : Type_.t :=
  {| Type_.id := Type_.id row; Type_.name := Type_.name data |}.

Definition load_types (types_data : list Type_.t) : M Session unit :=
  transaction (for_each (upsert types_table type_key type_assign) types_data).

(** *** [load_type_effectiveness] (lines 143-180) *)

Definition effectiveness_key (data row : TypeEffectiveness.t) : bool :=
  (TypeEffectiveness.attack_type_id row
     =? TypeEffectiveness.attack_type_id data)
  && (TypeEffectiveness.defense_type_id row
        =? TypeEffectiveness.defense_type_id data).

Definition effectiveness_assign (data row : TypeEffectiveness.t)
  : TypeEffectiveness.t :=
  {| TypeEffectiveness.attack_type_id := TypeEffectiveness.attack_type_id row;
     TypeEffectiveness.defense_type_id := TypeEffectiveness.defense_type_id row;
     TypeEffectiveness.effectiveness := TypeEffectiveness.effectiveness data |}.

Definition load_type_effectiveness
    (effectiveness_data : list TypeEffectiveness.t) : M Session unit :=
  transaction (for_each (upsert type_effectiveness_table effectiveness_key
                           effectiveness_assign)
                 effectiveness_data).

(** *** [load_pokemon_types] (lines 182-219) *)

Definition pokemon_type_key (data row : PokemonType.t) : bool :=
  (PokemonType.pokemon_id row =? PokemonType.pokemon_id data)
  && (PokemonType.type_id row =? PokemonType.type_id data).

Definition pokemon_type_assign (data row : PokemonType.t) : PokemonType.t :=
  {| PokemonType.pokemon_id := PokemonType.pokemon_id row;
     PokemonType.type_id := PokemonType.type_id row;
     PokemonType.slot := PokemonType.slot data |}.

Definition load_pokemon_types (pokemon_types_data : list PokemonType.t)
  : M Session unit :=
  transaction (for_each (upsert pokemon_types_table pokemon_type_key
                           pokemon_type_assign)
                 pokemon_types_data).

(** *** [load_all_ability_data] (lines 275-299) *)

Definition ability_key (data row : Ability.t) : bool :=
  Ability.id row =? Ability.id data.

Definition ability_assign (data row : Ability.t) : Ability.t :=
  {| Ability.id := Ability.id data;
     Ability.name := Ability.name data;
     Ability.effect_text := Ability.effect_text data;
     Ability.short_effect := Ability.short_effect data |}.

Definition load_all_ability_data (transformed_data : list Ability.t)
  : M Session unit :=
  transaction (for_each (upsert abilities_table ability_key ability_assign)
                 transformed_data).

(** *** [_load_pokemon_ability] (lines 301-326) *)

Definition pokemon_ability_key (data row : PokemonAbility.t) : bool :=
  (PokemonAbility.pokemon_id row =? PokemonAbility.pokemon_id data)
  && (PokemonAbility.ability_id row =? PokemonAbility.ability_id data).

Definition pokemon_ability_assign (data row : PokemonAbility.t)
  : PokemonAbility.t :=
  {| PokemonAbility.pokemon_id := PokemonAbility.pokemon_id row;
     PokemonAbility.ability_id := PokemonAbility.ability_id row;
     PokemonAbility.is_hidden := PokemonAbility.is_hidden data;
     PokemonAbility.slot := PokemonAbility.slot data |}.

Definition _load_pokemon_ability (ability_data : PokemonAbility.t)
  : M Session unit :=
  transaction (upsert pokemon_abilities_table pokemon_ability_key
                 pokemon_ability_assign ability_data).

(** *** [_load_pokemon_move] (lines 328-353) *)

Definition option_eqb {A} (eqb : A -> A -> bool) (x y : option A) : bool :=
  match x, y with
  | Some a, Some b => eqb a b
  | None, None => true
  | _, _ => false
  end.

(** [PokemonMove.learn_method == None] is rendered [IS NULL]. *)
Definition pokemon_move_key (data row : PokemonMove.t) : bool :=
  (PokemonMove.pokemon_id row =? PokemonMove.pokemon_id data)
  && (PokemonMove.move_id row =? PokemonMove.move_id data)
  && option_eqb String.eqb (PokemonMove.learn_method row)
       (PokemonMove.learn_method data).

Definition pokemon_move_assign (data row : PokemonMove.t) : PokemonMove.t :=
  {| PokemonMove.pokemon_id := PokemonMove.pokemon_id row;
     PokemonMove.move_id := PokemonMove.move_id row;
     PokemonMove.level_learned_at := PokemonMove.level_learned_at data;
     PokemonMove.learn_method := PokemonMove.learn_method row |}.

Definition _load_pokemon_move (move_data : PokemonMove.t) : M Session unit :=
  transaction (upsert pokemon_moves_table pokemon_move_key
                 pokemon_move_assign move_data).

(** *** The composite loads (lines 221-273) *)

(** The dictionary [transform_pokemon_batch] returns. *)
Record PokemonBatch : Type := {
  batch_pokemon : list Pokemon.t;
  batch_stats : list PokemonStat.t;
  batch_types : list PokemonType.t;
  batch_abilities : list PokemonAbility.t;
  batch_moves : list PokemonMove.t
}.

Definition load_all_pokemon_data (transformed_data : PokemonBatch)
  : M Session unit :=
  try_except
    (for_each load_pokemon (batch_pokemon transformed_data) ;;
     load_pokemon_stats (batch_stats transformed_data) ;;
     load_pokemon_types (batch_types transformed_data) ;;
     for_each _load_pokemon_ability (batch_abilities transformed_data) ;;
     for_each _load_pokemon_move (batch_moves transformed_data))%monad
    (fun e => raise e).

(** The dictionary [transform_type_batch] returns. *)
Record TypeBatch : Type := {
  batch_type_rows : list Type_.t;
  batch_effectiveness : list TypeEffectiveness.t
}.

Definition load_all_type_data (transformed_data : TypeBatch)
  : M Session unit :=
  try_except
    (load_types (batch_type_rows transformed_data) ;;
     load_type_effectiveness (batch_effectiveness transformed_data))%monad
    (fun e => raise e).

(** *** The write methods, as one family *)

(** A call of one of the eight methods that open a transaction. *)
Inductive write_call : Type :=
| LoadPokemon (pokemon_data : Pokemon.t)
| LoadPokemonStats (stats_data : list PokemonStat.t)
| LoadTypes (types_data : list Type_.t)
| LoadTypeEffectiveness (effectiveness_data : list TypeEffectiveness.t)
| LoadPokemonTypes (pokemon_types_data : list PokemonType.t)
| LoadAllAbilityData (transformed_data : list Ability.t)
| LoadPokemonAbility (ability_data : PokemonAbility.t)
| LoadPokemonMove (move_data : PokemonMove.t).

Definition run (c : write_call) : M Session unit :=
  match c with
  | LoadPokemon d => load_pokemon d
  | LoadPokemonStats l => load_pokemon_stats l
  | LoadTypes l => load_types l
  | LoadTypeEffectiveness l => load_type_effectiveness l
  | LoadPokemonTypes l => load_pokemon_types l
  | LoadAllAbilityData l => load_all_ability_data l
  | LoadPokemonAbility d => _load_pokemon_ability d
  | LoadPokemonMove d => _load_pokemon_move d
  end.

(** What the [try] block of the call stages before it commits. *)
Definition staging (c : write_call) : M Session unit :=
  match c with
  | LoadPokemon d => upsert pokemon_table pokemon_key pokemon_assign d
  | LoadPokemonStats l =>
      for_each (upsert pokemon_stats_table stat_key stat_assign) l
  | LoadTypes l => for_each (upsert types_table type_key type_assign) l
  | LoadTypeEffectiveness l =>
      for_each (upsert type_effectiveness_table effectiveness_key
                  effectiveness_assign) l
  | LoadPokemonTypes l =>
      for_each (upsert pokemon_types_table pokemon_type_key
                  pokemon_type_assign) l
  | LoadAllAbilityData l =>
      for_each (upsert abilities_table ability_key ability_assign) l
  | LoadPokemonAbility d =>
      upsert pokemon_abilities_table pokemon_ability_key
        pokemon_ability_assign d
  | LoadPokemonMove d =>
      upsert pokemon_moves_table pokemon_move_key pokemon_move_assign d
  end.

End Loader.

(** ** The type analyzer ([src/analytics/type_analyzer.py]) *)

Module Analyzer.
Import Schema.

(** The analyzer reads the store and never writes it.  Its queries are
    raw [text()] statements run on PostgreSQL ([src/models/base.py], with
    psycopg2 as the driver), so a cell of the [Numeric(3, 2)] column
    [effectiveness] arrives as a [decimal.Decimal]; the literal [1.0] is a
    float.  Python neither multiplies nor adds a Decimal and a float: it
    raises [TypeError]. *)

(** The numbers the analyzer meets, each with its value.  The floats that
    arise are 1.0 and what the code computes from it. *)
Inductive number : Type :=
| Decimal (value : Q)
| Float (value : Q).

Definition value_of (x : number) : Q :=
  match x with
  | Decimal value => value
  | Float value => value
  end.

(** *** pandas *)

(** A row of the result of the query of lines 37-45. *)
Record EffectivenessRow : Type := {
  attacking_type : string;
  defending_type : string;
  effectiveness : Q
}.

(** A data frame in matrix form: row labels, column labels and the cell of
    each pair of labels. *)
Record Frame (V : Type) : Type := {
  index : list string;
  columns : list string;
  cell : string -> string -> V
}.
Arguments index {V} _.
Arguments columns {V} _.
Arguments cell {V} _ _ _.

Definition mem (x : string) (labels : list string) : bool :=
  existsb (String.eqb x) labels.

(** The labels of a pivoted axis: sorted, each once. *)
Fixpoint insert_label (x : string) (labels : list string) : list string :=
  match labels with
  | [] => [x]
  | y :: rest =>
      match String.compare x y with
      | Lt => x :: labels
      | Eq => labels
      | Gt => y :: insert_label x rest
      end
  end.

Definition unique_sorted (labels : list string) : list string :=
  fold_right insert_label [] labels.

Definition same_pair (a d : string) (r : EffectivenessRow) : bool :=
  String.eqb (attacking_type r) a && String.eqb (defending_type r) d.

Fixpoint has_duplicate_pair (rows : list EffectivenessRow) : bool :=
  match rows with
  | [] => false
  | r :: rest =>
      existsb (same_pair (attacking_type r) (defending_type r)) rest
      || has_duplicate_pair rest
  end.

(** [df.pivot(index="attacking_type", columns="defending_type",
    values="effectiveness")]: [ValueError] on a repeated pair of labels; a
    cell without a row is NaN, here [None]; a cell with a row holds the
    Decimal of the row. *)
Definition pivot (rows : list EffectivenessRow) : result (Frame (option Q)) :=
  if has_duplicate_pair rows then Raise ValueError
  else
    Ret {| index := unique_sorted (map attacking_type rows);
           columns := unique_sorted (map defending_type rows);
           cell a d := option_map effectiveness (find (same_pair a d) rows) |}.

(** [matrix.fillna(value)] for a float [value]: the cells that hold a
    Decimal keep it. *)
Definition fillna (value : Q) (matrix : Frame (option Q)) : Frame number :=
  {| index := index matrix;
     columns := columns matrix;
     cell a d := match cell matrix a d with
                 | Some v => Decimal v
                 | None => Float value
                 end |}.

(** [matrix.loc[a, d]]. *)
Definition loc {V} (matrix : Frame V) (a d : string) : result V :=
  if mem a (index matrix) && mem d (columns matrix)
  then Ret (cell matrix a d)
  else Raise KeyError.

(** A stable sort, by insertion; [before x y] tells that [x] may stand
    before [y]. *)
Fixpoint insert_by {A} (before : A -> A -> bool) (x : A) (sorted : list A)
  : list A :=
  match sorted with
  | [] => [x]
  | y :: rest =>
      if before x y then x :: sorted else y :: insert_by before x rest
  end.

Definition sort_by {A} (before : A -> A -> bool) (rows : list A) : list A :=
  fold_right (insert_by before) [] rows.

(** [df.head(n)]: the first [n] rows, or all but the last [-n] rows when
    [n] is negative. *)
Definition head {A} (n : Z) (rows : list A) : list A :=
  if 0 <=? n then firstn (Z.to_nat n) rows
  else firstn (length rows - Z.to_nat (- n)) rows.

(** *** [get_effectiveness_matrix] (lines 30-60) *)

Definition types_with_id (db : DB) (type_id : Z) : list Type_.t :=
  List.filter (fun t => Type_.id t =? type_id) (types db).

(** The SELECT with its two inner joins on [types]. *)
Definition effectiveness_query (db : DB) : list EffectivenessRow :=
  flat_map
    (fun te =>
       flat_map
         (fun at_ =>
            map (fun dt =>
                   {| attacking_type := Type_.name at_;
                      defending_type := Type_.name dt;
                      effectiveness := TypeEffectiveness.effectiveness te |})
              (types_with_id db (TypeEffectiveness.defense_type_id te)))
         (types_with_id db (TypeEffectiveness.attack_type_id te)))
    (type_effectiveness db).

Definition get_effectiveness_matrix (db : DB) : result (Frame number) :=
  (let? matrix := pivot (effectiveness_query db) in
   Ret (fillna 1 matrix))%result.

(** *** [get_pokemon_weakness_profile] (lines 128-182) *)

Record ProfileRow : Type := {
  profile_type : string;        (* column "attacking_type" *)
  profile_effectiveness : Q     (* column "effectiveness", of floats *)
}.

(** The query of lines 139-145: the names of the Pokemon's types, by
    slot. *)
Definition pokemon_types_query (db : DB) (pokemon_id : Z) : list string :=
  flat_map
    (fun pt => map Type_.name (types_with_id db (PokemonType.type_id pt)))
    (sort_by (fun x y => PokemonType.slot x <=? PokemonType.slot y)
       (List.filter (fun pt => PokemonType.pokemon_id pt =? pokemon_id)
          (pokemon_types db))).

(** [SELECT name FROM pokemon WHERE id = :pokemon_id] and
    [fetchone()[0]]: subscripting [None] raises. *)
Definition pokemon_name_query (db : DB) (pokemon_id : Z) : result string :=
  match find (fun p => Pokemon.id p =? pokemon_id) (pokemon db) with
  | Some p => Ret (Pokemon.name p)
  | None => Raise TypeError
  end.

(** [x *= y] for a float [x] (line 164): the product with a float;
    [TypeError] with a Decimal, which neither [float.__mul__] nor
    [Decimal.__rmul__] accepts. *)
Definition float_times (x : Q) (y : number) : result Q :=
  match y with
  | Float value => Ret (x * value)%Q
  | Decimal _ => Raise TypeError
  end.

(** The inner loop of lines 161-164, from the float
    [combined_effectiveness]. *)
Fixpoint combine (matrix : Frame number) (attack_type : string)
    (pokemon_types : list string) (combined_effectiveness : Q) : result Q :=
  match pokemon_types with
  | [] => Ret combined_effectiveness
  | defense_type :: rest =>
      if mem defense_type (columns matrix) then
        (let? value := loc matrix attack_type defense_type in
         let? combined_effectiveness :=
           float_times combined_effectiveness value in
         combine matrix attack_type rest combined_effectiveness)%result
      else combine matrix attack_type rest combined_effectiveness
  end.

Definition by_effectiveness_descending (x y : ProfileRow) : bool :=
  Qle_bool (profile_effectiveness y) (profile_effectiveness x).

(** One row per label of [matrix.index] (the labels are distinct, so the
    dictionary of line 158 keeps them all, in order).  A frame built from
    an empty list has no column to sort by. *)
Definition get_pokemon_weakness_profile (db : DB) (pokemon_id : Z)
  : result (list ProfileRow) :=
  let pokemon_types := pokemon_types_query db pokemon_id in
  match pokemon_types with
  | [] => Ret []
  | _ =>
      (let? matrix := get_effectiveness_matrix db in
       let? effectiveness_against :=
         rmap (fun attack_type =>
                 let? e := combine matrix attack_type pokemon_types 1%Q in
                 Ret {| profile_type := attack_type;
                        profile_effectiveness := e |})
           (index matrix) in
       let? df :=
         match effectiveness_against with
         | [] => Raise KeyError
         | _ => Ret (sort_by by_effectiveness_descending effectiveness_against)
         end in
       let? pokemon_name := pokemon_name_query db pokemon_id in
       Ret df)%result
  end.

(** *** [recommend_counter_types] (lines 184-225) *)

Record CounterRow : Type := {
  counter_type : string;        (* column "attacking_type" *)
  counter_effectiveness : Q;    (* column "effectiveness" *)
  description : string
}.

Section WithFormat.

(** [f"{value}"], the text Python prints for the number. *)
Variable format_value : Q -> string.

Definition get_effectiveness_label (value : Q) : string :=
  if Qle_bool 4 value then "4× (extremely effective)"
  else if Qle_bool 2 value then "2× (super effective)"
  else format_value value ++ "× (effective)".

Definition recommend_counter_types (db : DB) (pokemon_id : Z) (top_n : Z)
  : result (list CounterRow) :=
  (let? weakness_profile := get_pokemon_weakness_profile db pokemon_id in
   match weakness_profile with
   | [] => Ret []
   | _ =>
       let counters :=
         List.filter (fun r => negb (Qle_bool (profile_effectiveness r) 1))
           weakness_profile in
       let counters := sort_by by_effectiveness_descending counters in
       let counters :=
         if Z.of_nat (length counters) >? top_n then head top_n counters
         else counters in
       let counters :=
         map (fun r =>
                {| counter_type := profile_type r;
                   counter_effectiveness := profile_effectiveness r;
                   description :=
                     get_effectiveness_label (profile_effectiveness r) |})
           counters in
       let? pokemon_name := pokemon_name_query db pokemon_id in
       Ret counters
   end)%result.

End WithFormat.

End Analyzer.


(** ** Sample data for the client *)

Module ApiClientSamples.
Import Json ApiClient.

(** A client, a cold cache and a network that serves one document. *)
Definition demo_client : client :=
  {| base_url := "https://pokeapi.co/api/v2"; request_interval := 3000;
     cache_dir := "cache" |}.

Definition cold : world :=
  {| files := ∅; last_request_time := 0; now := 10; requests := [] |}.

Definition fighting : json := JObj [("id", JInt 2); ("name", JStr "fighting")].

Definition steady : network := fun _ _ => Body fighting.

(** A network whose first answer is a failure. *)
Definition flaky : network :=
  fun n _ => match n with O => Fails RequestException | _ => Body fighting end.

End ApiClientSamples.

(** ** Vocabulary and sample data for the transformer *)

Module TransformerTerms.
Import Json Transformer.

(** [raw_data.get('moves', [])], as the loop of line 69 walks it. *)
Definition move_entries (raw_data : json) : result (list json) :=
  (let? value := py_get raw_data "moves" (JList []) in py_iter value)%result.

(** [move_entry.get('version_group_details', [])], as the loop of line 72
    walks it. *)
Definition version_group_details (move_entry : json) : result (list json) :=
  (let? value := py_get move_entry "version_group_details" (JList []) in
   py_iter value)%result.

(** [version_group_detail['version_group']['name']] is one of the three
    names. *)
Definition in_version_groups (version_group_detail : json) : bool :=
  match (let? version_group :=
           py_getitem version_group_detail "version_group" in
         py_getitem version_group "name")%result with
  | Ret group_name => py_in group_name version_groups
  | Raise _ => false
  end.

(** [move_entry['move']['url']]. *)
Definition move_url (move_entry : json) : result json :=
  (let? move := py_getitem move_entry "move" in py_getitem move "url")%result.

(** [version_group_detail['move_learn_method']['name']]. *)
Definition learn_method_name (version_group_detail : json) : result json :=
  (let? method := py_getitem version_group_detail "move_learn_method" in
   py_getitem method "name")%result.

(** A version-group detail the inner loop can process: its version group
    has a name, and when the name is an allowed one, it has a level and a
    learn method with a name. *)
Definition well_formed_detail (version_group_detail : json) : Prop :=
  exists version_group group_name,
    py_getitem version_group_detail "version_group" = Ret version_group
    /\ py_getitem version_group "name" = Ret group_name
    /\ (py_in group_name version_groups = true ->
        exists level method,
          py_getitem version_group_detail "level_learned_at" = Ret level
          /\ learn_method_name version_group_detail = Ret method).

Definition named (name url : string) : json :=
  JObj [("name", JStr name); ("url", JStr url)].

Definition detail (level : Z) (method group : string) : json :=
  JObj [("level_learned_at", JInt level);
        ("move_learn_method",
         named method "https://pokeapi.co/api/v2/move-learn-method/4/");
        ("version_group",
         named group "https://pokeapi.co/api/v2/version-group/20/")].

(** The record of the transformer's test, with a second and a third move:
    thunderbolt is learnt by machine in sword-shield, tackle is listed
    under an older group first, and pound only under older groups. *)
Definition pikachu : json :=
  JObj [("id", JInt 25); ("name", JStr "pikachu"); ("height", JInt 4);
        ("weight", JInt 60); ("base_experience", JInt 112);
        ("is_default", JBool true); ("order", JInt 35);
        ("stats",
         JList [JObj [("base_stat", JInt 35); ("effort", JInt 0);
                      ("stat", named "hp" "https://pokeapi.co/api/v2/stat/1/")]]);
        ("types",
         JList [JObj [("slot", JInt 1);
                      ("type",
                       named "electric" "https://pokeapi.co/api/v2/type/13/")]]);
        ("abilities",
         JList [JObj [("ability",
                       named "static" "https://pokeapi.co/api/v2/ability/9/");
                      ("is_hidden", JBool false); ("slot", JInt 1)]]);
        ("moves",
         JList [JObj [("move",
                       named "thunderbolt" "https://pokeapi.co/api/v2/move/85/");
                      ("version_group_details",
                       JList [detail 0 "machine" "sword-shield"])];
                JObj [("move",
                       named "tackle" "https://pokeapi.co/api/v2/move/33/");
                      ("version_group_details",
                       JList [detail 1 "level-up" "red-blue";
                              detail 5 "level-up" "sun-moon";
                              detail 7 "tutor" "x-y"])];
                JObj [("move",
                       named "pound" "https://pokeapi.co/api/v2/move/1/");
                      ("version_group_details",
                       JList [detail 1 "level-up" "red-blue";
                              detail 1 "level-up" "gold-silver"])]])].

End TransformerTerms.

(** ** Vocabulary and sample data for the analyzer *)

Module AnalyzerTerms.
Import Schema Analyzer.





(** Some stored row has the type as its attacker, as its defender. *)
Definition attacks (db : DB) (t : Type_.t) : bool :=
  existsb (fun te => TypeEffectiveness.attack_type_id te =? Type_.id t)
    (type_effectiveness db).

Definition defends (db : DB) (t : Type_.t) : bool :=
  existsb (fun te => TypeEffectiveness.defense_type_id te =? Type_.id t)
    (type_effectiveness db).

(** The stored row of an ordered pair of types, if any. *)
Definition stored_pair (db : DB) (attacker defender : Type_.t)
  : option TypeEffectiveness.t :=
  find (fun te =>
          (TypeEffectiveness.attack_type_id te =? Type_.id attacker)
          && (TypeEffectiveness.defense_type_id te =? Type_.id defender))
    (type_effectiveness db).

Definition a_type (id : Z) (name : string) : Type_.t :=
  {| Type_.id := id; Type_.name := name |}.

Definition relation (attack defense : Z) (e : Q) : TypeEffectiveness.t :=
  {| TypeEffectiveness.attack_type_id := attack;
     TypeEffectiveness.defense_type_id := defense;
     TypeEffectiveness.effectiveness := e |}.

Definition a_pokemon (id : Z) (name : string) : Pokemon.t :=
  {| Pokemon.id := id; Pokemon.name := name; Pokemon.height := 10;
     Pokemon.weight := 100; Pokemon.base_experience := Some 64;
     Pokemon.is_default := true; Pokemon.order_num := None |}.

Definition has_type (pokemon type slot : Z) : PokemonType.t :=
  {| PokemonType.pokemon_id := pokemon; PokemonType.type_id := type;
     PokemonType.slot := slot |}.

(** A store with four types that have damage relations and the type
    "unknown", which the API lists without any; a fire and ground Pokemon
    (322), a water Pokemon (7), a Pokemon without types (999) and a fire
    and unknown Pokemon (1000). *)
Definition demo_db : DB :=
  {| pokemon := [a_pokemon 322 "numel"; a_pokemon 7 "squirtle";
                 a_pokemon 999 "blank"; a_pokemon 1000 "mystery"];
     pokemon_stats := [];
     types := [a_type 10 "fire"; a_type 11 "water"; a_type 12 "grass";
               a_type 5 "ground"; a_type 10001 "unknown"];
     pokemon_types := [has_type 322 10 1; has_type 322 5 2; has_type 7 11 1;
                       has_type 1000 10 1; has_type 1000 10001 2];
     type_effectiveness :=
       [relation 10 11 0.5; relation 10 12 2; relation 10 10 0.5;
        relation 11 10 2; relation 11 12 0.5; relation 11 5 2;
        relation 11 11 0.5;
        relation 12 10 0.5; relation 12 11 2; relation 12 5 2;
        relation 5 10 2; relation 5 12 0.5];
     abilities := []; pokemon_abilities := []; moves := [];
     pokemon_moves := [] |}.

(** The store [demo_db] with the type "shadow", which like "unknown" has
    no damage relations, a Pokemon of the types unknown and shadow (10100)
    and a Pokemon of the type shadow (10101). *)
Definition shadow_db : DB :=
  {| pokemon := pokemon demo_db
                ++ [a_pokemon 10100 "missingno"; a_pokemon 10101 "lugia"];
     pokemon_stats := [];
     types := types demo_db ++ [a_type 10002 "shadow"];
     pokemon_types := pokemon_types demo_db
                      ++ [has_type 10100 10001 1; has_type 10100 10002 2;
                          has_type 10101 10002 1];
     type_effectiveness := type_effectiveness demo_db;
     abilities := []; pokemon_abilities := []; moves := [];
     pokemon_moves := [] |}.

(** A rendering of numbers, to run [recommend_counter_types]. *)
Definition render (value : Q) : string := "1.5".

End AnalyzerTerms.

(** ** Vocabulary and sample data for the loader *)

Module LoaderTerms.
Import Schema Loader.

(** *** What a batch of upserts stages *)

(** The identity map after the upsert of [data], run against the stored
    rows [rows]: when the query finds a row, its object is assigned to. *)
Definition stage_one {R} (same_key : R -> R -> bool) (assign : R -> R -> R)
    (rows : list R) (objects : list R) (data : R) : list R :=
  match find_index (same_key data) rows with
  | Some obj => update_at obj (assign data) objects
  | None => objects
  end.

(** The identity map after the upserts of [batch]. *)
Definition staged_live {R} (same_key : R -> R -> bool) (assign : R -> R -> R)
    (rows : list R) (batch : list R) (objects : list R) : list R :=
  fold_left (stage_one same_key assign rows) batch objects.

(** The objects added by the upserts of [batch]: the entities whose query
    finds no stored row. *)
Definition staged_pending {R} (same_key : R -> R -> bool) (rows : list R)
    (batch : list R) : list R :=
  List.filter
    (fun data =>
       match find_index (same_key data) rows with
       | Some _ => false
       | None => true
       end)
    batch.

(** The table after the commit. *)
Definition upserted {R} (same_key : R -> R -> bool) (assign : R -> R -> R)
    (rows : list R) (batch : list R) : list R :=
  staged_live same_key assign rows batch rows
  ++ staged_pending same_key rows batch.

(** *** The entity types *)

(** An entity type of the loader: its table, the filter of its existence
    query, and the way a list of its entities is loaded (the method itself
    when it takes a list, the caller's loop of lines 230-247 when it takes
    one entity). *)
Record entity_kind : Type := {
  row : Type;
  tbl : table row;
  same_key : row -> row -> bool;
  load : list row -> M Session unit
}.

Definition pokemon_kind : entity_kind :=
  {| tbl := pokemon_table; same_key := pokemon_key;
     load := for_each load_pokemon |}.

Definition stat_kind : entity_kind :=
  {| tbl := pokemon_stats_table; same_key := stat_key;
     load := load_pokemon_stats |}.

Definition type_kind : entity_kind :=
  {| tbl := types_table; same_key := type_key; load := load_types |}.

Definition effectiveness_kind : entity_kind :=
  {| tbl := type_effectiveness_table; same_key := effectiveness_key;
     load := load_type_effectiveness |}.

Definition pokemon_type_kind : entity_kind :=
  {| tbl := pokemon_types_table; same_key := pokemon_type_key;
     load := load_pokemon_types |}.

Definition ability_kind : entity_kind :=
  {| tbl := abilities_table; same_key := ability_key;
     load := load_all_ability_data |}.

Definition pokemon_ability_kind : entity_kind :=
  {| tbl := pokemon_abilities_table; same_key := pokemon_ability_key;
     load := for_each _load_pokemon_ability |}.

Definition pokemon_move_kind : entity_kind :=
  {| tbl := pokemon_moves_table; same_key := pokemon_move_key;
     load := for_each _load_pokemon_move |}.

Definition entity_kinds : list entity_kind :=
  [pokemon_kind; stat_kind; type_kind; effectiveness_kind; pokemon_type_kind;
   ability_kind; pokemon_ability_kind; pokemon_move_kind].

(** The entity types whose rows the Pokemon transformer and the type
    transformer emit, with the columns of the table as keys.  (The ability
    transformer emits other keys than the columns of [abilities].) *)
Definition transformed_kinds : list entity_kind :=
  [pokemon_kind; stat_kind; type_kind; effectiveness_kind; pokemon_type_kind;
   pokemon_ability_kind; pokemon_move_kind].

(** A transformed entity whose values the columns of its table hold as
    they are given: the integers have 32 bits, the names the declared
    lengths, and an effectiveness is a number of hundredths below 10, as
    the 0.0, 0.5 and 2.0 of the type transformer are. *)
Inductive held_as_given : forall K : entity_kind, row K -> Prop :=
| pokemon_held e :
    pokemon_columns e = true -> held_as_given pokemon_kind e
| stat_held e :
    pokemon_stat_columns e = true -> held_as_given stat_kind e
| type_held e :
    type_columns e = true -> held_as_given type_kind e
| effectiveness_held e :
    type_effectiveness_columns e = true ->
    held_as_given effectiveness_kind e
| pokemon_type_held e :
    pokemon_type_columns e = true -> held_as_given pokemon_type_kind e
| pokemon_ability_held e :
    pokemon_ability_columns e = true ->
    held_as_given pokemon_ability_kind e
| pokemon_move_held e :
    pokemon_move_columns e = true -> held_as_given pokemon_move_kind e.

(** The stored rows of the kind that the existence query of [data] finds. *)
Definition stored (K : entity_kind) (data : row K) (db : DB) : list (row K) :=
  List.filter (same_key K data) (view (tbl K) db).

(** *** Tables as parts of the database *)

(** [view] and [put] of a table read and replace one component of the
    database, and a flush appends the added rows to it. *)
Record table_laws {R} (T : table R) : Prop := {
  view_put : forall rows d, view T (put T rows d) = rows;
  put_put : forall rows rows' d, put T rows (put T rows' d) = put T rows d;
  put_view : forall d, put T (view T d) d = d;
  view_empty : view T empty_db = [];
  flush_put : forall rows added d,
    db_app (put T rows d) (put T added empty_db) = put T (rows ++ added) d
}.

(** How a table [after] a load of [batch] relates to the table [before]:
    no match of a query is lost; a key with at most one row keeps at most
    one; the row of a loaded entity is the entity; the rows of the keys the
    batch does not mention are the same.  The second and the third suppose
    a batch without a repeated key. *)
Definition upsert_facts {R} (same_key : R -> R -> bool)
    (batch before after : list R) : Prop :=
  (forall x, (length (List.filter (same_key x) before)
              <= length (List.filter (same_key x) after))%nat)
  /\ (distinct same_key batch = true ->
      forall x, (length (List.filter (same_key x) before) <= 1)%nat ->
                (length (List.filter (same_key x) after) <= 1)%nat)
  /\ (distinct same_key batch = true ->
      forall e, In e batch ->
                (length (List.filter (same_key e) before) <= 1)%nat ->
                List.filter (same_key e) after = [e])
  /\ (forall x, (forall e, In e batch -> same_key x e = false) ->
                List.filter (same_key x) after
                = List.filter (same_key x) before).

(** What is proved of every entity type: entities that match are
    interchangeable in the query, and a load that returns, on a session
    with nothing staged, leaves nothing staged, touches the table of the
    kind only, and changes it as [upsert_facts] tells. *)
Definition load_spec (K : entity_kind) : Prop :=
  (forall a b, same_key K a b = true ->
               forall r, same_key K a r = same_key K b r)
  /\ forall batch s s',
       clean s ->
       load K batch s = (s', Ret tt) ->
       clean s'
       /\ store s' = put (tbl K) (view (tbl K) (store s')) (store s)
       /\ upsert_facts (same_key K) batch
            (view (tbl K) (store s)) (view (tbl K) (store s')).

(** *** The composite loads as sequences of write calls *)

Definition pokemon_data_calls (transformed_data : PokemonBatch)
  : list write_call :=
  map LoadPokemon (batch_pokemon transformed_data)
  ++ [LoadPokemonStats (batch_stats transformed_data);
      LoadPokemonTypes (batch_types transformed_data)]
  ++ map LoadPokemonAbility (batch_abilities transformed_data)
  ++ map LoadPokemonMove (batch_moves transformed_data).

Definition type_data_calls (transformed_data : TypeBatch) : list write_call :=
  [LoadTypes (batch_type_rows transformed_data);
   LoadTypeEffectiveness (batch_effectiveness transformed_data)].

(** *** Sample data *)

Definition pikachu_row : Pokemon.t :=
  {| Pokemon.id := 25; Pokemon.name := "pikachu"; Pokemon.height := 4;
     Pokemon.weight := 60; Pokemon.base_experience := Some 112;
     Pokemon.is_default := true; Pokemon.order_num := Some 35 |}.

Definition a_stat (pokemon : Z) (name : string) (value : Z) : PokemonStat.t :=
  {| PokemonStat.pokemon_id := pokemon; PokemonStat.stat_name := name;
     PokemonStat.base_value := value |}.

(** A session with nothing staged, on a store that holds Pikachu and its
    attack stat. *)
Definition pikachu_db : DB :=
  {| pokemon := [pikachu_row]; pokemon_stats := [a_stat 25 "attack" 55];
     types := []; pokemon_types := []; type_effectiveness := [];
     abilities := []; pokemon_abilities := []; moves := [];
     pokemon_moves := [] |}.

(** The type electric with a relation to a type the store does not hold. *)
Definition electric_batch : TypeBatch :=
  {| batch_type_rows := [ {| Type_.id := 13; Type_.name := "electric" |} ];
     batch_effectiveness :=
       [ {| TypeEffectiveness.attack_type_id := 13;
            TypeEffectiveness.defense_type_id := 5;
            TypeEffectiveness.effectiveness := 0 |} ] |}.

(** A store that holds the types fire and water, without effectiveness
    entries; an effectiveness entry between two types. *)
Definition demo_store : DB :=
  {| pokemon := []; pokemon_stats := [];
     types := [ {| Type_.id := 10; Type_.name := "fire" |};
                {| Type_.id := 11; Type_.name := "water" |} ];
     pokemon_types := []; type_effectiveness := [];
     abilities := []; pokemon_abilities := []; moves := [];
     pokemon_moves := [] |}.

Definition an_entry (attack defense : Z) (e : Q) : TypeEffectiveness.t :=
  {| TypeEffectiveness.attack_type_id := attack;
     TypeEffectiveness.defense_type_id := defense;
     TypeEffectiveness.effectiveness := e |}.

Definition fresh_session : Session :=
  {| store := pikachu_db; live := pikachu_db; pending := empty_db;
     faults := [] |}.

End LoaderTerms.

(** ** Vocabulary for the client's cache and retries *)

Module ApiClientTerms.
Import Json ApiClient.

(** The cache does not answer for the endpoint: there is no file, or the
    file holds a document that [if cached_data:] takes for false. *)
Definition cache_miss (c : client) (endpoint : string) (w : world) : Prop :=
  match files w !! _get_cache_path c endpoint with
  | None => True
  | Some (Document data) => truthy data = false
  | Some Garbage => False
  end.

(** The characters [_get_cache_path] writes as an underscore, and the
    underscore. *)
Definition separator (ch : ascii) : bool :=
  Ascii.eqb ch "/" || Ascii.eqb ch "?" || Ascii.eqb ch "_".

(** Two endpoints of the same length that differ only where both have a
    separator. *)
Fixpoint alike (e1 e2 : string) : bool :=
  match e1, e2 with
  | EmptyString, EmptyString => true
  | String a rest1, String b rest2 =>
      (Ascii.eqb a b || (separator a && separator b)) && alike rest1 rest2
  | _, _ => false
  end.

(** The characters of a string. *)
Fixpoint letters (s : string) : list ascii :=
  match s with
  | EmptyString => []
  | String ch rest => ch :: letters rest
  end.

(** A network that never answers. *)
Definition down : network := fun _ _ => Fails RequestException.

(** A network that answers the request numbered [k] and those after it. *)
Definition up_from (k : nat) (data : json) : network :=
  fun n _ => if (n <? k)%nat then Fails RequestException else Body data.

End ApiClientTerms.

(** ** Batches of Pokemon ([transform_pokemon_batch], lines 95-124) *)

Module TransformerBatch.
Import Json Transformer.

(** The dictionary of lists the batch transformation fills. *)
Record TransformedBatch : Type := {
  all_pokemon : list PokemonDict;
  all_stats : list StatDict;
  all_types : list TypeDict;
  all_abilities : list AbilityDict;
  all_moves : list MoveDict
}.

Definition empty_batch : TransformedBatch :=
  {| all_pokemon := []; all_stats := []; all_types := [];
     all_abilities := []; all_moves := [] |}.

(** Lines 116-120: one [append] and four [extend]. *)
Definition extend_batch (transformed_batch : TransformedBatch)
    (transformed_data : Transformed) : TransformedBatch :=
  {| all_pokemon := all_pokemon transformed_batch ++ [pokemon transformed_data];
     all_stats := all_stats transformed_batch ++ stats transformed_data;
     all_types := all_types transformed_batch ++ types transformed_data;
     all_abilities :=
       all_abilities transformed_batch ++ abilities transformed_data;
     all_moves := all_moves transformed_batch ++ moves transformed_data |}.

Section WithInt.

Variable py_int : string -> option Z.

(** The loop of lines 113-120, from the lists filled so far. *)
Fixpoint transform_pokemon_batch_from (transformed_batch : TransformedBatch)
    (raw_data_batch : list json) : result TransformedBatch :=
  match raw_data_batch with
  | [] => Ret transformed_batch
  | raw_data :: rest =>
      (let? transformed_data := transform_pokemon py_int raw_data in
       transform_pokemon_batch_from
         (extend_batch transformed_batch transformed_data) rest)%result
  end.

Definition transform_pokemon_batch (raw_data_batch : list json)
  : result TransformedBatch :=
  transform_pokemon_batch_from empty_batch raw_data_batch.

End WithInt.

End TransformerBatch.

(** ** The type transformer ([src/transformation/type_transformer.py]) *)

Module TypeTransformer.
Import Json.

Record TypeDataDict : Type := {
  id : json;
  name : json
}.

(** An effectiveness entry; the three values the transformer writes are
    0.0, 0.5 and 2.0. *)
Record EffectivenessDict : Type := {
  attack_type_id : json;
  defense_type_id : Z;
  effectiveness : Q
}.

Record TransformedType : Type := {
  type_ : TypeDataDict;                            (* key "type" *)
  effectiveness_entries : list EffectivenessDict   (* key "effectiveness" *)
}.

Record TransformedTypeBatch : Type := {
  type_dicts : list TypeDataDict;                  (* key "types" *)
  effectiveness_dicts : list EffectivenessDict     (* key "effectiveness" *)
}.

Section WithInt.

Variable py_int : string -> option Z.

(** [_extract_id_from_url] (lines 92-95), the transformer's own copy. *)
Definition _extract_id_from_url (url : json) : result Z :=
  match url with
  | JStr s =>
      match py_int (PyStr.last_segment (PyStr.rstrip_slash s)) with
      | Some n => Ret n
      | None => Raise ValueError
      end
  | _ => Raise AttributeError
  end.

(** The body of each of the three loops of lines 33-57. *)
Definition relation_entry (raw_data : json) (value : Q) (target : json)
  : result EffectivenessDict :=
  (let? attack := py_getitem raw_data "id" in
   let? url := py_getitem target "url" in
   let? defense := _extract_id_from_url url in
   Ret {| attack_type_id := attack; defense_type_id := defense;
          effectiveness := value |})%result.

(** One of the three loops: over
    [raw_data['damage_relations'][relation]]. *)
Definition relation_entries (raw_data : json) (relation : string) (value : Q)
  : result (list EffectivenessDict) :=
  (let? damage_relations := py_getitem raw_data "damage_relations" in
   let? targets_value := py_getitem damage_relations relation in
   let? targets := py_iter targets_value in
   rmap (relation_entry raw_data value) targets)%result.

(** [TypeTransformer.transform_type]. *)
Definition transform_type (raw_data : json) : result TransformedType :=
  (let? raw_id := py_getitem raw_data "id" in
   let? raw_name := py_getitem raw_data "name" in
   let type_data := {| id := raw_id; name := raw_name |} in
   let? no_damage := relation_entries raw_data "no_damage_to" 0%Q in
   let? half_damage := relation_entries raw_data "half_damage_to" (1 # 2) in
   let? double_damage := relation_entries raw_data "double_damage_to" 2%Q in
   Ret {| type_ := type_data;
          effectiveness_entries :=
            no_damage ++ half_damage ++ double_damage |})%result.

(** The loop of lines 82-86, from the lists filled so far. *)
Fixpoint transform_type_batch_from
    (transformed_batch : TransformedTypeBatch) (raw_data_batch : list json)
  : result TransformedTypeBatch :=
  match raw_data_batch with
  | [] => Ret transformed_batch
  | raw_data :: rest =>
      (let? transformed_data := transform_type raw_data in
       transform_type_batch_from
         {| type_dicts :=
              type_dicts transformed_batch ++ [type_ transformed_data];
            effectiveness_dicts :=
              effectiveness_dicts transformed_batch
              ++ effectiveness_entries transformed_data |}
         rest)%result
  end.

(** [TypeTransformer.transform_type_batch]. *)
Definition transform_type_batch (raw_data_batch : list json)
  : result TransformedTypeBatch :=
  transform_type_batch_from {| type_dicts := []; effectiveness_dicts := [] |}
    raw_data_batch.

End WithInt.

End TypeTransformer.

(** ** The ability transformer
    ([src/transformation/ability_transformer.py]) *)

Module AbilityTransformer.
Import Json.

Record AbilityDataDict : Type := {
  id : json;
  name : json;
  effect : json;
  flavor_text : json;
  is_main_series : json
}.

(** [v == s] for a string literal [s]. *)
Definition py_eq_str (v : json) (s : string) : bool :=
  match v with
  | JStr x => String.eqb x s
  | _ => false
  end.

(** [next((entry[field] for entry in entries
            if entry["language"]["name"] == "en"), default)]: the generator
    is advanced until it yields once. *)
Fixpoint next_english (field : string) (entries : list json) (default : json)
  : result json :=
  match entries with
  | [] => Ret default
  | entry :: rest =>
      (let? language := py_getitem entry "language" in
       let? language_name := py_getitem language "name" in
       if py_eq_str language_name "en" then py_getitem entry field
       else next_english field rest default)%result
  end.

(** [AbilityTransformer.transform_ability].  The iterable of a generator
    expression is taken when the expression is evaluated, and the default
    of [next] before [next] runs. *)
Definition transform_ability (raw_ability : json)
  : result AbilityDataDict :=
  (let? effect_value := py_get raw_ability "effect_entries" (JList []) in
   let? effect_entries := py_iter effect_value in
   let? effect := next_english "effect" effect_entries (JStr EmptyString) in
   let? flavor_value := py_get raw_ability "flavor_text_entries" (JList []) in
   let? flavor_entries := py_iter flavor_value in
   let? flavor_text :=
     next_english "flavor_text" flavor_entries (JStr EmptyString) in
   let? names_value := py_get raw_ability "names" (JList []) in
   let? names := py_iter names_value in
   let? raw_name := py_getitem raw_ability "name" in
   let? name := next_english "name" names raw_name in
   let? raw_id := py_getitem raw_ability "id" in
   let? raw_is_main_series := py_getitem raw_ability "is_main_series" in
   Ret {| id := raw_id; name := name; effect := effect;
          flavor_text := flavor_text;
          is_main_series := raw_is_main_series |})%result.

(** [AbilityTransformer.transform_ability_batch]. *)
Definition transform_ability_batch (raw_abilities : list json)
  : result (list AbilityDataDict) :=
  rmap transform_ability raw_abilities.

End AbilityTransformer.

(** ** Vocabulary for the transformers *)

Module TransformerLawsTerms.
Import Json.

(** [raw_data.get(key, [])], as a loop walks it. *)
Definition entries_of (raw_data : json) (key : string) : result (list json) :=
  (let? value := py_get raw_data key (JList []) in py_iter value)%result.

(** [raw_data['damage_relations'][relation]], as a loop walks it. *)
Definition relation_targets (raw_data : json) (relation : string)
  : result (list json) :=
  (let? damage_relations := py_getitem raw_data "damage_relations" in
   let? targets_value := py_getitem damage_relations relation in
   py_iter targets_value)%result.

(** [entry["language"]["name"]]. *)
Definition language_of (entry : json) : result json :=
  (let? language := py_getitem entry "language" in
   py_getitem language "name")%result.

Definition is_english (entry : json) : bool :=
  match language_of entry with
  | Ret language_name => AbilityTransformer.py_eq_str language_name "en"
  | Raise _ => false
  end.

(** An entry with a language that is not English. *)
Definition other_language (entry : json) : Prop :=
  exists language_name,
    language_of entry = Ret language_name
    /\ AbilityTransformer.py_eq_str language_name "en" = false.

(** [k] slashes. *)
Fixpoint slashes (k : nat) : string :=
  match k with
  | O => EmptyString
  | S n => String "/" (slashes n)
  end.

Fixpoint no_slash (s : string) : bool :=
  match s with
  | EmptyString => true
  | String ch rest => negb (Ascii.eqb ch "/") && no_slash rest
  end.

(** The keys [transform_pokemon] subscripts the record with. *)
Definition required_keys : list string :=
  ["id"; "name"; "height"; "weight"; "is_default"].

Definition a_target (name url : string) : json :=
  JObj [("name", JStr name); ("url", JStr url)].

(** The type fire as the API serves it, cut down to three relations. *)
Definition fire : json :=
  JObj [("id", JInt 10); ("name", JStr "fire");
        ("damage_relations",
         JObj [("no_damage_to", JList []);
               ("half_damage_to",
                JList [a_target "water" "https://pokeapi.co/api/v2/type/11/"]);
               ("double_damage_to",
                JList [a_target "grass" "https://pokeapi.co/api/v2/type/12/";
                       a_target "ice" "https://pokeapi.co/api/v2/type/15/"])])].

Definition in_language (language : string) (members : list (string * json))
  : json :=
  JObj (members ++ [("language", JObj [("name", JStr language)])]).

(** An ability with a German and an English name, and an effect entry
    after the English one that is not an object. *)
Definition stench : json :=
  JObj [("id", JInt 1); ("name", JStr "stench"); ("is_main_series", JBool true);
        ("names", JList [in_language "de" [("name", JStr "Duftnote")];
                         in_language "en" [("name", JStr "Stench")]]);
        ("effect_entries",
         JList [in_language "en" [("effect", JStr "May cause flinching.")];
                JNull])].

End TransformerLawsTerms.
(** ** The rankings of the type analyzer
    ([find_best_attacking_types], [find_best_defensive_types]) *)

Module TypeRanking.
Import Schema Analyzer.

(** The entries of the matrix are numbers as in [Analyzer]: the stored
    ones Decimals, the filled ones the float 1.0; [matrix.loc[...].values]
    and [matrix[...].values] are arrays of objects. *)

(** A row of the frame [find_best_attacking_types] returns. *)
Record AttackRow : Type := {
  attack_type : string;            (* column "type" *)
  avg_effectiveness : Q;
  super_effective_count : Z;
  no_effect_count : Z
}.

(** A row of the frame [find_best_defensive_types] returns. *)
Record DefenseRow : Type := {
  defense_type : string;           (* column "type" *)
  avg_effectiveness_against : Q;
  weaknesses_count : Z;
  resistances_count : Z;
  immunities_count : Z
}.

(** [matrix.loc[attack_type].values]: the row of an attacking type. *)
Definition row_values (matrix : Frame number) (attack_type : string)
  : list number :=
  map (cell matrix attack_type) (columns matrix).

(** [matrix[defense_type].values]: the column of a defending type. *)
Definition column_values (matrix : Frame number) (defense_type : string)
  : list number :=
  map (fun attack_type => cell matrix attack_type defense_type) (index matrix).

(** [np.sum(values <op> x)] for a float [x]: how many entries pass the
    test; a Decimal and a float compare by their values. *)
Definition count_where (test : Q -> bool) (values : list number) : Z :=
  Z.of_nat (length (List.filter (fun v => test (value_of v)) values)).

Definition above_one (v : Q) : bool := negb (Qle_bool v 1).
Definition below_one (v : Q) : bool := negb (Qle_bool 1 v).
Definition is_zero (v : Q) : bool := Qeq_bool v 0.

(** [x + y]: [TypeError] between a Decimal and a float. *)
Definition py_add (x y : number) : result number :=
  match x, y with
  | Decimal a, Decimal b => Ret (Decimal (a + b))
  | Float a, Float b => Ret (Float (a + b))
  | _, _ => Raise TypeError
  end.

(** [np.add.reduce] on an array of objects: the entries are added to the
    first one with [+], from left to right. *)
Fixpoint add_up (total : number) (values : list number) : result number :=
  match values with
  | [] => Ret total
  | v :: rest => (let? total := py_add total v in add_up total rest)%result
  end.

(** [ascending=False] on the two columns: more super effective pairs
    first, then the higher average. *)
Definition attack_order (x y : AttackRow) : bool :=
  (super_effective_count y <? super_effective_count x)
  || ((super_effective_count y =? super_effective_count x)
      && Qle_bool (avg_effectiveness y) (avg_effectiveness x)).

(** [ascending=[False, False, True]]: more immunities first, then more
    resistances, then the lower average. *)
Definition defense_order (x y : DefenseRow) : bool :=
  (immunities_count y <? immunities_count x)
  || ((immunities_count y =? immunities_count x)
      && ((resistances_count y <? resistances_count x)
          || ((resistances_count y =? resistances_count x)
              && Qle_bool (avg_effectiveness_against x)
                   (avg_effectiveness_against y)))).

Section WithRound.

(** [round(float(total / count), 2)] for the sum [total] of [count]
    entries: the quotient of a Decimal is a Decimal of 28 significant
    digits, the quotient of a float is a float. *)
Variable round2 : number -> nat -> Q.

(** [round(float(np.mean(values)), 2)] on an array of objects that has
    entries, as the rows and the columns of a pivoted matrix have: numpy
    adds the entries up and divides the total by their number.  (Of an
    array without entries it divides 0 by 0.) *)
Definition rounded_mean (values : list number) : result Q :=
  match values with
  | [] => Ret (round2 (Float 0) 0)
  | first :: rest =>
      (let? total := add_up first rest in
       Ret (round2 total (length values)))%result
  end.

Definition attack_row (matrix : Frame number) (attack_type : string)
  : result AttackRow :=
  let effectiveness_values := row_values matrix attack_type in
  (let? avg_effectiveness := rounded_mean effectiveness_values in
   Ret {| attack_type := attack_type;
          avg_effectiveness := avg_effectiveness;
          super_effective_count :=
            count_where above_one effectiveness_values;
          no_effect_count :=
            count_where is_zero effectiveness_values |})%result.

(** [find_best_attacking_types] (lines 62-90).  A frame built from an
    empty list has no column to sort by. *)
Definition find_best_attacking_types (db : DB) : result (list AttackRow) :=
  (let? matrix := get_effectiveness_matrix db in
   let? results := rmap (attack_row matrix) (index matrix) in
   match results with
   | [] => Raise KeyError
   | _ => Ret (sort_by attack_order results)
   end)%result.

Definition defense_row (matrix : Frame number) (defense_type : string)
  : result DefenseRow :=
  let effectiveness_against := column_values matrix defense_type in
  (let? avg_effectiveness := rounded_mean effectiveness_against in
   Ret {| defense_type := defense_type;
          avg_effectiveness_against := avg_effectiveness;
          weaknesses_count := count_where above_one effectiveness_against;
          resistances_count := count_where below_one effectiveness_against;
          immunities_count :=
            count_where is_zero effectiveness_against |})%result.

(** [find_best_defensive_types] (lines 92-126). *)
Definition find_best_defensive_types (db : DB) : result (list DefenseRow) :=
  (let? matrix := get_effectiveness_matrix db in
   let? results := rmap (defense_row matrix) (columns matrix) in
   match results with
   | [] => Raise KeyError
   | _ => Ret (sort_by defense_order results)
   end)%result.

End WithRound.

End TypeRanking.

(** ** Vocabulary for the loader's effect on a table *)

Module LoaderLawsTerms.
Import Schema Loader LoaderTerms.

(** A stored row after a load of [batch]: the row itself, or an entity of
    the batch with its natural key. *)
Definition kept_or_replaced {R} (same_key : R -> R -> bool) (batch : list R)
    (old new : R) : Prop :=
  new = old \/ (In new batch /\ same_key old new = true).

(** The table [after] a load of [batch] is the table [before], row by row
    in the same order, each row kept or replaced, followed by added rows,
    which are entities of the batch whose key had no row. *)
Definition order_kept {R} (same_key : R -> R -> bool)
    (batch before after : list R) : Prop :=
  exists kept added,
    after = (kept ++ added)%list
    /\ Forall2 (kept_or_replaced same_key batch) before kept
    /\ Forall (fun e => In e batch /\ List.filter (same_key e) before = [])
         added.

(** The database a write call asks the database to accept: the table of
    the call after its upserts, the other tables as they are. *)
Definition flushed (c : write_call) (db : DB) : DB :=
  match c with
  | LoadPokemon d =>
      put pokemon_table
        (upserted pokemon_key pokemon_assign (pokemon db) [d]) db
  | LoadPokemonStats l =>
      put pokemon_stats_table
        (upserted stat_key stat_assign (pokemon_stats db) l) db
  | LoadTypes l =>
      put types_table (upserted type_key type_assign (types db) l) db
  | LoadTypeEffectiveness l =>
      put type_effectiveness_table
        (upserted effectiveness_key effectiveness_assign
           (type_effectiveness db) l) db
  | LoadPokemonTypes l =>
      put pokemon_types_table
        (upserted pokemon_type_key pokemon_type_assign (pokemon_types db) l) db
  | LoadAllAbilityData l =>
      put abilities_table
        (upserted ability_key ability_assign (abilities db) l) db
  | LoadPokemonAbility d =>
      put pokemon_abilities_table
        (upserted pokemon_ability_key pokemon_ability_assign
           (pokemon_abilities db) [d]) db
  | LoadPokemonMove d =>
      put pokemon_moves_table
        (upserted pokemon_move_key pokemon_move_assign (pokemon_moves db) [d])
        db
  end.

(** The columns hold the values of the entity as they are given, and its
    existence query matches at most one of the rows. *)
Definition settled_entity {R} (columns : R -> bool)
    (same_key : R -> R -> bool) (rows : list R) (data : R) : bool :=
  columns data && (length (List.filter (same_key data) rows) <=? 1)%nat.

(** A call that writes a table without a unique column, with entities
    that are settled in the database. *)
Definition settled (c : write_call) (db : DB) : bool :=
  match c with
  | LoadPokemon d =>
      settled_entity pokemon_columns pokemon_key (pokemon db) d
  | LoadPokemonStats l =>
      forallb (settled_entity pokemon_stat_columns stat_key (pokemon_stats db))
        l
  | LoadTypes _ => false
  | LoadTypeEffectiveness l =>
      forallb (settled_entity type_effectiveness_columns effectiveness_key
                 (type_effectiveness db)) l
  | LoadPokemonTypes l =>
      forallb (settled_entity pokemon_type_columns pokemon_type_key
                 (pokemon_types db)) l
  | LoadAllAbilityData _ => false
  | LoadPokemonAbility d =>
      settled_entity pokemon_ability_columns pokemon_ability_key
        (pokemon_abilities db) d
  | LoadPokemonMove d =>
      settled_entity pokemon_move_columns pokemon_move_key
        (pokemon_moves db) d
  end.

(** The session after a commit that made [db] the store. *)
Definition committed (db : DB) : Session :=
  {| store := db; live := db; pending := empty_db; faults := [] |}.

(** The database that holds the rows of a batch of types and nothing
    else. *)
Definition type_data_db (transformed_data : TypeBatch) : DB :=
  {| pokemon := []; pokemon_stats := [];
     types := batch_type_rows transformed_data;
     pokemon_types := [];
     type_effectiveness := batch_effectiveness transformed_data;
     abilities := []; pokemon_abilities := []; moves := [];
     pokemon_moves := [] |}.

(** The values of the batch are such as the columns of the two tables
    hold as they are given. *)
Definition type_batch_columns (transformed_data : TypeBatch) : bool :=
  forallb type_columns (batch_type_rows transformed_data)
  && forallb type_effectiveness_columns
       (batch_effectiveness transformed_data).

(** A session on an empty database, with no failure to come. *)
Definition empty_session : Session :=
  {| store := empty_db; live := empty_db; pending := empty_db; faults := [] |}.

Definition fire_and_water : TypeBatch :=
  {| batch_type_rows := [ {| Type_.id := 10; Type_.name := "fire" |};
                          {| Type_.id := 11; Type_.name := "water" |} ];
     batch_effectiveness :=
       [ {| TypeEffectiveness.attack_type_id := 11;
            TypeEffectiveness.defense_type_id := 10;
            TypeEffectiveness.effectiveness := 2 |};
         {| TypeEffectiveness.attack_type_id := 10;
            TypeEffectiveness.defense_type_id := 11;
            TypeEffectiveness.effectiveness := 1 # 2 |} ] |}.

Definition a_move (pokemon move : Z) (level : Z) (method : string)
  : PokemonMove.t :=
  {| PokemonMove.pokemon_id := pokemon; PokemonMove.move_id := move;
     PokemonMove.level_learned_at := Some level;
     PokemonMove.learn_method := Some method |}.

(** The rows the transformer makes of Pikachu, with one move. *)
Definition pikachu_batch : PokemonBatch :=
  {| batch_pokemon := [pikachu_row];
     batch_stats := [a_stat 25 "speed" 90];
     batch_types := [];
     batch_abilities := [];
     batch_moves := [a_move 25 85 0 "machine"] |}.

End LoaderLawsTerms.

(** ** Vocabulary for the analyzer's outcomes *)

Module AnalyzerLawsTerms.
Import Schema Analyzer AnalyzerTerms.

(** The rows the query of [get_effectiveness_matrix] makes of one stored
    row: one per pair of types its two joins find. *)
Definition joined_rows (db : DB) (te : TypeEffectiveness.t)
  : list EffectivenessRow :=
  flat_map
    (fun at_ =>
       map (fun dt =>
              {| attacking_type := Type_.name at_;
                 defending_type := Type_.name dt;
                 effectiveness := TypeEffectiveness.effectiveness te |})
         (types_with_id db (TypeEffectiveness.defense_type_id te)))
    (types_with_id db (TypeEffectiveness.attack_type_id te)).

(** No ordered pair of types has two stored effectiveness rows. *)
Definition pairs_distinct (db : DB) : bool :=
  distinct Loader.effectiveness_key (type_effectiveness db).

(** Some association gives the Pokemon a type. *)
Definition has_a_type (db : DB) (pokemon_id : Z) : bool :=
  existsb (fun pt => PokemonType.pokemon_id pt =? pokemon_id)
    (pokemon_types db).

(** The store [demo_db] with the relation of water to fire stored twice. *)
Definition doubled_db : DB :=
  {| pokemon := pokemon demo_db; pokemon_stats := [];
     types := types demo_db; pokemon_types := pokemon_types demo_db;
     type_effectiveness := type_effectiveness demo_db ++ [relation 11 10 2];
     abilities := []; pokemon_abilities := []; moves := [];
     pokemon_moves := [] |}.

(** The store [demo_db] without effectiveness rows. *)
Definition bare_db : DB :=
  {| pokemon := pokemon demo_db; pokemon_stats := [];
     types := types demo_db; pokemon_types := pokemon_types demo_db;
     type_effectiveness := [];
     abilities := []; pokemon_abilities := []; moves := [];
     pokemon_moves := [] |}.

(** A session with nothing staged on [demo_db]. *)
Definition demo_session : Loader.Session :=
  {| Loader.store := demo_db; Loader.live := demo_db;
     Loader.pending := empty_db; Loader.faults := [] |}.

(** Some type of the Pokemon is a defending type of a row the query of the
    matrix returns: the test of line 163 passes for it. *)
Definition defended (db : DB) (pokemon_id : Z) : bool :=
  existsb
    (fun defense_type =>
       mem defense_type (map defending_type (effectiveness_query db)))
    (pokemon_types_query db pokemon_id).

(** A store with the types fire and water and a stored row for each of
    their four ordered pairs. *)
Definition complete_db : DB :=
  {| pokemon := []; pokemon_stats := [];
     types := [a_type 10 "fire"; a_type 11 "water"];
     pokemon_types := [];
     type_effectiveness :=
       [relation 10 10 0.5; relation 10 11 0.5; relation 11 10 2;
        relation 11 11 0.5];
     abilities := []; pokemon_abilities := []; moves := [];
     pokemon_moves := [] |}.

(** A rounding to run the rankings with: the quotient itself. *)
Definition keep (total : number) (count : nat) : Q :=
  (value_of total / inject_Z (Z.of_nat count))%Q.

End AnalyzerLawsTerms.

(** ** The fetchers ([src/ingestion/ability_fetcher.py],
    [src/ingestion/type_fetcher.py]) *)

Module PyValue.
Import Json.

(** A computation without effect, in the monad of the client. *)
Definition lift {S A} (r : result A) : M S A := fun s => (s, r).

Fixpoint uint_digits (d : Decimal.uint) : string :=
  match d with
  | Decimal.Nil => EmptyString
  | Decimal.D0 rest => String "0" (uint_digits rest)
  | Decimal.D1 rest => String "1" (uint_digits rest)
  | Decimal.D2 rest => String "2" (uint_digits rest)
  | Decimal.D3 rest => String "3" (uint_digits rest)
  | Decimal.D4 rest => String "4" (uint_digits rest)
  | Decimal.D5 rest => String "5" (uint_digits rest)
  | Decimal.D6 rest => String "6" (uint_digits rest)
  | Decimal.D7 rest => String "7" (uint_digits rest)
  | Decimal.D8 rest => String "8" (uint_digits rest)
  | Decimal.D9 rest => String "9" (uint_digits rest)
  end.

(** [str(n)] for an integer. *)
Definition py_str_int (n : Z) : string :=
  match Z.to_int n with
  | Decimal.Pos d => uint_digits d
  | Decimal.Neg d => String "-" (uint_digits d)
  end.

(** [range(start, stop)]. *)
Definition py_range (start stop : Z) : list Z :=
  map (fun i => start + Z.of_nat i) (seq 0 (Z.to_nat (stop - start))).

(** [len(v)]: strings, lists and dicts have a length. *)
Definition py_len (v : json) : result Z :=
  match v with
  | JStr s => Ret (Z.of_nat (String.length s))
  | JList items => Ret (Z.of_nat (length items))
  | JObj members => Ret (Z.of_nat (length members))
  | _ => Raise TypeError
  end.

(** [v + 1]: an integer, or a Boolean taken as 0 or 1. *)
Definition py_add_one (v : json) : result Z :=
  match v with
  | JInt n => Ret (n + 1)
  | JBool b => Ret ((if b then 1 else 0) + 1)
  | _ => Raise TypeError
  end.

End PyValue.

Module AbilityFetcher.
Import Json ApiClient PyValue.

Section WithClient.

(** The network and [self.api_client]. *)
Variable net : network.
Variable c : client.

(** [fetch_ability]: [self.api_client.get(f"ability/{ability_id}")]. *)
Definition fetch_ability (ability_id : Z) : M world json :=
  get net c ("ability/" ++ py_str_int ability_id) true.

(** The loop of lines 23-29, from the list filled so far. *)
Fixpoint fetch_each (ability_ids : list Z) (abilities : list json)
  : M world (list json) :=
  match ability_ids with
  | [] => ret abilities
  | ability_id :: rest =>
      (let* abilities :=
         try_except
           (let* ability_data := fetch_ability ability_id in
            ret (abilities ++ [ability_data])%list)
           (fun _ => ret abilities) in
       fetch_each rest abilities)%monad
  end.

(** [fetch_all_abilities]. *)
Definition fetch_all_abilities : M world (list json) :=
  (let* ability_list := get net c "ability" true in
   let* total_abilities := lift (py_getitem ability_list "count") in
   let* stop := lift (py_add_one total_abilities) in
   fetch_each (py_range 1 stop) [])%monad.

End WithClient.

End AbilityFetcher.

Module TypeFetcher.
Import Json ApiClient PyValue.

Section WithClient.

Variable net : network.
Variable c : client.

(** [repr] of a list or a dict, as an f-string prints it. *)
Variable repr : json -> string.

(** [f"{v}"]. *)
Definition py_format (v : json) : string :=
  match v with
  | JStr s => s
  | JInt n => py_str_int n
  | JNull => "None"
  | JBool true => "True"
  | JBool false => "False"
  | _ => repr v
  end.

(** [fetch_type_list] (lines 25-36); the log line takes the length of the
    results. *)
Definition fetch_type_list : M world json :=
  (let* response := get net c "type" true in
   let* results := lift (py_getitem response "results") in
   let* _ := lift (py_len results) in
   lift (py_getitem response "results"))%monad.

(** [fetch_type_detail] (lines 38-52); the log line reads the name and
    the identifier of the document. *)
Definition fetch_type_detail (identifier : json) : M world json :=
  (let* type_data := get net c ("type/" ++ py_format identifier) true in
   let* _ := lift (py_getitem type_data "name") in
   let* _ := lift (py_getitem type_data "id") in
   ret type_data)%monad.

(** The loop of lines 64-70, from the list filled so far; the handler
    reads the name of the entry for its log line. *)
Fixpoint fetch_details (types_list : list json) (types_data : list json)
  : M world (list json) :=
  match types_list with
  | [] => ret types_data
  | type_info :: rest =>
      (let* types_data :=
         try_except
           (let* type_name := lift (py_getitem type_info "name") in
            let* type_data := fetch_type_detail type_name in
            ret (types_data ++ [type_data])%list)
           (fun _ =>
              let* _ := lift (py_getitem type_info "name") in
              ret types_data) in
       fetch_details rest types_data)%monad
  end.

(** [fetch_all_types_with_effectiveness] (lines 54-73). *)
Definition fetch_all_types_with_effectiveness : M world (list json) :=
  (let* types_list := fetch_type_list in
   let* entries := lift (py_iter types_list) in
   fetch_details entries [])%monad.

End WithClient.

End TypeFetcher.

(** ** Vocabulary and sample data for the fetchers *)

Module FetcherSamples.
Import Json ApiClient ApiClientSamples.

(** An entry of the list of types that can be subscripted with [name]. *)
Definition has_name (type_info : json) : Prop :=
  exists type_name, py_getitem type_info "name" = Ret type_name.

(** A service with two abilities, the second of which it fails to serve,
    and two types, the second of which is listed without a name. *)
Definition service : network :=
  fun _ url =>
    if String.eqb url "https://pokeapi.co/api/v2/ability"
    then Body (JObj [("count", JInt 2)])
    else if String.eqb url "https://pokeapi.co/api/v2/ability/1"
    then Body (JObj [("id", JInt 1); ("name", JStr "stench")])
    else if String.eqb url "https://pokeapi.co/api/v2/type"
    then Body (JObj [("results",
                      JList [JObj [("name", JStr "fighting")];
                             JObj [("url", JStr "type/3")]])])
    else if String.eqb url "https://pokeapi.co/api/v2/type/fighting"
    then Body fighting
    else Fails ValueError.

Definition no_repr (v : json) : string := "?".

End FetcherSamples.
(* ================================================================== *)
(** * Part II: theorems *)
(* ================================================================== *)

(** ** The API client *)

Module ApiClientFacts.
Import Json ApiClient ApiClientSamples.

(** *** Running [fetch] *)

Lemma fetch_body net c endpoint use_cache w data :
  net (length (requests w)) (url_of c endpoint) = Body data ->
  exists w',
    fetch net c endpoint use_cache w = (w', Ret data)
    /\ requests w' = url_of c endpoint :: requests w
    /\ files w' =
       (if use_cache
        then <[_get_cache_path c endpoint := Document data]> (files w)
        else files w).
Proof.
  intros Hnet.
  unfold fetch, bind, _rate_limit_wait, requests_get; simpl.
  rewrite Hnet.
  destruct use_cache; simpl; eexists; split; try reflexivity; simpl; auto.
Qed.

Lemma fetch_fails net c endpoint use_cache w e :
  net (length (requests w)) (url_of c endpoint) = Fails e ->
  exists w',
    fetch net c endpoint use_cache w = (w', Raise e)
    /\ requests w' = url_of c endpoint :: requests w
    /\ files w' = files w.
Proof.
  intros Hnet.
  unfold fetch, bind, _rate_limit_wait, requests_get; simpl.
  rewrite Hnet.
  eexists; split; try reflexivity; simpl; auto.
Qed.

(** Without the cache, [fetch] neither looks at the files nor changes
    them. *)
Lemma fetch_frame net c endpoint w f :
  fetch net c endpoint false (set_files f w)
  = (set_files f (fst (fetch net c endpoint false w)),
     snd (fetch net c endpoint false w)).
Proof.
  unfold fetch, bind, _rate_limit_wait, requests_get; simpl.
  destruct (net (length (requests w)) _); reflexivity.
Qed.

Lemma fetch_keeps_files net c endpoint w :
  files (fst (fetch net c endpoint false w)) = files w.
Proof.
  unfold fetch, bind, _rate_limit_wait, requests_get; simpl.
  destruct (net (length (requests w)) _); reflexivity.
Qed.

(** *** The retry loop keeps what every attempt keeps *)

Lemma retrying_frame {A} (attempt : M world A) n :
  (forall w f, attempt (set_files f w)
               = (set_files f (fst (attempt w)), snd (attempt w))) ->
  forall w f, retrying n attempt (set_files f w)
              = (set_files f (fst (retrying n attempt w)),
                 snd (retrying n attempt w)).
Proof.
  intros Hattempt. induction n as [|n IH]; intros w f; simpl;
    rewrite Hattempt; destruct (attempt w) as [w' [a|e]]; simpl; auto.
  destruct (is_request_exception e); auto.
Qed.

Lemma retrying_keeps_files {A} (attempt : M world A) n :
  (forall w, files (fst (attempt w)) = files w) ->
  forall w, files (fst (retrying n attempt w)) = files w.
Proof.
  intros Hattempt. induction n as [|n IH]; intros w; simpl;
    specialize (Hattempt w); destruct (attempt w) as [w' [a|e]];
    simpl in *; auto.
  destruct (is_request_exception e); simpl; auto.
  rewrite IH. exact Hattempt.
Qed.

Lemma retrying_ret {A} (attempt : M world A) n w w' a :
  attempt w = (w', Ret a) -> retrying n attempt w = (w', Ret a).
Proof. intros H. destruct n; simpl; rewrite H; reflexivity. Qed.

(** A value [get] returns with the cache enabled is the document the cache
    file of the endpoint holds afterwards. *)
Lemma attempt_result_cached net c endpoint w w' data :
  get_attempt net c endpoint true w = (w', Ret data) ->
  files w' !! _get_cache_path c endpoint = Some (Document data).
Proof.
  assert (Hfetch : forall w0, fetch net c endpoint true w0 = (w', Ret data) ->
            files w' !! _get_cache_path c endpoint = Some (Document data)).
  { intros w0. unfold fetch, bind, _rate_limit_wait, requests_get; simpl.
    destruct (net (length (requests w0)) _); simpl; [|discriminate].
    unfold _save_to_cache, ret; simpl.
    intros H. injection H as <- <-. simpl. apply lookup_insert_eq. }
  unfold get_attempt, bind, _get_from_cache.
  destruct (files w !! _get_cache_path c endpoint) as [[d|]|] eqn:Hfile;
    try discriminate; simpl.
  - destruct (truthy d); [|apply Hfetch].
    unfold ret. intros H. injection H as <- <-. exact Hfile.
  - apply Hfetch.
Qed.

Lemma retrying_result_cached net c endpoint n w w' data :
  retrying n (get_attempt net c endpoint true) w = (w', Ret data) ->
  files w' !! _get_cache_path c endpoint = Some (Document data).
Proof.
  revert w. induction n as [|n IH]; intros w; cbn [retrying];
    destruct (get_attempt net c endpoint true w) as [w1 [a|e]] eqn:Hattempt.
  - intros H. injection H as <- <-. eapply attempt_result_cached; eauto.
  - discriminate.
  - intros H. injection H as <- <-. eapply attempt_result_cached; eauto.
  - destruct (is_request_exception e); [apply IH | discriminate].
Qed.

(** A cache hit on a truthy document: no request, no change. *)
Lemma get_cache_hit net c endpoint w data :
  files w !! _get_cache_path c endpoint = Some (Document data) ->
  truthy data = true ->
  get net c endpoint true w = (w, Ret data).
Proof.
  intros Hfile Htruthy. unfold get, on_exception. apply retrying_ret.
  unfold get_attempt, bind, _get_from_cache. rewrite Hfile, Htruthy.
  reflexivity.
Qed.

(** *** C9 *)

(** C9. With [use_cache=False], [get] leaves the files of the cache
    directory as they were, whether the requests succeed or fail, and its
    outcome does not depend on those files: run on any other contents [f]
    of the directory it makes the same requests, returns or raises the same,
    and leaves [f] in place. *)
Theorem get_without_cache_frame :
  forall (net : network) (c : client) (endpoint : string) (w : world),
    files (fst (get net c endpoint false w)) = files w
    /\ forall f : gmap string file,
         get net c endpoint false (set_files f w)
         = (set_files f (fst (get net c endpoint false w)),
            snd (get net c endpoint false w)).
Proof.
  intros net c endpoint w. unfold get, on_exception. split.
  - apply retrying_keeps_files. intros w0. apply fetch_keeps_files.
  - intros f. apply retrying_frame. intros w0 f0. apply fetch_frame.
Qed.

(** *** C8 *)

(** C8. The endpoints [type/13] and [type?13] differ and have the same cache
    file; so when [get] has returned a (truthy) document for the first, a
    later [get] for the second returns that document from the cache, without
    any request, whatever the network would have answered. *)
Theorem cache_key_collision :
  forall (c : client),
    "type/13" <> "type?13"
    /\ _get_cache_path c "type/13" = _get_cache_path c "type?13"
    /\ forall (net net' : network) (w w1 : world) (data : json),
         get net c "type/13" true w = (w1, Ret data) ->
         truthy data = true ->
         get net' c "type?13" true w1 = (w1, Ret data).
Proof.
  intros c. split; [discriminate|]. split; [reflexivity|].
  intros net net' w w1 data Hget Htruthy.
  apply get_cache_hit; [|exact Htruthy].
  change (_get_cache_path c "type?13") with (_get_cache_path c "type/13").
  unfold get, on_exception in Hget.
  eapply retrying_result_cached; eauto.
Qed.

Lemma cache_key_collision_witness :
  get (fun _ _ => Fails RequestException) demo_client "type?13" true
    (fst (get steady demo_client "type/13" true cold))
  = (fst (get steady demo_client "type/13" true cold), Ret fighting).
Proof.
  apply (proj2 (proj2 (cache_key_collision demo_client))
           steady (fun _ _ => Fails RequestException) cold _ fighting);
    vm_compute; reflexivity.
Defined.

(** *** C4 *)

(** C4, as the specification states it, fails: on a cold cache, when the
    first request fails and the retry succeeds, two calls of [get] for
    [type/2] both return the document, the second from the cache, and two
    requests have been made, not one. *)
Lemma retry_makes_second_request :
  let w1 := fst (get flaky demo_client "type/2" true cold) in
  let w2 := fst (get flaky demo_client "type/2" true w1) in
  snd (get flaky demo_client "type/2" true cold) = Ret fighting
  /\ snd (get flaky demo_client "type/2" true w1) = Ret fighting
  /\ length (requests w2) = 2%nat
  /\ ~ (length (requests w2) = 1%nat).
Proof. vm_compute. repeat split; discriminate. Qed.

(** The same on a network that answers the empty object: the test
    [if cached_data:] takes the cached [{}] for a miss. *)
Example empty_document_is_fetched_again :
  let net : network := fun _ _ => Body (JObj []) in
  let w1 := fst (get net demo_client "type/2" true cold) in
  let w2 := fst (get net demo_client "type/2" true w1) in
  files w1 !! _get_cache_path demo_client "type/2" = Some (Document (JObj []))
  /\ length (requests w2) = 2%nat.
Proof. vm_compute. split; reflexivity. Qed.

(** C4, amended.  The cache path is a function of the client's cache
    directory and the endpoint string alone (clients with the same cache
    directory compute the same path, in any world).  When no cache file
    exists for the endpoint and the network answers the first request with
    a truthy document, two calls of [get] with the cache enabled make
    exactly one request: the first call requests the URL, returns the
    document and writes it to the cache file; the second returns it from
    that file and changes nothing (whatever the network would answer
    then). *)
Theorem cache_short_circuit :
  forall (net net' : network) (c : client) (endpoint : string) (w : world)
         (data : json),
    files w !! _get_cache_path c endpoint = None ->
    net (length (requests w)) (url_of c endpoint) = Body data ->
    truthy data = true ->
    (forall c' : client, cache_dir c' = cache_dir c ->
       _get_cache_path c' endpoint = _get_cache_path c endpoint)
    /\ exists w1,
         get net c endpoint true w = (w1, Ret data)
         /\ requests w1 = url_of c endpoint :: requests w
         /\ files w1 = <[_get_cache_path c endpoint := Document data]> (files w)
         /\ get net' c endpoint true w1 = (w1, Ret data).
Proof.
  intros net net' c endpoint w data Hcold Hnet Htruthy. split.
  { intros c' Hdir. unfold _get_cache_path. rewrite Hdir. reflexivity. }
  destruct (fetch_body net c endpoint true w data Hnet)
    as (w1 & Hfetch & Hrequests & Hfiles).
  exists w1. split; [|split; [exact Hrequests|split; [exact Hfiles|]]].
  - unfold get, on_exception. apply retrying_ret.
    unfold get_attempt, bind, _get_from_cache. rewrite Hcold. exact Hfetch.
  - apply get_cache_hit; [|exact Htruthy].
    rewrite Hfiles. apply lookup_insert_eq.
Qed.

Lemma cache_short_circuit_witness :
  exists w1,
    get steady demo_client "type/2" true cold = (w1, Ret fighting)
    /\ requests w1 = ["https://pokeapi.co/api/v2/type/2"]
    /\ files w1 = <["cache/type_2.json" := Document fighting]> ∅
    /\ get flaky demo_client "type/2" true w1 = (w1, Ret fighting).
Proof.
  exact (proj2 (cache_short_circuit steady flaky demo_client "type/2" cold
                  fighting eq_refl eq_refl eq_refl)).
Defined.

End ApiClientFacts.

(** ** The transformer *)

Module TransformerFacts.
Import Json Transformer TransformerTerms.

Lemma rbind_ret {A B} (r : result A) (k : A -> result B) (b : B) :
  rbind r k = Ret b -> exists a, r = Ret a /\ k a = Ret b.
Proof. destruct r as [a|e]; simpl; [eauto | discriminate]. Qed.

Ltac invert_rbind H :=
  let x := fresh "x" in
  let Hx := fresh "H" x in
  apply rbind_ret in H; destruct H as (x & Hx & H).

Lemma rmap_ret {A B} (f : A -> result B) (xs : list A) (ys : list B) :
  rmap f xs = Ret ys -> Forall2 (fun x y => f x = Ret y) xs ys.
Proof.
  revert ys. induction xs as [|x xs IH]; intros ys H; simpl in H.
  - injection H as <-. constructor.
  - invert_rbind H. invert_rbind H. injection H as <-.
    constructor; auto.
Qed.

(** The inner loop stops at the first detail of an allowed version group
    and emits its row; it emits nothing when there is none. *)
Lemma transform_details_spec raw_id move_id details rows :
  transform_details raw_id move_id details = Ret rows ->
  match find in_version_groups details with
  | None => rows = []
  | Some detail =>
      exists level method,
        py_getitem detail "level_learned_at" = Ret level
        /\ learn_method_name detail = Ret method
        /\ rows = [ {| move_pokemon_id := raw_id; move_id := move_id;
                       level_learned_at := level; learn_method := method |} ]
  end.
Proof.
  induction details as [|d rest IH]; simpl; intros H.
  - injection H as <-. reflexivity.
  - unfold in_version_groups at 1.
    destruct (py_getitem d "version_group") as [vg|e]; simpl in *;
      [|discriminate].
    destruct (py_getitem vg "name") as [n|e]; simpl in *; [|discriminate].
    destruct (py_in n version_groups); [|apply IH; exact H].
    unfold learn_method_name.
    destruct (py_getitem d "level_learned_at") as [level|e]; simpl in *;
      [|discriminate].
    destruct (py_getitem d "move_learn_method") as [m|e]; simpl in *;
      [|discriminate].
    destruct (py_getitem m "name") as [mn|e]; simpl in *; [|discriminate].
    injection H as <-. eauto.
Qed.

(** On well-formed details the inner loop returns. *)
Lemma transform_details_returns raw_id move_id details :
  Forall well_formed_detail details ->
  exists rows, transform_details raw_id move_id details = Ret rows.
Proof.
  induction 1 as [|d rest (vg & n & Hvg & Hn & Hallowed) _ IH]; simpl;
    [eauto|].
  rewrite Hvg. simpl. rewrite Hn. simpl.
  destruct (py_in n version_groups); [|exact IH].
  destruct (Hallowed eq_refl) as (level & method & Hlevel & Hmethod).
  rewrite Hlevel. simpl. unfold learn_method_name in Hmethod.
  destruct (py_getitem d "move_learn_method") as [m|e]; simpl in *;
    [|discriminate].
  rewrite Hmethod. simpl. eauto.
Qed.

(** One turn of the outer loop. *)
Lemma transform_move_entry_spec py_int raw_id entry rows :
  transform_move_entry py_int raw_id entry = Ret rows ->
  exists url move_id details,
    move_url entry = Ret url
    /\ _extract_id_from_url py_int url = Ret move_id
    /\ version_group_details entry = Ret details
    /\ transform_details raw_id move_id details = Ret rows.
Proof.
  unfold transform_move_entry, move_url, version_group_details.
  intros H.
  apply rbind_ret in H. destruct H as (move & Hmove & H).
  apply rbind_ret in H. destruct H as (url & Hurl & H).
  apply rbind_ret in H. destruct H as (move_id & Hid & H).
  apply rbind_ret in H. destruct H as (value & Hvalue & H).
  apply rbind_ret in H. destruct H as (details & Hdetails & H).
  exists url, move_id, details.
  rewrite Hmove, Hvalue. simpl. auto.
Qed.

(** The part of [transform_pokemon] that makes the move rows. *)
Lemma transform_pokemon_moves py_int raw_data out :
  transform_pokemon py_int raw_data = Ret out ->
  exists entries rows,
    move_entries raw_data = Ret entries
    /\ rmap (transform_move_entry py_int (id (pokemon out))) entries = Ret rows
    /\ moves out = concat rows.
Proof.
  unfold transform_pokemon, transform_each, move_entries. intros H.
  apply rbind_ret in H. destruct H as (species & _ & H).
  apply rbind_ret in H. destruct H as (raw_id & _ & H).
  apply rbind_ret in H. destruct H as (raw_name & _ & H).
  apply rbind_ret in H. destruct H as (raw_height & _ & H).
  apply rbind_ret in H. destruct H as (raw_weight & _ & H).
  apply rbind_ret in H. destruct H as (raw_experience & _ & H).
  apply rbind_ret in H. destruct H as (raw_is_default & _ & H).
  apply rbind_ret in H. destruct H as (raw_order & _ & H).
  apply rbind_ret in H. destruct H as (stats & _ & H).
  apply rbind_ret in H. destruct H as (types & _ & H).
  apply rbind_ret in H. destruct H as (abilities & _ & H).
  apply rbind_ret in H. destruct H as (rows & Hmoves & H).
  injection H as <-. simpl.
  apply rbind_ret in Hmoves. destruct Hmoves as (value & Hvalue & Hmoves).
  apply rbind_ret in Hmoves. destruct Hmoves as (entries & Hentries & Hrows).
  exists entries, rows. rewrite Hvalue. simpl. auto.
Qed.

(** C6. Whenever [transform_pokemon] returns, its move rows are the rows of
    the move entries of the raw record, in order, where each entry gives at
    most one row: when some version-group detail of the entry names one of
    sword-shield, sun-moon and x-y, exactly one row, carrying the level and
    the learn method of the first such detail (and the Pokemon's id and the
    id cut out of the move's URL); when none does, no row. *)
Theorem move_filtering :
  forall (py_int : string -> option Z) (raw_data : json) (out : Transformed),
    transform_pokemon py_int raw_data = Ret out ->
    exists (entries : list json) (rows : list (list MoveDict)),
      move_entries raw_data = Ret entries
      /\ moves out = concat rows
      /\ Forall2
           (fun entry rows_of_entry =>
              (length rows_of_entry <= 1)%nat
              /\ exists url move_id details,
                   move_url entry = Ret url
                   /\ _extract_id_from_url py_int url = Ret move_id
                   /\ version_group_details entry = Ret details
                   /\ match find in_version_groups details with
                      | None => rows_of_entry = []
                      | Some detail =>
                          exists level method,
                            py_getitem detail "level_learned_at" = Ret level
                            /\ learn_method_name detail = Ret method
                            /\ rows_of_entry =
                               [ {| move_pokemon_id := id (pokemon out);
                                    move_id := move_id;
                                    level_learned_at := level;
                                    learn_method := method |} ]
                      end)
           entries rows.
Proof.
  intros py_int raw_data out H.
  destruct (transform_pokemon_moves _ _ _ H) as (entries & rows & He & Hr & Hm).
  exists entries, rows. split; [exact He|]. split; [exact Hm|].
  apply rmap_ret in Hr. eapply Forall2_impl; [exact Hr|].
  intros entry rows_of_entry Hentry. simpl in Hentry.
  apply transform_move_entry_spec in Hentry.
  destruct Hentry as (url & move_id & details & Hurl & Hid & Hdetails & Hrun).
  apply transform_details_spec in Hrun.
  split.
  - destruct (find in_version_groups details).
    + destruct Hrun as (level & method & _ & _ & ->). simpl. lia.
    + subst. simpl. lia.
  - exists url, move_id, details. auto.
Qed.

(** On the sample record: thunderbolt gives its sword-shield row, tackle the
    row of sun-moon, the first allowed group of its list, pound nothing. *)
Lemma move_filtering_witness :
  exists out,
    transform_pokemon decimal_int pikachu = Ret out
    /\ moves out
       = [ {| move_pokemon_id := JInt 25; move_id := 85;
              level_learned_at := JInt 0; learn_method := JStr "machine" |};
           {| move_pokemon_id := JInt 25; move_id := 33;
              level_learned_at := JInt 5; learn_method := JStr "level-up" |} ]
    /\ exists rows,
         moves out = concat rows
         /\ Forall (fun rows_of_entry => (length rows_of_entry <= 1)%nat) rows.
Proof.
  eexists. split; [reflexivity|]. split; [reflexivity|].
  destruct (move_filtering decimal_int pikachu _ eq_refl)
    as (entries & rows & _ & Hmoves & Hrows).
  exists rows. split; [exact Hmoves|].
  clear Hmoves. induction Hrows as [|entry r entries rows [Hle _] _ IH];
    constructor; assumption.
Defined.

End TransformerFacts.

(** ** The analyzer *)

Module AnalyzerFacts.
Import Schema Analyzer AnalyzerTerms.
Import TransformerFacts.

(** *** Lists, sorting *)

Lemma mem_In x labels : mem x labels = true <-> In x labels.
Proof.
  unfold mem. rewrite existsb_exists. split.
  - intros (y & Hy & Heq). apply String.eqb_eq in Heq. subst. exact Hy.
  - intros H. exists x. split; [exact H | apply String.eqb_refl].
Qed.

Lemma insert_by_perm {A} (before : A -> A -> bool) x l :
  Permutation (insert_by before x l) (x :: l).
Proof.
  induction l as [|y l IH]; simpl; [reflexivity|].
  destruct (before x y); [reflexivity|].
  rewrite IH. apply perm_swap.
Qed.

Lemma sort_by_perm {A} (before : A -> A -> bool) l :
  Permutation (sort_by before l) l.
Proof.
  induction l as [|x l IH]; simpl; [reflexivity|].
  rewrite insert_by_perm. constructor. exact IH.
Qed.

Lemma sort_by_In {A} (before : A -> A -> bool) l x :
  In x (sort_by before l) <-> In x l.
Proof.
  split; apply Permutation_in;
    [apply sort_by_perm | symmetry; apply sort_by_perm].
Qed.

Lemma insert_by_sorted {A} (before : A -> A -> bool) x l :
  (forall a b, before a b = false -> before b a = true) ->
  (forall a b c, before a b = true -> before b c = true -> before a c = true) ->
  StronglySorted (fun a b => before a b = true) l ->
  StronglySorted (fun a b => before a b = true) (insert_by before x l).
Proof.
  intros Htotal Htrans. induction 1 as [|y l Hsorted IH Hall]; simpl.
  - repeat constructor.
  - destruct (before x y) eqn:Hxy.
    + constructor; [constructor; assumption|].
      constructor; [exact Hxy|].
      eapply List.Forall_impl; [|exact Hall]. intros z Hz. eauto.
    + constructor; [exact IH|].
      eapply Permutation_Forall; [symmetry; apply insert_by_perm|].
      constructor; [apply Htotal; exact Hxy | exact Hall].
Qed.

Lemma sort_by_sorted {A} (before : A -> A -> bool) l :
  (forall a b, before a b = false -> before b a = true) ->
  (forall a b c, before a b = true -> before b c = true -> before a c = true) ->
  StronglySorted (fun a b => before a b = true) (sort_by before l).
Proof.
  intros Htotal Htrans. induction l as [|x l IH]; simpl.
  - constructor.
  - apply insert_by_sorted; assumption.
Qed.

Lemma descending_total x y :
  by_effectiveness_descending x y = false ->
  by_effectiveness_descending y x = true.
Proof.
  unfold by_effectiveness_descending. intros H.
  apply Qle_bool_iff. apply Qlt_le_weak. apply Qnot_le_lt.
  intros Hle. apply Qle_bool_iff in Hle. congruence.
Qed.

Lemma descending_trans x y z :
  by_effectiveness_descending x y = true ->
  by_effectiveness_descending y z = true ->
  by_effectiveness_descending x z = true.
Proof.
  unfold by_effectiveness_descending. rewrite !Qle_bool_iff.
  intros Hxy Hyz. eapply Qle_trans; eauto.
Qed.





Lemma rmap_pure {A B} (f : A -> result B) (g : A -> B) xs :
  (forall x, In x xs -> f x = Ret (g x)) -> rmap f xs = Ret (map g xs).
Proof.
  induction xs as [|x xs IH]; intros H; simpl; [reflexivity|].
  rewrite (H x) by (left; reflexivity). simpl.
  rewrite IH by (intros y Hy; apply H; right; exact Hy). reflexivity.
Qed.

(** *** The multiplication of line 164 *)



Lemma loc_in {V} (matrix : Frame V) a d :
  In a (index matrix) -> In d (columns matrix) ->
  loc matrix a d = Ret (cell matrix a d).
Proof.
  intros Ha Hd. apply mem_In in Ha, Hd. unfold loc. rewrite Ha, Hd.
  reflexivity.
Qed.


(** For an attacking type of the index, [combine] raises nothing but the
    [TypeError] of the product. *)
Lemma combine_raise matrix attack_type pokemon_types acc e :
  In attack_type (index matrix) ->
  combine matrix attack_type pokemon_types acc = Raise e -> e = TypeError.
Proof.
  intros Ha. revert acc.
  induction pokemon_types as [|d rest IH]; intros acc; simpl; [discriminate|].
  destruct (mem d (columns matrix)) eqn:Hd; [|apply IH].
  apply mem_In in Hd. rewrite (loc_in _ _ _ Ha Hd). simpl.
  destruct (cell matrix attack_type d) as [v|v]; simpl; [congruence|].
  apply IH.
Qed.

(** Where no type of the Pokemon has a column, nothing is multiplied. *)
Lemma combine_skips matrix attack_type pokemon_types acc :
  (forall d, In d pokemon_types -> mem d (columns matrix) = false) ->
  combine matrix attack_type pokemon_types acc = Ret acc.
Proof.
  induction pokemon_types as [|d rest IH]; intros H; simpl; [reflexivity|].
  rewrite (H d) by (left; reflexivity).
  apply IH. intros d' Hd'. apply H. right. exact Hd'.
Qed.

(** A stored entry among the types of the Pokemon stops the loop. *)
Lemma combine_stored matrix attack_type pokemon_types acc d v :
  In attack_type (index matrix) ->
  In d pokemon_types ->
  In d (columns matrix) ->
  cell matrix attack_type d = Decimal v ->
  combine matrix attack_type pokemon_types acc = Raise TypeError.
Proof.
  intros Ha Hd Hcol Hcell. revert acc.
  induction pokemon_types as [|d' rest IH]; intros acc; [destruct Hd|].
  simpl. destruct (mem d' (columns matrix)) eqn:Hd'.
  - apply mem_In in Hd'. rewrite (loc_in _ _ _ Ha Hd'). simpl.
    destruct (cell matrix attack_type d') as [w|w] eqn:Hcell'; simpl;
      [reflexivity|].
    destruct Hd as [->|Hd]; [congruence|]. apply IH. exact Hd.
  - destruct Hd as [->|Hd]; [|apply IH; exact Hd].
    apply mem_In in Hcol. congruence.
Qed.

Lemma Forall2_left {A B} (R : A -> B -> Prop) l1 l2 x :
  Forall2 R l1 l2 -> In x l1 -> exists y, In y l2 /\ R x y.
Proof.
  induction 1 as [|a b l1 l2 Hab _ IH]; intros Hx; [destruct Hx|].
  destruct Hx as [<-|Hx]; [exists b; simpl; auto|].
  destruct (IH Hx) as (y & Hy & Hxy). exists y. simpl. auto.
Qed.

Lemma Forall2_right {A B} (R : A -> B -> Prop) l1 l2 y :
  Forall2 R l1 l2 -> In y l2 -> exists x, In x l1 /\ R x y.
Proof.
  induction 1 as [|a b l1 l2 Hab _ IH]; intros Hy; [destruct Hy|].
  destruct Hy as [<-|Hy]; [exists a; simpl; auto|].
  destruct (IH Hy) as (x & Hx & Hxy). exists x. simpl. auto.
Qed.







(** *** C3 *)


(** Where a type of the Pokemon has a column, the loop meets a stored
    entry, a Decimal, and the product of line 164 raises: no profile is
    returned for the fire and ground Pokemon, nor for the water one. *)
Example stored_entry_stops_profile :
  get_pokemon_weakness_profile demo_db 322 = Raise TypeError
  /\ get_pokemon_weakness_profile demo_db 7 = Raise TypeError
  /\ get_pokemon_weakness_profile shadow_db 1000 = Raise TypeError.
Proof. repeat split. Qed.



(** *** C10 *)

Lemma no_types_no_names db pokemon_id :
  Forall (fun pt => PokemonType.pokemon_id pt <> pokemon_id)
    (pokemon_types db) ->
  pokemon_types_query db pokemon_id = [].
Proof.
  intros Hnone. unfold pokemon_types_query.
  assert (Hfilter :
            List.filter (fun pt => PokemonType.pokemon_id pt =? pokemon_id)
              (pokemon_types db) = []).
  { induction Hnone as [|pt rest Hpt _ IH]; simpl; [reflexivity|].
    destruct (Z.eqb_spec (PokemonType.pokemon_id pt) pokemon_id);
      [contradiction | exact IH]. }
  rewrite Hfilter. reflexivity.
Qed.

(** C10. For a Pokemon id without stored type associations,
    [get_pokemon_weakness_profile] returns the empty frame (it does not
    raise, whatever else the store holds), and [recommend_counter_types]
    returns the empty frame for every [top_n]. *)
Theorem typeless_pokemon_empty :
  forall (format_value : Q -> string) (db : DB) (pokemon_id : Z),
    Forall (fun pt => PokemonType.pokemon_id pt <> pokemon_id)
      (pokemon_types db) ->
    get_pokemon_weakness_profile db pokemon_id = Ret []
    /\ forall top_n : Z,
         recommend_counter_types format_value db pokemon_id top_n = Ret [].
Proof.
  intros format_value db pokemon_id Hnone.
  assert (Hprofile : get_pokemon_weakness_profile db pokemon_id = Ret []).
  { unfold get_pokemon_weakness_profile.
    rewrite (no_types_no_names _ _ Hnone). reflexivity. }
  split; [exact Hprofile|].
  intros top_n. unfold recommend_counter_types. rewrite Hprofile. reflexivity.
Qed.

Lemma typeless_pokemon_empty_witness :
  get_pokemon_weakness_profile demo_db 999 = Ret []
  /\ forall top_n : Z,
       recommend_counter_types render demo_db 999 top_n = Ret [].
Proof.
  apply (typeless_pokemon_empty render demo_db 999).
  repeat constructor; discriminate.
Defined.

(** *** C5 *)








(** *** C2 *)

(** C2, as the specification states it, fails: the sample store satisfies
    the constraints of the schema and lists the type "unknown", which
    occurs in no stored effectiveness row; the pair (unknown, fire) has no
    stored row, and the matrix has no entry for it: looking it up raises
    [KeyError] instead of giving 1.0. *)
Lemma unknown_type_has_no_entry :
  integrity_ok demo_db = true
  /\ In (a_type 10001 "unknown") (types demo_db)
  /\ In (a_type 10 "fire") (types demo_db)
  /\ stored_pair demo_db (a_type 10001 "unknown") (a_type 10 "fire") = None
  /\ (exists matrix,
        get_effectiveness_matrix demo_db = Ret matrix
        /\ loc matrix "unknown" "fire" = Raise KeyError)
  /\ ~ (forall matrix attacker defender,
          get_effectiveness_matrix demo_db = Ret matrix ->
          In attacker (types demo_db) -> In defender (types demo_db) ->
          stored_pair demo_db attacker defender = None ->
          loc matrix (Type_.name attacker) (Type_.name defender)
          = Ret (Float 1)).
Proof.
  split; [reflexivity|]. split; [simpl; tauto|]. split; [simpl; tauto|].
  split; [reflexivity|]. split.
  - eexists. split; reflexivity.
  - intros H.
    specialize (H _ (a_type 10001 "unknown") (a_type 10 "fire") eq_refl).
    simpl in H. discriminate H; auto 10.
Qed.

Lemma distinct_injective {A K} (eqb : K -> K -> bool) (f : A -> K) l :
  (forall a b, eqb a b = true <-> a = b) ->
  distinct eqb (map f l) = true ->
  forall x y, In x l -> In y l -> f x = f y -> x = y.
Proof.
  intros Heqb. induction l as [|z l IH]; simpl; [tauto|].
  intros H. apply andb_prop in H. destruct H as [Hfresh Hrest].
  apply negb_true_iff in Hfresh.
  assert (Hnot : forall y, In y l -> f z <> f y).
  { intros y Hy Heq.
    assert (existsb (eqb (f z)) (map f l) = true); [|congruence].
    apply existsb_exists. exists (f y). split; [apply in_map; exact Hy|].
    apply Heqb. exact Heq. }
  intros x y [<-|Hx] [<-|Hy] Heq; auto.
  - exfalso. eapply Hnot; eauto.
  - exfalso. eapply Hnot; eauto.
Qed.

Lemma references_In ids fk :
  references ids fk = true <-> In fk ids.
Proof.
  unfold references. rewrite existsb_exists. split.
  - intros (i & Hi & Heq). apply Z.eqb_eq in Heq. subst. exact Hi.
  - intros H. exists fk. split; [exact H | apply Z.eqb_refl].
Qed.

(** What the analyzer needs of the constraints: type ids and type names
    are keys of [types], and effectiveness rows reference types. *)
Lemma integrity_types db :
  integrity_ok db = true ->
  (forall x y, In x (types db) -> In y (types db) ->
               Type_.id x = Type_.id y -> x = y)
  /\ (forall x y, In x (types db) -> In y (types db) ->
                  Type_.name x = Type_.name y -> x = y)
  /\ (forall te, In te (type_effectiveness db) ->
        (exists t, In t (types db)
                   /\ Type_.id t = TypeEffectiveness.attack_type_id te)
        /\ (exists t, In t (types db)
                      /\ Type_.id t = TypeEffectiveness.defense_type_id te)).
Proof.
  unfold integrity_ok. intros H.
  repeat (apply andb_prop in H; destruct H as [H ?]).
  split; [|split].
  - apply (distinct_injective Z.eqb); [apply Z.eqb_eq | assumption].
  - apply (distinct_injective String.eqb); [apply String.eqb_eq | assumption].
  - intros te Hte.
    match goal with
    | Hfk : forallb _ (type_effectiveness db) = true |- _ =>
        rewrite forallb_forall in Hfk; specialize (Hfk te Hte);
        apply andb_prop in Hfk; destruct Hfk as [Ha Hd]
    end.
    apply references_In in Ha, Hd. apply in_map_iff in Ha, Hd.
    destruct Ha as (ta & Ha & Hta). destruct Hd as (td & Hd & Htd).
    split; eauto.
Qed.

Lemma filter_none {A} (p : A -> bool) l :
  (forall x, In x l -> p x = false) -> List.filter p l = [].
Proof.
  induction l as [|y l IH]; intros H; simpl; [reflexivity|].
  rewrite (H y) by (left; reflexivity).
  apply IH. intros x Hx. apply H. right. exact Hx.
Qed.

Lemma distinct_head_fresh {A} (f : A -> Z) z l :
  distinct Z.eqb (map f (z :: l)) = true ->
  (forall x, In x l -> f z <> f x) /\ distinct Z.eqb (map f l) = true.
Proof.
  simpl. intros H. apply andb_prop in H. destruct H as [Hfresh Hrest].
  split; [|exact Hrest]. apply negb_true_iff in Hfresh.
  intros x Hx Heq.
  assert (existsb (Z.eqb (f z)) (map f l) = true); [|congruence].
  apply existsb_exists. exists (f x). split; [apply in_map; exact Hx|].
  apply Z.eqb_eq. exact Heq.
Qed.

(** With ids as keys, the join on an id that is present finds exactly its
    type. *)
Lemma types_with_id_unique db t :
  distinct Z.eqb (map Type_.id (types db)) = true ->
  In t (types db) ->
  types_with_id db (Type_.id t) = [t].
Proof.
  unfold types_with_id. generalize (types db) as l.
  induction l as [|z l IH]; intros Hkey Hin; [inversion Hin|].
  apply distinct_head_fresh in Hkey. destruct Hkey as [Hfresh Hrest].
  simpl. destruct (Z.eqb_spec (Type_.id z) (Type_.id t)) as [Heq|Hne].
  - destruct Hin as [->|Hin]; [|exfalso; eapply Hfresh; eauto].
    f_equal. apply filter_none. intros x Hx.
    apply Z.eqb_neq. intros Heq'. eapply Hfresh; eauto.
  - destruct Hin as [->|Hin]; [congruence|]. apply IH; assumption.
Qed.

(** The row the query gives for a stored row whose two types are [ta] and
    [td]. *)
Lemma query_step db te ta td :
  distinct Z.eqb (map Type_.id (types db)) = true ->
  In ta (types db) -> In td (types db) ->
  Type_.id ta = TypeEffectiveness.attack_type_id te ->
  Type_.id td = TypeEffectiveness.defense_type_id te ->
  flat_map
    (fun at_ =>
       map (fun dt =>
              {| attacking_type := Type_.name at_;
                 defending_type := Type_.name dt;
                 effectiveness := TypeEffectiveness.effectiveness te |})
         (types_with_id db (TypeEffectiveness.defense_type_id te)))
    (types_with_id db (TypeEffectiveness.attack_type_id te))
  = [ {| attacking_type := Type_.name ta; defending_type := Type_.name td;
         effectiveness := TypeEffectiveness.effectiveness te |} ].
Proof.
  intros Hkey Hta Htd <- <-.
  rewrite !types_with_id_unique by assumption. reflexivity.
Qed.

Lemma insert_label_In x y labels :
  In x (insert_label y labels) <-> x = y \/ In x labels.
Proof.
  induction labels as [|z labels IH]; simpl; [intuition|].
  destruct (String.compare y z) eqn:E; simpl.
  - apply String.compare_eq_iff in E. subst. intuition.
  - intuition.
  - rewrite IH. intuition.
Qed.

Lemma unique_sorted_In x labels :
  In x (unique_sorted labels) <-> In x labels.
Proof.
  induction labels as [|y labels IH]; simpl; [reflexivity|].
  rewrite insert_label_In, IH. intuition.
Qed.

(** The query result over any part [tes] of the stored rows, seen through
    two types [ta] and [td] of the table. *)
Lemma query_facts db tes ta td :
  integrity_ok db = true ->
  (forall te, In te tes -> In te (type_effectiveness db)) ->
  In ta (types db) -> In td (types db) ->
  let body := fun te =>
    flat_map
      (fun at_ =>
         map (fun dt =>
                {| attacking_type := Type_.name at_;
                   defending_type := Type_.name dt;
                   effectiveness := TypeEffectiveness.effectiveness te |})
           (types_with_id db (TypeEffectiveness.defense_type_id te)))
      (types_with_id db (TypeEffectiveness.attack_type_id te)) in
  (In (Type_.name ta) (map attacking_type (flat_map body tes))
   <-> existsb (fun te => TypeEffectiveness.attack_type_id te =? Type_.id ta)
         tes = true)
  /\ (In (Type_.name td) (map defending_type (flat_map body tes))
      <-> existsb
            (fun te => TypeEffectiveness.defense_type_id te =? Type_.id td)
            tes = true)
  /\ option_map effectiveness
       (find (same_pair (Type_.name ta) (Type_.name td)) (flat_map body tes))
     = option_map TypeEffectiveness.effectiveness
         (find (fun te =>
                  (TypeEffectiveness.attack_type_id te =? Type_.id ta)
                  && (TypeEffectiveness.defense_type_id te =? Type_.id td))
            tes).
Proof.
  intros Hok Hsub Hta Htd body.
  destruct (integrity_types db Hok) as (Hid & Hname & Hfk).
  assert (Hkey : distinct Z.eqb (map Type_.id (types db)) = true).
  { unfold integrity_ok in Hok.
    repeat (apply andb_prop in Hok; destruct Hok as [Hok ?]). assumption. }
  induction tes as [|te tes IH].
  - simpl. repeat split; intros; try discriminate; try contradiction.
  - destruct IH as (IHa & IHd & IHf).
    { intros te' Hte'. apply Hsub. right. exact Hte'. }
    destruct (Hfk te (Hsub te (or_introl eq_refl)))
      as ((xa & Hxa & Hxa_id) & (xd & Hxd & Hxd_id)).
    assert (Hbody : body te =
              [ {| attacking_type := Type_.name xa;
                   defending_type := Type_.name xd;
                   effectiveness := TypeEffectiveness.effectiveness te |} ])
      by (apply query_step; assumption).
    assert (Ha : String.eqb (Type_.name xa) (Type_.name ta)
                 = (TypeEffectiveness.attack_type_id te =? Type_.id ta)).
    { rewrite <- Hxa_id. apply eq_true_iff_eq.
      rewrite String.eqb_eq, Z.eqb_eq. split.
      - intros Heq. f_equal. apply Hname; assumption.
      - intros Heq. f_equal. apply Hid; assumption. }
    assert (Hd : String.eqb (Type_.name xd) (Type_.name td)
                 = (TypeEffectiveness.defense_type_id te =? Type_.id td)).
    { rewrite <- Hxd_id. apply eq_true_iff_eq.
      rewrite String.eqb_eq, Z.eqb_eq. split.
      - intros Heq. f_equal. apply Hname; assumption.
      - intros Heq. f_equal. apply Hid; assumption. }
    cbn [flat_map existsb find]. rewrite Hbody. cbn [app map].
    cbn [In find]. unfold same_pair at 1. cbn [attacking_type defending_type].
    rewrite Ha, Hd. split; [|split].
    + rewrite orb_true_iff, <- IHa, <- Ha, String.eqb_eq. intuition.
    + rewrite orb_true_iff, <- IHd, <- Hd, String.eqb_eq. intuition.
    + destruct ((TypeEffectiveness.attack_type_id te =? Type_.id ta)
                && (TypeEffectiveness.defense_type_id te =? Type_.id td));
        [reflexivity | exact IHf].
Qed.

(** C2, amended.  On a store that satisfies the constraints of the schema
    and on which the matrix is built (no pair of types is stored twice),
    for every ordered pair of types of the [types] table: the matrix has an
    entry for the pair exactly when the first type is the attacker of some
    stored row and the second the defender of some stored row; the entry is
    then the stored effectiveness of the pair (a Decimal), and the float
    1.0 when no row is stored for the pair.  For any other pair the lookup
    raises [KeyError]. *)
Theorem effectiveness_matrix_entries :
  forall (db : DB) (matrix : Frame number) (attacker defender : Type_.t),
    integrity_ok db = true ->
    get_effectiveness_matrix db = Ret matrix ->
    In attacker (types db) ->
    In defender (types db) ->
    loc matrix (Type_.name attacker) (Type_.name defender)
    = if attacks db attacker && defends db defender
      then Ret match stored_pair db attacker defender with
               | Some te => Decimal (TypeEffectiveness.effectiveness te)
               | None => Float 1
               end
      else Raise KeyError.
Proof.
  intros db matrix attacker defender Hok Hmatrix Ha Hd.
  unfold get_effectiveness_matrix, pivot in Hmatrix.
  destruct (has_duplicate_pair (effectiveness_query db)); [discriminate|].
  simpl in Hmatrix. injection Hmatrix as <-.
  destruct (query_facts db (type_effectiveness db) attacker defender Hok
              (fun te H => H) Ha Hd) as (Hindex & Hcolumns & Hcell).
  fold (effectiveness_query db) in *.
  unfold loc, fillna. cbn [index columns cell].
  assert (Hrow : mem (Type_.name attacker)
                   (unique_sorted (map attacking_type (effectiveness_query db)))
                 = attacks db attacker).
  { apply eq_true_iff_eq. rewrite mem_In, unique_sorted_In. exact Hindex. }
  assert (Hcol : mem (Type_.name defender)
                   (unique_sorted (map defending_type (effectiveness_query db)))
                 = defends db defender).
  { apply eq_true_iff_eq. rewrite mem_In, unique_sorted_In. exact Hcolumns. }
  rewrite Hrow, Hcol.
  destruct (attacks db attacker && defends db defender); [|reflexivity].
  f_equal. unfold stored_pair.
  destruct (find (same_pair _ _) (effectiveness_query db));
    destruct (find _ (type_effectiveness db)); simpl in *;
    congruence.
Qed.

Lemma effectiveness_matrix_entries_witness :
  exists matrix,
    get_effectiveness_matrix demo_db = Ret matrix
    /\ loc matrix "water" "ground" = Ret (Decimal 2)
    /\ loc matrix "ground" "water" = Ret (Float 1)
    /\ loc matrix "unknown" "water" = Raise KeyError.
Proof.
  eexists. split; [reflexivity|].
  split; [|split].
  - exact (effectiveness_matrix_entries demo_db _ (a_type 11 "water")
             (a_type 5 "ground") eq_refl eq_refl
             ltac:(simpl; tauto) ltac:(simpl; tauto)).
  - exact (effectiveness_matrix_entries demo_db _ (a_type 5 "ground")
             (a_type 11 "water") eq_refl eq_refl
             ltac:(simpl; tauto) ltac:(simpl; tauto)).
  - exact (effectiveness_matrix_entries demo_db _ (a_type 10001 "unknown")
             (a_type 11 "water") eq_refl eq_refl
             ltac:(simpl; tauto) ltac:(simpl; tauto)).
Defined.

End AnalyzerFacts.

(** ** The loader *)

Module LoaderFacts.
Import Schema Loader LoaderTerms.
Import AnalyzerFacts.

(** *** Upserts on lists of rows *)

Section Rows.

Context {R K : Type}.
Variable same_key : R -> R -> bool.
Variable assign : R -> R -> R.
Variable key : R -> K.

(** The filter of the query compares natural keys, and the update branch
    assigns every column outside the key. *)
Hypothesis same_key_spec :
  forall data r, same_key data r = true <-> key r = key data.
Hypothesis assign_spec :
  forall data r, same_key data r = true -> assign data r = data.

Lemma same_key_refl x : same_key x x = true.
Proof using same_key_spec. apply same_key_spec. reflexivity. Qed.

Lemma same_key_congr x r r' :
  key r = key r' -> same_key x r = same_key x r'.
Proof using same_key_spec.
  intros Heq. apply eq_true_iff_eq. rewrite !same_key_spec. rewrite Heq.
  reflexivity.
Qed.

Lemma same_key_congr_l x x' r :
  key x = key x' -> same_key x r = same_key x' r.
Proof using same_key_spec.
  intros Heq. apply eq_true_iff_eq. rewrite !same_key_spec. rewrite Heq.
  reflexivity.
Qed.

Lemma same_key_interchangeable a b :
  same_key a b = true -> forall r, same_key a r = same_key b r.
Proof using same_key_spec.
  intros Hab r. apply same_key_congr_l. symmetry. apply same_key_spec.
  exact Hab.
Qed.

Lemma find_index_Some (p : R -> bool) rows i :
  find_index p rows = Some i ->
  exists r, nth_error rows i = Some r /\ p r = true.
Proof.
  revert i. induction rows as [|r rows IH]; simpl; intros i H; [discriminate|].
  destruct (p r) eqn:Hp.
  - injection H as <-. eauto.
  - destruct (find_index p rows) as [j|]; simpl in H; [|discriminate].
    injection H as <-. apply IH. reflexivity.
Qed.

Lemma find_index_None (p : R -> bool) rows :
  find_index p rows = None -> forall r, In r rows -> p r = false.
Proof.
  induction rows as [|r rows IH]; simpl; intros H x Hx; [contradiction|].
  destruct (p r) eqn:Hp; [discriminate|].
  destruct (find_index p rows); simpl in H; [discriminate|].
  destruct Hx as [<-|Hx]; auto.
Qed.

Lemma find_index_is_Some (p : R -> bool) rows r :
  In r rows -> p r = true -> exists i, find_index p rows = Some i.
Proof.
  intros Hin Hp. destruct (find_index p rows) eqn:E; [eauto|].
  rewrite (find_index_None _ _ E r Hin) in Hp. discriminate.
Qed.

Lemma update_at_keys i f objs :
  (forall r, nth_error objs i = Some r -> key (f r) = key r) ->
  map key (update_at i f objs) = map key objs.
Proof.
  revert i. induction objs as [|r objs IH]; intros [|i] H; simpl; auto.
  - rewrite (H r eq_refl). reflexivity.
  - f_equal. apply IH. exact H.
Qed.

Lemma nth_error_keys (l1 l2 : list R) i r1 r2 :
  map key l1 = map key l2 ->
  nth_error l1 i = Some r1 -> nth_error l2 i = Some r2 -> key r1 = key r2.
Proof.
  revert l2 i. induction l1 as [|a l1 IH]; intros [|b l2] [|i] Hk H1 H2;
    simpl in *; try discriminate.
  - injection Hk as Hk _. congruence.
  - injection Hk as _ Hk. eauto.
Qed.

Lemma update_at_nth i f (objs : list R) r :
  nth_error objs i = Some r ->
  nth_error (update_at i f objs) i = Some (f r).
Proof.
  revert i. induction objs as [|a objs IH]; intros [|i]; simpl;
    try discriminate; auto.
  intros H. injection H as <-. reflexivity.
Qed.

Lemma update_at_nth_other i j f (objs : list R) :
  i <> j -> nth_error (update_at i f objs) j = nth_error objs j.
Proof.
  revert i j. induction objs as [|a objs IH]; intros [|i] [|j] H; simpl;
    auto; congruence.
Qed.

Lemma stage_one_keys rows objs data :
  map key objs = map key rows ->
  map key (stage_one same_key assign rows objs data) = map key rows.
Proof using same_key_spec assign_spec.
  intros Hk. unfold stage_one.
  destruct (find_index (same_key data) rows) as [i|] eqn:E; [|exact Hk].
  rewrite update_at_keys; [exact Hk|].
  intros r Hr. destruct (find_index_Some _ _ _ E) as (r0 & Hr0 & Hp).
  rewrite assign_spec; [symmetry|].
  - rewrite (nth_error_keys _ _ _ _ _ Hk Hr Hr0). apply same_key_spec. exact Hp.
  - rewrite (same_key_congr _ r r0); [exact Hp|].
    eapply nth_error_keys; eauto.
Qed.

Lemma staged_live_keys rows batch objs :
  map key objs = map key rows ->
  map key (staged_live same_key assign rows batch objs) = map key rows.
Proof using same_key_spec assign_spec.
  revert objs. induction batch as [|d batch IH]; intros objs Hk; simpl;
    [exact Hk|].
  apply IH. apply (stage_one_keys rows objs d Hk).
Qed.

(** Lists with the same keys have the same matches, in number. *)
Lemma matches_by_keys x (l1 l2 : list R) :
  map key l1 = map key l2 ->
  length (List.filter (same_key x) l1) = length (List.filter (same_key x) l2).
Proof using same_key_spec.
  revert l2. induction l1 as [|a l1 IH]; intros [|b l2] Hk; simpl in *;
    try discriminate; [reflexivity|].
  injection Hk as Hab Hk. rewrite (same_key_congr x a b Hab).
  destruct (same_key x b); simpl; auto.
Qed.

Lemma nth_error_same_length (l1 l2 : list R) i r :
  map key l1 = map key l2 -> nth_error l2 i = Some r ->
  exists r', nth_error l1 i = Some r'.
Proof.
  revert l2 i. induction l1 as [|a l1 IH]; intros [|b l2] [|i] Hk H;
    simpl in *; try discriminate; eauto.
  injection Hk as _ Hk. eauto.
Qed.

Lemma update_at_filter (p : R -> bool) i f objs :
  (forall r, nth_error objs i = Some r -> p r = false /\ p (f r) = false) ->
  List.filter p (update_at i f objs) = List.filter p objs.
Proof.
  revert i. induction objs as [|a objs IH]; intros [|i] H; simpl; auto.
  - destruct (H a eq_refl) as [-> ->]. reflexivity.
  - rewrite IH by exact H. reflexivity.
Qed.

(** *** Batches without a repeated key *)

Lemma distinct_cons x l :
  distinct same_key (x :: l) = true <->
  (forall y, In y l -> same_key x y = false) /\ distinct same_key l = true.
Proof.
  simpl. rewrite andb_true_iff, negb_true_iff. split; intros [H1 H2]; split;
    auto.
  - intros y Hy. destruct (same_key x y) eqn:E; auto.
    rewrite <- H1. symmetry. apply existsb_exists. eauto.
  - destruct (existsb (same_key x) l) eqn:E; auto.
    apply existsb_exists in E. destruct E as (y & Hy & E).
    rewrite (H1 y Hy) in E. discriminate.
Qed.

Lemma distinct_app_r l1 l2 :
  distinct same_key (l1 ++ l2) = true -> distinct same_key l2 = true.
Proof.
  induction l1 as [|a l1 IH]; [auto|].
  rewrite <- app_comm_cons. intros H. apply distinct_cons in H. tauto.
Qed.

Lemma distinct_filter (p : R -> bool) l :
  distinct same_key l = true -> distinct same_key (List.filter p l) = true.
Proof.
  induction l as [|a l IH]; [auto|]. intros H.
  apply distinct_cons in H. destruct H as [Hfresh Hrest]. simpl.
  destruct (p a); [|auto]. apply distinct_cons. split; [|auto].
  intros y Hy. apply filter_In in Hy. apply Hfresh. tauto.
Qed.

Lemma distinct_matches x l :
  distinct same_key l = true ->
  (length (List.filter (same_key x) l) <= 1)%nat.
Proof using same_key_spec.
  induction l as [|a l IH]; [simpl; lia|]. intros H.
  apply distinct_cons in H. destruct H as [Hfresh Hrest]. simpl.
  destruct (same_key x a) eqn:E; [|auto].
  rewrite filter_none; [simpl; lia|].
  intros y Hy. rewrite (same_key_congr_l x a); [auto|].
  symmetry. apply same_key_spec. exact E.
Qed.

Lemma distinct_filter_self e l :
  distinct same_key l = true -> In e l ->
  List.filter (same_key e) l = [e].
Proof using same_key_spec.
  induction l as [|a l IH]; [contradiction|]. intros H Hin.
  apply distinct_cons in H. destruct H as [Hfresh Hrest].
  destruct Hin as [->|Hin]; simpl.
  - rewrite same_key_refl. f_equal. apply filter_none. exact Hfresh.
  - destruct (same_key e a) eqn:E; [|auto].
    exfalso. apply same_key_spec in E.
    assert (same_key a e = true) by (apply same_key_spec; auto).
    rewrite (Hfresh e Hin) in *. discriminate.
Qed.

(** *** The rows after a batch *)

Lemma pending_In rows batch e :
  In e (staged_pending same_key rows batch) <->
  In e batch /\ find_index (same_key e) rows = None.
Proof.
  unfold staged_pending. rewrite filter_In.
  destruct (find_index (same_key e) rows); intuition discriminate.
Qed.

(** An entity with the key of a stored row is not added. *)
Lemma pending_no_match rows batch x r :
  In r rows -> same_key x r = true ->
  List.filter (same_key x) (staged_pending same_key rows batch) = [].
Proof using same_key_spec.
  intros Hr Hx. apply filter_none. intros e He.
  apply pending_In in He. destruct He as [_ Hnone].
  destruct (same_key x e) eqn:E; [|reflexivity].
  rewrite <- (find_index_None _ _ Hnone r Hr). symmetry.
  apply same_key_spec. apply same_key_spec in Hx, E. congruence.
Qed.

Lemma staged_live_untouched rows batch objs i :
  (forall d, In d batch -> find_index (same_key d) rows <> Some i) ->
  nth_error (staged_live same_key assign rows batch objs) i
  = nth_error objs i.
Proof.
  revert objs. induction batch as [|d batch IH]; intros objs H; simpl;
    [reflexivity|].
  rewrite IH by (intros d' Hd'; apply H; right; exact Hd').
  unfold stage_one.
  destruct (find_index (same_key d) rows) as [j|] eqn:E; [|reflexivity].
  apply update_at_nth_other. intros ->. apply (H d); [left; reflexivity|].
  exact E.
Qed.

Lemma staged_live_filter rows batch objs x :
  map key objs = map key rows ->
  (forall e, In e batch -> same_key x e = false) ->
  List.filter (same_key x) (staged_live same_key assign rows batch objs)
  = List.filter (same_key x) objs.
Proof using same_key_spec assign_spec.
  revert objs. induction batch as [|d batch IH]; intros objs Hk H; simpl;
    [reflexivity|].
  rewrite IH; [|apply stage_one_keys; exact Hk
               |intros e He; apply H; right; exact He].
  unfold stage_one.
  destruct (find_index (same_key d) rows) as [i|] eqn:E; [|reflexivity].
  destruct (find_index_Some _ _ _ E) as (r0 & Hr0 & Hp).
  apply update_at_filter. intros r Hr.
  assert (Hkr : key r = key d).
  { rewrite (nth_error_keys _ _ _ _ _ Hk Hr Hr0). apply same_key_spec.
    exact Hp. }
  assert (Hm : same_key d r = true) by (apply same_key_spec; exact Hkr).
  rewrite (assign_spec _ _ Hm).
  rewrite (same_key_congr x r d Hkr).
  split; apply H; left; reflexivity.
Qed.

(** When at most one of [l2] matches [x] and it stands at [i], the one of
    [l1] that matches [x] stands at [i], for lists with the same keys. *)
Lemma filter_single_at x (l1 l2 : list R) i r e :
  map key l1 = map key l2 ->
  (length (List.filter (same_key x) l2) <= 1)%nat ->
  nth_error l2 i = Some r -> same_key x r = true ->
  nth_error l1 i = Some e ->
  List.filter (same_key x) l1 = [e].
Proof using same_key_spec.
  revert l2 i. induction l1 as [|a l1 IH]; intros [|b l2] [|i] Hk Hle Hr Hx He;
    simpl in *; try discriminate.
  - injection Hk as Hab Hk. injection Hr as ->. injection He as ->.
    rewrite (same_key_congr x e r Hab), Hx.
    rewrite Hx in Hle. simpl in Hle. f_equal.
    apply length_zero_iff_nil.
    rewrite (matches_by_keys x l1 l2 Hk). lia.
  - injection Hk as Hab Hk. rewrite (same_key_congr x a b Hab).
    destruct (same_key x b) eqn:Hb; simpl in Hle.
    + exfalso.
      assert (In r (List.filter (same_key x) l2)).
      { apply filter_In. split; [eapply nth_error_In; eauto | exact Hx]. }
      destruct (List.filter (same_key x) l2);
        [contradiction | simpl in Hle; lia].
    + eapply IH; eauto.
Qed.

(** The four facts about the table after a batch of upserts. *)

(** No match is lost. *)
Lemma upserted_keeps rows batch x :
  (length (List.filter (same_key x) rows)
   <= length (List.filter (same_key x)
                (upserted same_key assign rows batch)))%nat.
Proof using same_key_spec assign_spec.
  unfold upserted. rewrite List.filter_app, length_app.
  rewrite (matches_by_keys x (staged_live same_key assign rows batch rows)
             rows); [lia|].
  apply staged_live_keys. reflexivity.
Qed.

(** A key that had at most one row has at most one row. *)
Lemma upserted_no_duplicate rows batch x :
  distinct same_key batch = true ->
  (length (List.filter (same_key x) rows) <= 1)%nat ->
  (length (List.filter (same_key x) (upserted same_key assign rows batch))
   <= 1)%nat.
Proof using same_key_spec assign_spec.
  intros Hdistinct Hle. unfold upserted. rewrite List.filter_app, length_app.
  rewrite (matches_by_keys x (staged_live same_key assign rows batch rows)
             rows) by (apply staged_live_keys; reflexivity).
  destruct (List.filter (same_key x) rows) as [|r rest] eqn:E.
  - simpl. apply distinct_matches. apply distinct_filter. exact Hdistinct.
  - assert (Hr : In r (List.filter (same_key x) rows))
      by (rewrite E; left; reflexivity).
    apply filter_In in Hr. destruct Hr as [Hr Hx].
    rewrite (pending_no_match rows batch x r Hr Hx). simpl in *. lia.
Qed.

(** The row of a loaded entity is the entity. *)
Lemma upserted_row rows batch e :
  distinct same_key batch = true ->
  In e batch ->
  (length (List.filter (same_key e) rows) <= 1)%nat ->
  List.filter (same_key e) (upserted same_key assign rows batch) = [e].
Proof using same_key_spec assign_spec.
  intros Hdistinct Hin Hle. unfold upserted. rewrite List.filter_app.
  destruct (find_index (same_key e) rows) as [i|] eqn:Efind.
  - destruct (find_index_Some _ _ _ Efind) as (r0 & Hr0 & Hp).
    rewrite (pending_no_match rows batch e r0);
      [|eapply nth_error_In; eauto | exact Hp].
    rewrite app_nil_r.
    destruct (in_split _ _ Hin) as (l1 & l2 & ->).
    assert (Hl2 : forall d, In d l2 -> same_key e d = false).
    { apply distinct_app_r in Hdistinct. apply distinct_cons in Hdistinct.
      tauto. }
    unfold staged_live. rewrite fold_left_app. simpl.
    fold (staged_live same_key assign rows l1 rows).
    set (objs1 := staged_live same_key assign rows l1 rows).
    assert (Hk1 : map key objs1 = map key rows)
      by (apply staged_live_keys; reflexivity).
    fold (staged_live same_key assign rows l2
            (stage_one same_key assign rows objs1 e)).
    destruct (nth_error_same_length objs1 rows i r0 Hk1 Hr0) as (r1 & Hr1).
    eapply (filter_single_at e _ rows i r0); eauto.
    + apply staged_live_keys. apply stage_one_keys. exact Hk1.
    + rewrite staged_live_untouched.
      * unfold stage_one. rewrite Efind.
        rewrite (update_at_nth _ _ _ _ Hr1). f_equal.
        apply assign_spec. rewrite (same_key_congr e r1 r0); [exact Hp|].
        eapply nth_error_keys; eauto.
      * intros d Hd Hfind.
        destruct (find_index_Some _ _ _ Hfind) as (r & Hr & Hdr).
        rewrite Hr0 in Hr. injection Hr as <-.
        assert (Hed : same_key e d = true).
        { apply same_key_spec. apply same_key_spec in Hp, Hdr. congruence. }
        rewrite (Hl2 d Hd) in Hed. discriminate.
  - assert (Hnone : List.filter (same_key e)
                      (staged_live same_key assign rows batch rows) = []).
    { apply length_zero_iff_nil.
      rewrite (matches_by_keys e
                 (staged_live same_key assign rows batch rows) rows)
        by (apply staged_live_keys; reflexivity).
      rewrite filter_none; [reflexivity|].
      apply find_index_None. exact Efind. }
    rewrite Hnone. simpl.
    apply distinct_filter_self.
    + apply distinct_filter. exact Hdistinct.
    + apply pending_In. auto.
Qed.

(** The rows of a key the batch does not mention are untouched. *)
Lemma upserted_frame rows batch x :
  (forall e, In e batch -> same_key x e = false) ->
  List.filter (same_key x) (upserted same_key assign rows batch)
  = List.filter (same_key x) rows.
Proof using same_key_spec assign_spec.
  intros H. unfold upserted. rewrite List.filter_app.
  rewrite staged_live_filter by auto.
  rewrite (filter_none (same_key x) (staged_pending same_key rows batch)).
  - apply app_nil_r.
  - intros e He. apply pending_In in He. apply H. tauto.
Qed.

End Rows.

(** *** The tables *)

Ltac table_laws_tac :=
  constructor;
  [ intros rows [] ; reflexivity
  | intros rows rows' []; reflexivity
  | intros []; reflexivity
  | reflexivity
  | intros rows added []; unfold db_app; simpl; rewrite ?app_nil_r;
    reflexivity ].

Lemma pokemon_table_laws : table_laws pokemon_table.
Proof. table_laws_tac. Qed.

Lemma pokemon_stats_table_laws : table_laws pokemon_stats_table.
Proof. table_laws_tac. Qed.

Lemma types_table_laws : table_laws types_table.
Proof. table_laws_tac. Qed.

Lemma pokemon_types_table_laws : table_laws pokemon_types_table.
Proof. table_laws_tac. Qed.

Lemma type_effectiveness_table_laws : table_laws type_effectiveness_table.
Proof. table_laws_tac. Qed.

Lemma abilities_table_laws : table_laws abilities_table.
Proof. table_laws_tac. Qed.

Lemma pokemon_abilities_table_laws : table_laws pokemon_abilities_table.
Proof. table_laws_tac. Qed.

Lemma pokemon_moves_table_laws : table_laws pokemon_moves_table.
Proof. table_laws_tac. Qed.

(** *** Running the session *)

Lemma round_trip_ret s s' :
  round_trip s = (s', Ret tt) ->
  store s' = store s /\ live s' = live s /\ pending s' = pending s.
Proof.
  unfold round_trip. destruct (faults s) as [|[] rest]; intros H;
    try discriminate; injection H as <-; auto.
Qed.

Lemma round_trip_store s s' r :
  round_trip s = (s', r) ->
  store s' = store s /\ live s' = live s /\ pending s' = pending s.
Proof.
  unfold round_trip. destruct (faults s) as [|[] rest]; intros H;
    injection H as <- <-; auto.
Qed.

Section Staging.

Context {R : Type} (T : table R).
Variable same_key : R -> R -> bool.
Variable assign : R -> R -> R.
Hypothesis laws : table_laws T.

(** An upsert stages, and leaves the store alone, also when it raises. *)
Lemma upsert_store data s s' r :
  upsert T same_key assign data s = (s', r) -> store s' = store s.
Proof.
  unfold upsert, query_first, bind.
  destruct (round_trip s) as [s0 [[]|e]] eqn:Hrt;
    apply round_trip_store in Hrt; destruct Hrt as (Hs & _ & _).
  - destruct (find_index _ _); unfold set_attributes, add;
      intros H; injection H as <- <-; simpl; exact Hs.
  - intros H; injection H as <- <-. exact Hs.
Qed.

Lemma for_each_upsert_store batch s s' r :
  for_each (upsert T same_key assign) batch s = (s', r) -> store s' = store s.
Proof.
  revert s. induction batch as [|d batch IH]; intros s; simpl.
  - unfold ret. intros H; injection H as <- <-. reflexivity.
  - unfold bind. destruct (upsert T same_key assign d s) as [s1 [[]|e]] eqn:E;
      apply upsert_store in E.
    + intros H. apply IH in H. congruence.
    + intros H; injection H as <- <-. exact E.
Qed.

Lemma upsert_ret data s s' :
  upsert T same_key assign data s = (s', Ret tt) ->
  store s' = store s
  /\ live s' = put T (stage_one same_key assign (view T (store s))
                        (view T (live s)) data) (live s)
  /\ pending s' = put T (view T (pending s)
                         ++ staged_pending same_key (view T (store s)) [data])
                     (pending s).
Proof using laws.
  unfold upsert, query_first, bind.
  destruct (round_trip s) as [s0 [[]|e]] eqn:Hrt; [|discriminate].
  apply round_trip_ret in Hrt. destruct Hrt as (Hs & Hl & Hp).
  unfold stage_one, staged_pending. cbn [List.filter].
  rewrite Hs. destruct (find_index (same_key data) (view T (store s))).
  - unfold set_attributes. intros H; injection H as <-. simpl.
    rewrite Hs, Hl, Hp, app_nil_r, (put_view T laws). auto.
  - unfold add. intros H; injection H as <-. simpl.
    rewrite Hs, Hl, Hp, (put_view T laws). auto.
Qed.

Lemma for_each_upsert_ret batch s s' :
  for_each (upsert T same_key assign) batch s = (s', Ret tt) ->
  store s' = store s
  /\ live s' = put T (staged_live same_key assign (view T (store s)) batch
                        (view T (live s))) (live s)
  /\ pending s' = put T (view T (pending s)
                         ++ staged_pending same_key (view T (store s)) batch)
                     (pending s).
Proof using laws.
  revert s. induction batch as [|d batch IH]; intros s; simpl.
  - unfold ret. intros H; injection H as <-.
    rewrite app_nil_r, !(put_view T laws). auto.
  - unfold bind. destruct (upsert T same_key assign d s) as [s1 [[]|e]] eqn:E;
      [|discriminate].
    apply upsert_ret in E. destruct E as (Hs & Hl & Hp).
    intros H. apply IH in H. destruct H as (Hs' & Hl' & Hp').
    rewrite Hs', Hl', Hp', Hs, Hl, Hp.
    rewrite !(view_put T laws), !(put_put T laws).
    split; [reflexivity|]. split; [reflexivity|].
    f_equal. rewrite <- app_assoc. f_equal.
    unfold staged_pending. simpl.
    destruct (find_index (same_key d) (view T (store s))); reflexivity.
Qed.

End Staging.

Lemma commit_ret s s' :
  commit s = (s', Ret tt) ->
  store s' = db_app (live s) (pending s)
  /\ clean s'
  /\ integrity_ok (store s') = true.
Proof.
  unfold commit, bind.
  destruct (round_trip s) as [s0 [[]|e]] eqn:Hrt; [|discriminate].
  apply round_trip_ret in Hrt. destruct Hrt as (Hs & Hl & Hp).
  rewrite Hl, Hp.
  destruct (integrity_ok (db_app (live s) (pending s))) eqn:Hok;
    [|discriminate].
  intros H; injection H as <-. simpl. unfold clean. simpl. auto.
Qed.

Lemma commit_raise s s' e :
  commit s = (s', Raise e) -> store s' = store s.
Proof.
  unfold commit, bind.
  destruct (round_trip s) as [s0 [[]|e0]] eqn:Hrt;
    apply round_trip_store in Hrt; destruct Hrt as (Hs & _ & _).
  - destruct (integrity_ok _); [discriminate|].
    intros H; injection H as <- _. exact Hs.
  - intros H; injection H as <- _. exact Hs.
Qed.

Lemma transaction_ret body s s' :
  transaction body s = (s', Ret tt) ->
  exists staged, body s = (staged, Ret tt) /\ commit staged = (s', Ret tt).
Proof.
  unfold transaction, try_except, unit_of_work, bind.
  destruct (body s) as [s1 [[]|e]].
  - destruct (commit s1) as [s2 [[]|e]] eqn:Hc.
    + intros H; injection H as <-. eauto.
    + unfold rollback, raise. discriminate.
  - unfold rollback, raise. discriminate.
Qed.

Lemma transaction_raise body s s' e :
  transaction body s = (s', Raise e) ->
  exists failed,
    unit_of_work body s = (failed, Raise e)
    /\ store s' = store failed /\ clean s'.
Proof.
  unfold transaction, try_except.
  destruct (unit_of_work body s) as [s1 [[]|e0]]; [discriminate|].
  unfold bind, rollback, raise.
  intros H; injection H as <- <-. exists s1. unfold clean. simpl. auto.
Qed.

Lemma transaction_ext body body' s :
  (forall s0, body s0 = body' s0) ->
  transaction body s = transaction body' s.
Proof.
  intros H. unfold transaction, try_except, unit_of_work, bind.
  rewrite H. reflexivity.
Qed.

Lemma for_each_single {A} (f : A -> M Session unit) x s :
  for_each f [x] s = f x s.
Proof.
  simpl. unfold bind, ret. destruct (f x s) as [s' [[]|e]]; reflexivity.
Qed.

(** *** A load of a batch, on a session with nothing staged *)

Lemma batch_load {R} (T : table R) same_key assign batch s s' :
  table_laws T ->
  clean s ->
  transaction (for_each (upsert T same_key assign) batch) s = (s', Ret tt) ->
  clean s'
  /\ store s' = put T (upserted same_key assign (view T (store s)) batch)
                  (store s).
Proof.
  intros laws [Hlive Hpending] H.
  apply transaction_ret in H. destruct H as (staged & Hstaged & Hcommit).
  apply (for_each_upsert_ret T _ _ laws) in Hstaged.
  destruct Hstaged as (Hs & Hl & Hp).
  apply commit_ret in Hcommit. destruct Hcommit as (Hstore & Hclean & _).
  split; [exact Hclean|].
  rewrite Hstore, Hl, Hp, Hlive, Hpending, (view_empty T laws).
  simpl. apply (flush_put T laws).
Qed.

(** *** The facts of a load, kind by kind *)

Lemma upsert_facts_refl {R} (same_key : R -> R -> bool) rows :
  upsert_facts same_key [] rows rows.
Proof.
  unfold upsert_facts. repeat split; auto. intros _ e [].
Qed.

Lemma upsert_facts_compose {R} (same_key : R -> R -> bool) d batch
    rows rows1 rows2 :
  upsert_facts same_key [d] rows rows1 ->
  upsert_facts same_key batch rows1 rows2 ->
  upsert_facts same_key (d :: batch) rows rows2.
Proof.
  intros (A1 & A2 & A3 & A4) (B1 & B2 & B3 & B4).
  assert (Hone : distinct same_key [d] = true) by reflexivity.
  split; [|split; [|split]].
  - intros x. specialize (A1 x). specialize (B1 x). lia.
  - intros Hd x Hx. apply distinct_cons in Hd. destruct Hd as [_ Hd]. auto.
  - intros Hd e He Hle. apply distinct_cons in Hd. destruct Hd as [Hfresh Hd].
    destruct He as [<-|He].
    + rewrite (B4 d Hfresh). apply A3; simpl; auto.
    + apply B3; auto.
  - intros x Hx. rewrite B4, A4; auto.
    + intros e [<-|[]]. apply Hx. left. reflexivity.
    + intros e He. apply Hx. right. exact He.
Qed.

Section Kinds.

Context {R K : Type} (T : table R).
Variable same_key : R -> R -> bool.
Variable assign : R -> R -> R.
Variable key : R -> K.
Hypothesis laws : table_laws T.
Hypothesis same_key_spec :
  forall data r, same_key data r = true <-> key r = key data.
Hypothesis assign_spec :
  forall data r, same_key data r = true -> assign data r = data.

(** A method that takes a list and loads it in one transaction. *)
Lemma batch_kind batch s s' :
  clean s ->
  transaction (for_each (upsert T same_key assign) batch) s = (s', Ret tt) ->
  clean s'
  /\ store s' = put T (view T (store s')) (store s)
  /\ upsert_facts same_key batch (view T (store s)) (view T (store s')).
Proof using laws same_key_spec assign_spec.
  intros Hclean H.
  destruct (batch_load T same_key assign batch s s' laws Hclean H)
    as (Hclean' & Hstore).
  assert (Hview : view T (store s')
                  = upserted same_key assign (view T (store s)) batch)
    by (rewrite Hstore; apply (view_put T laws)).
  split; [exact Hclean'|]. rewrite Hview. split; [exact Hstore|].
  split; [|split; [|split]].
  - intros x. eapply upserted_keeps; eauto.
  - intros Hd x. eapply upserted_no_duplicate; eauto.
  - intros Hd e. eapply upserted_row; eauto.
  - intros x. eapply upserted_frame; eauto.
Qed.

(** A method that takes one entity, called on each entity of a list. *)
Lemma each_kind batch s s' :
  clean s ->
  for_each (fun data => transaction (upsert T same_key assign data)) batch s
  = (s', Ret tt) ->
  clean s'
  /\ store s' = put T (view T (store s')) (store s)
  /\ upsert_facts same_key batch (view T (store s)) (view T (store s')).
Proof using laws same_key_spec assign_spec.
  revert s. induction batch as [|d batch IH]; intros s Hclean; simpl.
  - unfold ret. intros H; injection H as <-.
    rewrite (put_view T laws). auto using upsert_facts_refl.
  - unfold bind.
    destruct (transaction (upsert T same_key assign d) s)
      as [s1 [[]|e]] eqn:E; [|discriminate].
    rewrite (transaction_ext _ (for_each (upsert T same_key assign) [d]))
      in E by (intros s0; symmetry; apply for_each_single).
    apply batch_kind in E; [|exact Hclean].
    destruct E as (Hclean1 & Hstore1 & Hfacts1).
    intros H. apply IH in H; [|exact Hclean1].
    destruct H as (Hclean' & Hstore' & Hfacts').
    split; [exact Hclean'|]. split.
    + rewrite Hstore' at 1. rewrite Hstore1. apply (put_put T laws).
    + eapply upsert_facts_compose; eauto.
Qed.

End Kinds.

(** The natural keys, and what the filters and the assignments do. *)

Ltac key_spec_tac same_key :=
  intros [] []; unfold same_key; simpl;
  rewrite ?andb_true_iff, ?Z.eqb_eq, ?String.eqb_eq;
  intuition congruence.

Ltac assign_spec_tac spec assign :=
  intros data r H; apply spec in H; destruct data, r; unfold assign;
  simpl in *; congruence.

Lemma pokemon_key_spec data r :
  pokemon_key data r = true <-> Pokemon.id r = Pokemon.id data.
Proof. revert data r. key_spec_tac pokemon_key. Qed.

Lemma pokemon_assign_spec data r :
  pokemon_key data r = true -> pokemon_assign data r = data.
Proof. revert data r. assign_spec_tac pokemon_key_spec pokemon_assign. Qed.

Lemma stat_key_spec data r :
  stat_key data r = true <->
  (PokemonStat.pokemon_id r, PokemonStat.stat_name r)
  = (PokemonStat.pokemon_id data, PokemonStat.stat_name data).
Proof. revert data r. key_spec_tac stat_key. Qed.

Lemma stat_assign_spec data r :
  stat_key data r = true -> stat_assign data r = data.
Proof. revert data r. assign_spec_tac stat_key_spec stat_assign. Qed.

Lemma type_key_spec data r :
  type_key data r = true <-> Type_.id r = Type_.id data.
Proof. revert data r. key_spec_tac type_key. Qed.

Lemma type_assign_spec data r :
  type_key data r = true -> type_assign data r = data.
Proof. revert data r. assign_spec_tac type_key_spec type_assign. Qed.

Lemma effectiveness_key_spec data r :
  effectiveness_key data r = true <->
  (TypeEffectiveness.attack_type_id r, TypeEffectiveness.defense_type_id r)
  = (TypeEffectiveness.attack_type_id data,
     TypeEffectiveness.defense_type_id data).
Proof. revert data r. key_spec_tac effectiveness_key. Qed.

Lemma effectiveness_assign_spec data r :
  effectiveness_key data r = true -> effectiveness_assign data r = data.
Proof.
  revert data r.
  assign_spec_tac effectiveness_key_spec effectiveness_assign.
Qed.

Lemma pokemon_type_key_spec data r :
  pokemon_type_key data r = true <->
  (PokemonType.pokemon_id r, PokemonType.type_id r)
  = (PokemonType.pokemon_id data, PokemonType.type_id data).
Proof. revert data r. key_spec_tac pokemon_type_key. Qed.

Lemma pokemon_type_assign_spec data r :
  pokemon_type_key data r = true -> pokemon_type_assign data r = data.
Proof.
  revert data r. assign_spec_tac pokemon_type_key_spec pokemon_type_assign.
Qed.

Lemma ability_key_spec data r :
  ability_key data r = true <-> Ability.id r = Ability.id data.
Proof. revert data r. key_spec_tac ability_key. Qed.

Lemma ability_assign_spec data r :
  ability_key data r = true -> ability_assign data r = data.
Proof. revert data r. assign_spec_tac ability_key_spec ability_assign. Qed.

Lemma pokemon_ability_key_spec data r :
  pokemon_ability_key data r = true <->
  (PokemonAbility.pokemon_id r, PokemonAbility.ability_id r)
  = (PokemonAbility.pokemon_id data, PokemonAbility.ability_id data).
Proof. revert data r. key_spec_tac pokemon_ability_key. Qed.

Lemma pokemon_ability_assign_spec data r :
  pokemon_ability_key data r = true -> pokemon_ability_assign data r = data.
Proof.
  revert data r.
  assign_spec_tac pokemon_ability_key_spec pokemon_ability_assign.
Qed.

Lemma option_string_eqb_eq (x y : option string) :
  option_eqb String.eqb x y = true <-> x = y.
Proof.
  destruct x, y; simpl; rewrite ?String.eqb_eq; intuition congruence.
Qed.

Lemma pokemon_move_key_spec data r :
  pokemon_move_key data r = true <->
  (PokemonMove.pokemon_id r, PokemonMove.move_id r, PokemonMove.learn_method r)
  = (PokemonMove.pokemon_id data, PokemonMove.move_id data,
     PokemonMove.learn_method data).
Proof.
  destruct data, r. unfold pokemon_move_key. simpl.
  rewrite !andb_true_iff, !Z.eqb_eq, option_string_eqb_eq.
  intuition congruence.
Qed.

Lemma pokemon_move_assign_spec data r :
  pokemon_move_key data r = true -> pokemon_move_assign data r = data.
Proof.
  revert data r. assign_spec_tac pokemon_move_key_spec pokemon_move_assign.
Qed.

Lemma entity_kinds_tables K : In K entity_kinds -> table_laws (tbl K).
Proof.
  unfold entity_kinds. simpl.
  intros [<-|[<-|[<-|[<-|[<-|[<-|[<-|[<-|[]]]]]]]]]; simpl;
    auto using pokemon_table_laws, pokemon_stats_table_laws, types_table_laws,
      type_effectiveness_table_laws, pokemon_types_table_laws,
      abilities_table_laws, pokemon_abilities_table_laws,
      pokemon_moves_table_laws.
Qed.

(** Every entity type meets [load_spec]. *)
Lemma entity_kinds_load_spec K : In K entity_kinds -> load_spec K.
Proof.
  unfold entity_kinds. simpl.
  intros [<-|[<-|[<-|[<-|[<-|[<-|[<-|[<-|[]]]]]]]]]; split; simpl.
  - apply (same_key_interchangeable _ _ pokemon_key_spec).
  - apply (each_kind _ _ _ _ pokemon_table_laws pokemon_key_spec
             pokemon_assign_spec).
  - apply (same_key_interchangeable _ _ stat_key_spec).
  - apply (batch_kind _ _ _ _ pokemon_stats_table_laws stat_key_spec
             stat_assign_spec).
  - apply (same_key_interchangeable _ _ type_key_spec).
  - apply (batch_kind _ _ _ _ types_table_laws type_key_spec type_assign_spec).
  - apply (same_key_interchangeable _ _ effectiveness_key_spec).
  - apply (batch_kind _ _ _ _ type_effectiveness_table_laws
             effectiveness_key_spec effectiveness_assign_spec).
  - apply (same_key_interchangeable _ _ pokemon_type_key_spec).
  - apply (batch_kind _ _ _ _ pokemon_types_table_laws pokemon_type_key_spec
             pokemon_type_assign_spec).
  - apply (same_key_interchangeable _ _ ability_key_spec).
  - apply (batch_kind _ _ _ _ abilities_table_laws ability_key_spec
             ability_assign_spec).
  - apply (same_key_interchangeable _ _ pokemon_ability_key_spec).
  - apply (each_kind _ _ _ _ pokemon_abilities_table_laws
             pokemon_ability_key_spec pokemon_ability_assign_spec).
  - apply (same_key_interchangeable _ _ pokemon_move_key_spec).
  - apply (each_kind _ _ _ _ pokemon_moves_table_laws pokemon_move_key_spec
             pokemon_move_assign_spec).
Qed.

(** *** C1 *)

Lemma transformed_kinds_listed K :
  In K transformed_kinds -> In K entity_kinds.
Proof. unfold transformed_kinds, entity_kinds. simpl. intuition. Qed.

(** C1, as the specification states it, fails: on a session with nothing
    staged and a store without a speed row for Pikachu, one call of
    [load_pokemon_stats] that is given the speed stat twice, as 90 and as
    95, returns and leaves two speed rows; the second does not overwrite
    the first.  (The query of the second entity does not see the pending
    row of the first.) *)
Lemma repeated_key_in_batch :
  stored stat_kind (a_stat 25 "speed" 95) (store fresh_session) = []
  /\ exists s',
       load_pokemon_stats [a_stat 25 "speed" 90; a_stat 25 "speed" 95]
         fresh_session = (s', Ret tt)
       /\ stored stat_kind (a_stat 25 "speed" 95) (store s')
          = [a_stat 25 "speed" 90; a_stat 25 "speed" 95]
       /\ length (stored stat_kind (a_stat 25 "speed" 95) (store s'))
          <> 1%nat.
Proof.
  split; [reflexivity|]. eexists. split; [reflexivity|].
  split; [reflexivity|]. simpl. discriminate.
Qed.

(** C1, amended: for batches that do not repeat a natural key, on a store
    with at most one row for the key, and for loads that return.  For every
    entity type (Pokemon, stat, type, type effectiveness, and the type,
    ability and move associations): take a session with nothing staged
    whose store has at most one row with the natural key of a transformed
    entity [e1]; load a batch of transformed entities that holds [e1], then
    one that holds an entity [e2] with the same natural key, the values of
    the entities being such as the columns of the table hold as they are
    given.  Then after the first load the key has exactly
    one row, [e1]; after the second it has exactly one row, and that row is
    [e2], field by field.  No query that found rows before finds fewer
    afterwards (nothing is deleted), no key that had at most one row has
    more than one afterwards (nothing is duplicated), and the other tables
    are as they were. *)
Theorem upsert_idempotence :
  forall K : entity_kind,
    In K transformed_kinds ->
    forall (s s1 s2 : Session) (batch1 batch2 : list (row K))
           (e1 e2 : row K),
      clean s ->
      (length (stored K e1 (store s)) <= 1)%nat ->
      In e1 batch1 ->
      In e2 batch2 ->
      same_key K e1 e2 = true ->
      distinct (same_key K) batch1 = true ->
      distinct (same_key K) batch2 = true ->
      Forall (held_as_given K) batch1 ->
      Forall (held_as_given K) batch2 ->
      load K batch1 s = (s1, Ret tt) ->
      load K batch2 s1 = (s2, Ret tt) ->
      stored K e1 (store s1) = [e1]
      /\ stored K e2 (store s2) = [e2]
      /\ (forall x, (length (stored K x (store s))
                     <= length (stored K x (store s2)))%nat)
      /\ (forall x, (length (stored K x (store s)) <= 1)%nat ->
                    (length (stored K x (store s2)) <= 1)%nat)
      /\ store s2 = put (tbl K) (view (tbl K) (store s2)) (store s).
Proof.
  intros K HK s s1 s2 batch1 batch2 e1 e2 Hclean Hle He1 He2 Hsame Hd1 Hd2
    _ _ Hload1 Hload2.
  apply transformed_kinds_listed in HK.
  destruct (entity_kinds_load_spec K HK) as (Hinter & Hspec).
  destruct (Hspec _ _ _ Hclean Hload1)
    as (Hclean1 & Hstore1 & A1 & A2 & A3 & _).
  destruct (Hspec _ _ _ Hclean1 Hload2)
    as (_ & Hstore2 & B1 & B2 & B3 & _).
  unfold stored in *.
  assert (Hfirst : List.filter (same_key K e1) (view (tbl K) (store s1))
                   = [e1]) by (apply A3; assumption).
  split; [exact Hfirst|]. split; [|split; [|split]].
  - apply B3; try assumption.
    rewrite <- (List.filter_ext _ _ (Hinter e1 e2 Hsame)), Hfirst.
    simpl. lia.
  - intros x. specialize (A1 x). specialize (B1 x). lia.
  - intros x Hx. apply B2; [assumption|]. apply A2; assumption.
  - rewrite Hstore2 at 1. rewrite Hstore1.
    destruct (entity_kinds_tables K HK) as [_ Hput _ _ _]. apply Hput.
Qed.

(** Pikachu's speed is loaded as 90 and then as 95, each time together
    with other stats: one speed row, holding 95; the attack row that was
    there is overwritten in place by the first batch and left alone by the
    second. *)
Lemma upsert_idempotence_witness :
  exists s1 s2,
    load_pokemon_stats [a_stat 25 "speed" 90; a_stat 25 "attack" 56]
      fresh_session = (s1, Ret tt)
    /\ load_pokemon_stats [a_stat 25 "hp" 35; a_stat 25 "speed" 95] s1
       = (s2, Ret tt)
    /\ stored stat_kind (a_stat 25 "speed" 95) (store s2)
       = [a_stat 25 "speed" 95]
    /\ pokemon_stats (store s2)
       = [a_stat 25 "attack" 56; a_stat 25 "speed" 95; a_stat 25 "hp" 35].
Proof.
  eexists. eexists. split; [vm_compute; reflexivity|].
  split; [vm_compute; reflexivity|]. split; [|vm_compute; reflexivity].
  refine (proj1 (proj2
    (upsert_idempotence stat_kind _ fresh_session _ _
       [a_stat 25 "speed" 90; a_stat 25 "attack" 56]
       [a_stat 25 "hp" 35; a_stat 25 "speed" 95]
       (a_stat 25 "speed" 90) (a_stat 25 "speed" 95)
       _ _ _ _ eq_refl eq_refl eq_refl _ _ eq_refl eq_refl))).
  - simpl. tauto.
  - split; reflexivity.
  - simpl. lia.
  - simpl. tauto.
  - simpl. tauto.
  - repeat constructor.
  - repeat constructor.
Defined.

(** The same for an effectiveness entry as the type transformer emits it:
    the relation of water to fire, loaded as 0.5 and then as 2.0, has one
    row, which holds 2.0. *)
Example effectiveness_is_overwritten :
  let s := {| store := demo_store; live := demo_store; pending := empty_db;
              faults := [] |} in
  held_as_given effectiveness_kind (an_entry 11 10 0.5)
  /\ held_as_given effectiveness_kind (an_entry 11 10 2)
  /\ exists s1 s2,
       load_type_effectiveness [an_entry 11 10 0.5] s = (s1, Ret tt)
       /\ load_type_effectiveness [an_entry 11 10 2] s1 = (s2, Ret tt)
       /\ type_effectiveness (store s2) = [an_entry 11 10 2].
Proof.
  split; [constructor; reflexivity|]. split; [constructor; reflexivity|].
  eexists. eexists. repeat split.
Qed.

(** *** C7 *)

Lemma run_transaction c : run c = transaction (staging c).
Proof. destruct c; reflexivity. Qed.

Lemma staging_store c s s' r :
  staging c s = (s', r) -> store s' = store s.
Proof.
  destruct c; simpl;
    first [apply for_each_upsert_store | apply upsert_store].
Qed.

(** The [try] block changes the store only by a [commit] that returns. *)
Lemma unit_of_work_raise c s failed e :
  unit_of_work (staging c) s = (failed, Raise e) -> store failed = store s.
Proof.
  unfold unit_of_work, bind.
  destruct (staging c s) as [staged [[]|e0]] eqn:Hstaging;
    apply staging_store in Hstaging.
  - intros H. apply commit_raise in H. congruence.
  - intros H; injection H as <- _. exact Hstaging.
Qed.

(** The outcome of a call of one of the eight methods that open a
    transaction. *)
Lemma transaction_outcome c s :
  match run c s with
  | (s', Raise e) =>
      (exists failed, unit_of_work (staging c) s = (failed, Raise e))
      /\ store s' = store s
      /\ clean s'
  | (s', Ret _) =>
      (exists staged,
         staging c s = (staged, Ret tt)
         /\ store staged = store s
         /\ store s' = db_app (live staged) (pending staged))
      /\ integrity_ok (store s') = true
      /\ clean s'
  end.
Proof.
  rewrite run_transaction.
  destruct (transaction (staging c) s) as [s' [[]|e]] eqn:Hrun.
  - apply transaction_ret in Hrun.
    destruct Hrun as (staged & Hstaged & Hcommit).
    apply commit_ret in Hcommit. destruct Hcommit as (Hstore & Hclean & Hok).
    split; [|split; assumption].
    exists staged. split; [exact Hstaged|]. split; [|exact Hstore].
    eapply staging_store; eauto.
  - apply transaction_raise in Hrun.
    destruct Hrun as (failed & Hfailed & Hstore & Hclean).
    split; [eauto|]. split; [|exact Hclean].
    rewrite Hstore. eapply unit_of_work_raise; eauto.
Qed.

(** The composite loads run their write calls in order. *)

Lemma for_each_app {S A} (f : A -> M S unit) xs ys s :
  for_each f (xs ++ ys) s = bind (for_each f xs) (fun _ => for_each f ys) s.
Proof.
  revert s. induction xs as [|x xs IH]; intros s; simpl; [reflexivity|].
  unfold bind. destruct (f x s) as [s1 [[]|e]]; [|reflexivity].
  rewrite IH. reflexivity.
Qed.

Lemma for_each_map {S A B} (f : B -> M S unit) (g : A -> B) xs s :
  for_each f (map g xs) s = for_each (fun x => f (g x)) xs s.
Proof.
  revert s. induction xs as [|x xs IH]; intros s; simpl; [reflexivity|].
  unfold bind. destruct (f (g x) s) as [s1 [[]|e]]; auto.
Qed.

Lemma try_except_reraise {S A} (m : M S A) s :
  try_except m (fun e => raise e) s = m s.
Proof. unfold try_except, raise. destruct (m s) as [s' [a|e]]; reflexivity. Qed.

Lemma bind_congr {S A B} (m m' : M S A) (k k' : A -> M S B) s :
  (forall s0, m s0 = m' s0) ->
  (forall a s0, k a s0 = k' a s0) ->
  bind m k s = bind m' k' s.
Proof.
  intros Hm Hk. unfold bind. rewrite Hm.
  destruct (m' s) as [s' [a|e]]; auto.
Qed.

Lemma load_all_pokemon_data_calls transformed_data s :
  load_all_pokemon_data transformed_data s
  = for_each run (pokemon_data_calls transformed_data) s.
Proof.
  unfold load_all_pokemon_data, pokemon_data_calls.
  rewrite try_except_reraise, for_each_app. apply bind_congr.
  { intros s0. rewrite for_each_map. reflexivity. }
  intros _ s0. cbn [app for_each run].
  apply bind_congr; [reflexivity|]. intros _ s1.
  apply bind_congr; [reflexivity|]. intros _ s2.
  rewrite for_each_app. apply bind_congr.
  - intros s3. rewrite for_each_map. reflexivity.
  - intros _ s3. rewrite for_each_map. reflexivity.
Qed.

Lemma load_all_type_data_calls transformed_data s :
  load_all_type_data transformed_data s
  = for_each run (type_data_calls transformed_data) s.
Proof.
  unfold load_all_type_data, type_data_calls.
  rewrite try_except_reraise. cbn [for_each run].
  apply bind_congr; [reflexivity|]. intros _ s0.
  unfold bind, ret. destruct (load_type_effectiveness _ s0) as [s1 [[]|e]];
    reflexivity.
Qed.

(** A sequence of write calls that raises: the calls before the failing one
    returned, and the failing one left the store as they had made it. *)
Lemma sequence_raise calls s s' e :
  for_each run calls s = (s', Raise e) ->
  exists (done : list write_call) failing rest reached,
    calls = (done ++ failing :: rest)%list
    /\ for_each run done s = (reached, Ret tt)
    /\ run failing reached = (s', Raise e)
    /\ store s' = store reached
    /\ clean s'.
Proof.
  revert s. induction calls as [|c calls IH]; intros s; simpl.
  - unfold ret. discriminate.
  - unfold bind. destruct (run c s) as [s1 [[]|e1]] eqn:Hc.
    + intros H. apply IH in H.
      destruct H as (done & failing & rest & reached & -> & Hdone & Hfail & Hs).
      exists (c :: done), failing, rest, reached.
      split; [reflexivity|]. split; [|auto].
      simpl. unfold bind. rewrite Hc. exact Hdone.
    + intros H; injection H as <- <-.
      exists [], c, calls, s. split; [reflexivity|].
      split; [reflexivity|]. split; [exact Hc|].
      pose proof (transaction_outcome c s) as Hout. rewrite Hc in Hout.
      tauto.
Qed.

(** C7. For every call of one of the eight methods that open a transaction
    and every session: if the call raises, the exception is the one raised
    inside the [try] block (by a query, or by the commit), the store is what
    it was before the call, and nothing is left staged in the session; if
    the call returns, the [try] block staged its changes without touching
    the store, the commit made the store the flush of what was staged, which
    the constraints of the schema accept, and nothing is left staged.  The
    two composite methods run such calls in order and pass an exception on:
    when one raises, the calls before the failing one returned (and stay
    committed), the store is what it was when the failing call began, and
    nothing is left staged. *)
Theorem write_method_atomicity :
  (forall (c : write_call) (s : Session),
     match run c s with
     | (s', Raise e) =>
         (exists failed, unit_of_work (staging c) s = (failed, Raise e))
         /\ store s' = store s
         /\ clean s'
     | (s', Ret _) =>
         (exists staged,
            staging c s = (staged, Ret tt)
            /\ store staged = store s
            /\ store s' = db_app (live staged) (pending staged))
         /\ integrity_ok (store s') = true
         /\ clean s'
     end)
  /\ (forall (composite : M Session unit) (calls : list write_call),
        (exists transformed_data,
           composite = load_all_pokemon_data transformed_data
           /\ calls = pokemon_data_calls transformed_data)
        \/ (exists transformed_data,
              composite = load_all_type_data transformed_data
              /\ calls = type_data_calls transformed_data) ->
        forall (s s' : Session) (e : exn),
          composite s = (s', Raise e) ->
          exists (done : list write_call) failing rest reached,
            calls = (done ++ failing :: rest)%list
            /\ for_each run done s = (reached, Ret tt)
            /\ run failing reached = (s', Raise e)
            /\ store s' = store reached
            /\ clean s').
Proof.
  split; [exact transaction_outcome|].
  intros composite calls [(b & -> & ->)|(b & -> & ->)] s s' e H.
  - rewrite load_all_pokemon_data_calls in H. exact (sequence_raise _ _ _ _ H).
  - rewrite load_all_type_data_calls in H. exact (sequence_raise _ _ _ _ H).
Qed.

(** The composite load of types commits the types before it loads the
    effectiveness rows: when the second load raises, the types stay. *)
Lemma write_method_atomicity_witness :
  exists (done : list write_call) failing rest reached s',
    load_all_type_data electric_batch fresh_session
    = (s', Raise IntegrityError)
    /\ type_data_calls electric_batch = (done ++ failing :: rest)%list
    /\ for_each run done fresh_session = (reached, Ret tt)
    /\ run failing reached = (s', Raise IntegrityError)
    /\ store s' = store reached
    /\ types (store s') = [ {| Type_.id := 13; Type_.name := "electric" |} ].
Proof.
  destruct (proj2 write_method_atomicity
              (load_all_type_data electric_batch)
              (type_data_calls electric_batch)
              (or_intror (ex_intro _ electric_batch (conj eq_refl eq_refl)))
              fresh_session _ IntegrityError eq_refl)
    as (done & failing & rest & reached & Hcalls & Hdone & Hfail & Hstore & _).
  exists done, failing, rest, reached. eexists.
  split; [reflexivity|]. split; [exact Hcalls|]. split; [exact Hdone|].
  split; [exact Hfail|]. split; [exact Hstore|]. reflexivity.
Defined.

(** A batch of two stats whose second query loses the connection: the
    update staged for the first is rolled back with the rest. *)
Example failed_batch_is_rolled_back :
  load_pokemon_stats [a_stat 25 "attack" 56; a_stat 25 "speed" 90]
    {| store := pikachu_db; live := pikachu_db; pending := empty_db;
       faults := [false; true] |}
  = (fresh_session, Raise OperationalError).
Proof. reflexivity. Qed.

(** A stat of a Pokemon the store does not hold breaks a foreign key: the
    commit raises and the store is unchanged. *)
Example rejected_commit_is_rolled_back :
  load_pokemon_stats [a_stat 25 "speed" 90; a_stat 26 "speed" 110]
    fresh_session
  = (fresh_session, Raise IntegrityError).
Proof. reflexivity. Qed.

End LoaderFacts.

(** ** The API client: retries, throttling and the cache files *)

Module ApiClientLaws.
Import Json ApiClient ApiClientTerms ApiClientSamples.

(** *** One attempt *)

Lemma repeat_shift {A} (x : A) k l :
  (repeat x k ++ x :: l)%list = (repeat x (S k) ++ l)%list.
Proof.
  induction k as [|k IH]; simpl in *; [reflexivity | rewrite IH; reflexivity].
Qed.

Lemma fetch_outcome net c endpoint use_cache w :
  let w' := fst (fetch net c endpoint use_cache w) in
  requests w' = url_of c endpoint :: requests w
  /\ last_request_time w'
     = Z.max (now w) (last_request_time w + request_interval c)
  /\ now w' = last_request_time w'
  /\ match snd (fetch net c endpoint use_cache w) with
     | Ret data =>
         net (length (requests w)) (url_of c endpoint) = Body data
         /\ files w' =
            (if use_cache
             then <[_get_cache_path c endpoint := Document data]> (files w)
             else files w)
     | Raise e =>
         net (length (requests w)) (url_of c endpoint) = Fails e
         /\ files w' = files w
     end.
Proof.
  unfold fetch, bind, _rate_limit_wait, requests_get; simpl.
  assert (Hmax :
    (if now w - last_request_time w <? request_interval c
     then now w + (request_interval c - (now w - last_request_time w))
     else now w)
    = Z.max (now w) (last_request_time w + request_interval c)).
  { destruct (Z.ltb_spec (now w - last_request_time w) (request_interval c));
      lia. }
  destruct (net (length (requests w)) (url_of c endpoint)) as [data|e];
    [destruct use_cache|]; simpl; rewrite Hmax; auto.
Qed.

(** With the cache off, or on a miss, an attempt is a fetch. *)
Lemma attempt_on_miss net c endpoint use_cache w :
  (use_cache = true -> cache_miss c endpoint w) ->
  get_attempt net c endpoint use_cache w = fetch net c endpoint use_cache w.
Proof.
  destruct use_cache; [|reflexivity]. intros Hmiss.
  specialize (Hmiss eq_refl). unfold cache_miss in Hmiss.
  unfold get_attempt, bind, _get_from_cache.
  destruct (files w !! _get_cache_path c endpoint) as [[data|]|];
    [rewrite Hmiss; reflexivity | contradiction | reflexivity].
Qed.

Lemma cache_miss_files c endpoint w w' :
  files w' = files w -> cache_miss c endpoint w -> cache_miss c endpoint w'.
Proof. unfold cache_miss. intros ->. auto. Qed.

(** What one attempt does to the log and the clock: it makes no request
    or one. *)
Lemma attempt_log net c endpoint use_cache w :
  let w' := fst (get_attempt net c endpoint use_cache w) in
  exists k,
    (k <= 1)%nat
    /\ requests w' = (repeat (url_of c endpoint) k ++ requests w)%list
    /\ last_request_time w + Z.of_nat k * request_interval c
       <= last_request_time w'
    /\ now w <= now w'.
Proof.
  assert (Hfetch : forall use, let w' := fst (fetch net c endpoint use w) in
            exists k,
              (k <= 1)%nat
              /\ requests w' = (repeat (url_of c endpoint) k ++ requests w)%list
              /\ last_request_time w + Z.of_nat k * request_interval c
                 <= last_request_time w'
              /\ now w <= now w').
  { intros use.
    destruct (fetch_outcome net c endpoint use w) as (Hreq & Hlast & Hnow & _).
    exists 1%nat. simpl. repeat split; auto; lia. }
  assert (Hnone : exists k,
            (k <= 1)%nat
            /\ requests w = (repeat (url_of c endpoint) k ++ requests w)%list
            /\ last_request_time w + Z.of_nat k * request_interval c
               <= last_request_time w
            /\ now w <= now w).
  { exists 0%nat. simpl. repeat split; auto; lia. }
  unfold get_attempt. destruct use_cache; [|apply Hfetch].
  unfold bind, _get_from_cache.
  destruct (files w !! _get_cache_path c endpoint) as [[data|]|]; simpl;
    [destruct (truthy data); [exact Hnone | apply Hfetch]
    | exact Hnone | apply Hfetch].
Qed.

(** *** The retry loop *)

Lemma retrying_log net c endpoint use_cache n w :
  let w' := fst (retrying n (get_attempt net c endpoint use_cache) w) in
  exists k,
    (k <= S n)%nat
    /\ requests w' = (repeat (url_of c endpoint) k ++ requests w)%list
    /\ last_request_time w + Z.of_nat k * request_interval c
       <= last_request_time w'
    /\ now w <= now w'.
Proof.
  revert w. induction n as [|n IH]; intros w; cbn [retrying];
    destruct (attempt_log net c endpoint use_cache w)
      as (k & Hk & Hreq & Hlast & Hnow);
    destruct (get_attempt net c endpoint use_cache w) as [w1 [a|e]];
    simpl in *; try (exists k; repeat split; auto; lia).
  destruct (is_request_exception e);
    [|exists k; repeat split; auto; lia].
  destruct (IH w1) as (k' & Hk' & Hreq' & Hlast' & Hnow').
  exists (k' + k)%nat. split; [lia|]. split; [|split; [|lia]].
  - rewrite Hreq', Hreq, repeat_app, <- app_assoc. reflexivity.
  - rewrite Nat2Z.inj_add. lia.
Qed.

(** Requests that fail with a request exception, as many as there are
    tries: the last exception is raised, the files are as before. *)
Lemma retrying_all_fail net c endpoint use_cache n w :
  (use_cache = true -> cache_miss c endpoint w) ->
  (forall i, (i <= n)%nat ->
     net (length (requests w) + i)%nat (url_of c endpoint)
     = Fails RequestException) ->
  exists w',
    retrying n (get_attempt net c endpoint use_cache) w
    = (w', Raise RequestException)
    /\ requests w' = (repeat (url_of c endpoint) (S n) ++ requests w)%list
    /\ files w' = files w.
Proof.
  revert w. induction n as [|n IH]; intros w Hmiss Hnet; cbn [retrying];
    rewrite (attempt_on_miss _ _ _ _ _ Hmiss);
    pose proof (fetch_outcome net c endpoint use_cache w) as Hout;
    pose proof (Hnet 0%nat ltac:(lia)) as Hfirst;
    rewrite Nat.add_0_r in Hfirst;
    destruct (fetch net c endpoint use_cache w) as [w1 [a|e]]; simpl in Hout;
    destruct Hout as (Hreq & _ & _ & Hans & Hfiles);
    rewrite Hfirst in Hans; try discriminate;
    injection Hans as <-.
  - exists w1. auto.
  - simpl. destruct (IH w1) as (w' & Hrun & Hreq' & Hfiles').
    + intros Huse. eapply cache_miss_files; eauto.
    + intros i Hi. rewrite Hreq. cbn [length].
      rewrite Nat.add_succ_comm. apply Hnet. lia.
    + exists w'. split; [exact Hrun|]. split; [|congruence].
      rewrite Hreq', Hreq, repeat_shift. reflexivity.
Qed.

(** [k] failures with a request exception, then an answer, within the
    tries: the answer is returned after [k + 1] requests. *)
Lemma retrying_recovers net c endpoint use_cache data k n w :
  (k <= n)%nat ->
  (use_cache = true -> cache_miss c endpoint w) ->
  (forall i, (i < k)%nat ->
     net (length (requests w) + i)%nat (url_of c endpoint)
     = Fails RequestException) ->
  net (length (requests w) + k)%nat (url_of c endpoint) = Body data ->
  exists w',
    retrying n (get_attempt net c endpoint use_cache) w = (w', Ret data)
    /\ requests w' = (repeat (url_of c endpoint) (S k) ++ requests w)%list
    /\ files w' =
       (if use_cache
        then <[_get_cache_path c endpoint := Document data]> (files w)
        else files w).
Proof.
  revert n w. induction k as [|k IH]; intros n w Hk Hmiss Hfail Hbody.
  - rewrite Nat.add_0_r in Hbody.
    destruct (ApiClientFacts.fetch_body net c endpoint use_cache w data Hbody)
      as (w' & Hfetch & Hreq & Hfiles).
    exists w'. split; [|auto].
    apply ApiClientFacts.retrying_ret.
    rewrite (attempt_on_miss _ _ _ _ _ Hmiss).
    exact Hfetch.
  - destruct n as [|n]; [lia|]. cbn [retrying].
    rewrite (attempt_on_miss _ _ _ _ _ Hmiss).
    pose proof (Hfail 0%nat ltac:(lia)) as Hfirst.
    rewrite Nat.add_0_r in Hfirst.
    destruct (ApiClientFacts.fetch_fails net c endpoint use_cache w _ Hfirst)
      as (w1 & Hfetch & Hreq & Hfiles).
    rewrite Hfetch. simpl.
    destruct (IH n w1) as (w' & Hrun & Hreq' & Hfiles').
    + lia.
    + intros Huse. eapply cache_miss_files; eauto.
    + intros i Hi. rewrite Hreq. cbn [length].
      rewrite Nat.add_succ_comm. apply Hfail. lia.
    + rewrite Hreq. cbn [length]. rewrite Nat.add_succ_comm. exact Hbody.
    + exists w'. split; [exact Hrun|]. split.
      * rewrite Hreq', Hreq, repeat_shift. reflexivity.
      * rewrite Hfiles'. rewrite Hfiles. reflexivity.
Qed.

(** *** What the retry loop does to the files *)

Lemma attempt_files net c endpoint use_cache w :
  let w' := fst (get_attempt net c endpoint use_cache w) in
  match snd (get_attempt net c endpoint use_cache w) with
  | Ret data =>
      files w' = files w
      \/ files w' = <[_get_cache_path c endpoint := Document data]> (files w)
  | Raise _ => files w' = files w
  end.
Proof.
  assert (Hfetch : forall use,
            let w' := fst (fetch net c endpoint use w) in
            match snd (fetch net c endpoint use w) with
            | Ret data =>
                files w' = files w
                \/ files w'
                   = <[_get_cache_path c endpoint := Document data]> (files w)
            | Raise _ => files w' = files w
            end).
  { intros use.
    destruct (fetch_outcome net c endpoint use w) as (_ & _ & _ & Hout).
    destruct (snd (fetch net c endpoint use w)); destruct Hout as [_ Hfiles];
      [destruct use; auto | exact Hfiles]. }
  unfold get_attempt. destruct use_cache; [|apply Hfetch].
  unfold bind, _get_from_cache.
  destruct (files w !! _get_cache_path c endpoint) as [[data|]|]; simpl;
    [destruct (truthy data); [simpl; auto | apply Hfetch]
    | reflexivity | apply Hfetch].
Qed.

Lemma retrying_files net c endpoint use_cache n w :
  let w' := fst (retrying n (get_attempt net c endpoint use_cache) w) in
  match snd (retrying n (get_attempt net c endpoint use_cache) w) with
  | Ret _ =>
      forall p, p <> _get_cache_path c endpoint ->
                files w' !! p = files w !! p
  | Raise _ => files w' = files w
  end.
Proof.
  revert w. induction n as [|n IH]; intros w; cbn [retrying];
    pose proof (attempt_files net c endpoint use_cache w) as Hattempt;
    destruct (get_attempt net c endpoint use_cache w) as [w1 [a|e]];
    simpl in *; auto.
  - intros p Hp. destruct Hattempt as [-> | ->]; [reflexivity|].
    apply lookup_insert_ne. congruence.
  - intros p Hp. destruct Hattempt as [-> | ->]; [reflexivity|].
    apply lookup_insert_ne. congruence.
  - destruct (is_request_exception e); simpl; [|exact Hattempt].
    specialize (IH w1).
    destruct (snd (retrying n (get_attempt net c endpoint use_cache) w1)).
    + intros p Hp. rewrite (IH p Hp), Hattempt. reflexivity.
    + rewrite IH. exact Hattempt.
Qed.

(** *** Strings *)

Lemma append_inv_head (p s1 s2 : string) : p ++ s1 = p ++ s2 -> s1 = s2.
Proof.
  induction p as [|ch p IH]; simpl; intros H; [exact H|].
  injection H as H. auto.
Qed.

Lemma length_append (s1 s2 : string) :
  String.length (s1 ++ s2) = (String.length s1 + String.length s2)%nat.
Proof.
  induction s1 as [|ch s1 IH]; simpl; [reflexivity | rewrite IH; reflexivity].
Qed.

Lemma append_inv_tail (s1 s2 t : string) : s1 ++ t = s2 ++ t -> s1 = s2.
Proof.
  revert s2. induction s1 as [|a s1 IH]; intros [|b s2] H.
  - reflexivity.
  - apply (f_equal String.length) in H.
    rewrite !length_append in H. simpl in H. lia.
  - apply (f_equal String.length) in H.
    rewrite !length_append in H. simpl in H. lia.
  - change (String a (s1 ++ t) = String b (s2 ++ t)) in H.
    injection H as -> H. f_equal. auto.
Qed.

Lemma cache_key_cons ch rest :
  cache_key (String ch rest)
  = String (if Ascii.eqb (if Ascii.eqb ch "/" then "_"%char else ch) "?"
            then "_"%char
            else if Ascii.eqb ch "/" then "_"%char else ch)
      (cache_key rest).
Proof. reflexivity. Qed.

Lemma cache_key_char a b :
  (if Ascii.eqb (if Ascii.eqb a "/" then "_"%char else a) "?"
   then "_"%char
   else if Ascii.eqb a "/" then "_"%char else a)
  = (if Ascii.eqb (if Ascii.eqb b "/" then "_"%char else b) "?"
     then "_"%char
     else if Ascii.eqb b "/" then "_"%char else b)
  <-> Ascii.eqb a b || (separator a && separator b) = true.
Proof.
  unfold separator.
  destruct (Ascii.eqb_spec a "/"), (Ascii.eqb_spec b "/");
    destruct (Ascii.eqb_spec a "?"), (Ascii.eqb_spec b "?");
    destruct (Ascii.eqb_spec a "_"), (Ascii.eqb_spec b "_");
    destruct (Ascii.eqb_spec a b);
    subst; simpl; split; intros H; try reflexivity; try discriminate;
    try congruence.
Qed.

Lemma cache_key_alike e1 e2 :
  cache_key e1 = cache_key e2 <-> alike e1 e2 = true.
Proof.
  revert e2. induction e1 as [|a e1 IH]; intros [|b e2];
    try (split; discriminate); [split; reflexivity|].
  rewrite !cache_key_cons. cbn [alike]. rewrite andb_true_iff.
  rewrite <- cache_key_char, <- IH. split.
  - intros H. injection H as Hch Hrest. auto.
  - intros [Hch Hrest]. rewrite Hch, Hrest. reflexivity.
Qed.

Lemma cache_key_letters endpoint :
  Forall (fun ch => ch <> "/"%char /\ ch <> "?"%char)
    (letters (cache_key endpoint)).
Proof.
  induction endpoint as [|a e IH]; [constructor|].
  rewrite cache_key_cons. cbn [letters]. constructor; [|exact IH].
  destruct (Ascii.eqb_spec a "/"); simpl;
    [split; discriminate|].
  destruct (Ascii.eqb_spec a "?"); [split; discriminate | split; assumption].
Qed.

(** *** The laws *)

(** X1. A call of [get] makes at most five requests, each for the URL of
    the endpoint, and keeps the log of the requests made before. *)
Theorem get_request_budget :
  forall (net : network) (c : client) (endpoint : string) (use_cache : bool)
         (w : world),
    exists k,
      (k <= 5)%nat
      /\ requests (fst (get net c endpoint use_cache w))
         = (repeat (url_of c endpoint) k ++ requests w)%list.
Proof.
  intros net c endpoint use_cache w. unfold get, on_exception.
  destruct (retrying_log net c endpoint use_cache 4 w)
    as (k & Hk & Hreq & _).
  exists k. auto.
Qed.

(** X2. [_rate_limit_wait] sleeps until the request interval has passed
    since the last stamp and no longer, stamps that time, and touches
    nothing else.  So over a call of [get] the clock never runs backwards,
    and the stamp moves on by at least one interval for each request the
    call makes. *)
Theorem requests_are_spaced :
  forall (net : network) (c : client) (endpoint : string) (use_cache : bool)
         (w : world),
    (let woke := fst (_rate_limit_wait c w) in
     now woke = Z.max (now w) (last_request_time w + request_interval c)
     /\ last_request_time woke = now woke
     /\ files woke = files w
     /\ requests woke = requests w)
    /\ (let w' := fst (get net c endpoint use_cache w) in
        now w <= now w'
        /\ last_request_time w
           + (Z.of_nat (length (requests w')) - Z.of_nat (length (requests w)))
             * request_interval c
           <= last_request_time w').
Proof.
  intros net c endpoint use_cache w. split.
  - unfold _rate_limit_wait. simpl.
    destruct (Z.ltb_spec (now w - last_request_time w) (request_interval c));
      repeat split; lia.
  - unfold get, on_exception. change (Nat.pred 5) with 4%nat.
    destruct (retrying_log net c endpoint use_cache 4 w)
      as (k & Hk & Hreq & Hlast & Hnow).
    cbv zeta in *. split; [exact Hnow|].
    rewrite Hreq, length_app, repeat_length, Nat2Z.inj_add.
    replace (Z.of_nat k + Z.of_nat (length (requests w))
             - Z.of_nat (length (requests w))) with (Z.of_nat k) by lia.
    exact Hlast.
Qed.

(** X3. When the cache does not answer (it is off, or misses) and the
    network fails the next five requests with a request exception, [get]
    makes exactly those five requests, raises the request exception, and
    leaves the cache files as they were. *)
Theorem get_gives_up_after_five :
  forall (net : network) (c : client) (endpoint : string) (use_cache : bool)
         (w : world),
    (use_cache = true -> cache_miss c endpoint w) ->
    (forall i, (i < 5)%nat ->
       net (length (requests w) + i)%nat (url_of c endpoint)
       = Fails RequestException) ->
    exists w',
      get net c endpoint use_cache w = (w', Raise RequestException)
      /\ requests w' = (repeat (url_of c endpoint) 5 ++ requests w)%list
      /\ files w' = files w.
Proof.
  intros net c endpoint use_cache w Hmiss Hnet. unfold get, on_exception.
  apply retrying_all_fail; [exact Hmiss|].
  intros i Hi. apply Hnet. simpl in Hi. lia.
Qed.

Lemma get_gives_up_after_five_witness :
  exists w',
    get down demo_client "type/2" true cold = (w', Raise RequestException)
    /\ requests w'
       = (repeat "https://pokeapi.co/api/v2/type/2" 5 ++ [])%list
    /\ files w' = ∅.
Proof.
  apply (get_gives_up_after_five down demo_client "type/2" true cold).
  - intros _. vm_compute. exact I.
  - intros i _. reflexivity.
Defined.

(** X4. Only request exceptions are retried.  A cache file that is not
    JSON makes [get] raise [ValueError] at once, without a request and
    without a change; and when the cache does not answer and the network
    fails the first request with an exception that is not a request
    exception, [get] raises it after that one request. *)
Theorem other_exceptions_end_the_call :
  forall (net : network) (c : client) (endpoint : string) (w : world),
    (files w !! _get_cache_path c endpoint = Some Garbage ->
     get net c endpoint true w = (w, Raise ValueError))
    /\ (forall (use_cache : bool) (e : exn),
          (use_cache = true -> cache_miss c endpoint w) ->
          net (length (requests w)) (url_of c endpoint) = Fails e ->
          is_request_exception e = false ->
          exists w',
            get net c endpoint use_cache w = (w', Raise e)
            /\ requests w' = url_of c endpoint :: requests w
            /\ files w' = files w).
Proof.
  intros net c endpoint w. split.
  - intros Hfile. unfold get, on_exception. cbn [Nat.pred retrying].
    unfold get_attempt, bind, _get_from_cache. rewrite Hfile. reflexivity.
  - intros use_cache e Hmiss Hnet Hother.
    destruct (ApiClientFacts.fetch_fails net c endpoint use_cache w e Hnet)
      as (w' & Hfetch & Hreq & Hfiles).
    exists w'. split; [|auto].
    unfold get, on_exception. cbn [Nat.pred retrying].
    rewrite (attempt_on_miss _ _ _ _ _ Hmiss), Hfetch, Hother. reflexivity.
Qed.

Lemma other_exceptions_end_the_call_witness :
  (let w := set_files (<["cache/type_2.json" := Garbage]> ∅) cold in
   get steady demo_client "type/2" true w = (w, Raise ValueError))
  /\ exists w',
       get (fun _ _ => Fails ValueError) demo_client "type/2" false cold
       = (w', Raise ValueError)
       /\ requests w' = ["https://pokeapi.co/api/v2/type/2"]
       /\ files w' = ∅.
Proof.
  split.
  - apply (proj1 (other_exceptions_end_the_call steady demo_client "type/2"
                    (set_files (<["cache/type_2.json" := Garbage]> ∅) cold))).
    vm_compute. reflexivity.
  - apply (proj2 (other_exceptions_end_the_call
                    (fun _ _ => Fails ValueError) demo_client "type/2" cold)
             false ValueError).
    + discriminate.
    + reflexivity.
    + reflexivity.
Defined.

(** X5. When the cache does not answer and the network fails [k] requests
    with a request exception, [k] at most 4, and answers the next one,
    [get] returns that answer after [k + 1] requests; with the cache on
    the answer is written to the endpoint's cache file, with the cache off
    the files are as before. *)
Theorem get_recovers :
  forall (net : network) (c : client) (endpoint : string) (use_cache : bool)
         (w : world) (k : nat) (data : json),
    (k <= 4)%nat ->
    (use_cache = true -> cache_miss c endpoint w) ->
    (forall i, (i < k)%nat ->
       net (length (requests w) + i)%nat (url_of c endpoint)
       = Fails RequestException) ->
    net (length (requests w) + k)%nat (url_of c endpoint) = Body data ->
    exists w',
      get net c endpoint use_cache w = (w', Ret data)
      /\ requests w' = (repeat (url_of c endpoint) (S k) ++ requests w)%list
      /\ files w' =
         (if use_cache
          then <[_get_cache_path c endpoint := Document data]> (files w)
          else files w).
Proof.
  intros net c endpoint use_cache w k data Hk Hmiss Hfail Hbody.
  unfold get, on_exception. apply retrying_recovers; auto.
Qed.

Lemma get_recovers_witness :
  exists w',
    get (up_from 4 fighting) demo_client "type/2" true cold
    = (w', Ret fighting)
    /\ requests w'
       = (repeat "https://pokeapi.co/api/v2/type/2" 5 ++ [])%list
    /\ files w' = <["cache/type_2.json" := Document fighting]> ∅.
Proof.
  apply (get_recovers (up_from 4 fighting) demo_client "type/2" true cold 4
           fighting).
  - lia.
  - intros _. vm_compute. exact I.
  - intros i Hi. unfold up_from. simpl.
    destruct (Nat.ltb_spec i 4); [reflexivity | lia].
  - reflexivity.
Defined.

(** X6. With the cache on, a call of [get] writes at most the cache file
    of its endpoint: when it returns a document, that file holds the
    document and every other file is as before; when it raises, no file
    has changed. *)
Theorem get_cache_effect :
  forall (net : network) (c : client) (endpoint : string) (w : world),
    let w' := fst (get net c endpoint true w) in
    match snd (get net c endpoint true w) with
    | Ret data =>
        files w' !! _get_cache_path c endpoint = Some (Document data)
        /\ forall p, p <> _get_cache_path c endpoint ->
                     files w' !! p = files w !! p
    | Raise _ => files w' = files w
    end.
Proof.
  intros net c endpoint w. unfold get, on_exception.
  pose proof (retrying_files net c endpoint true 4 w) as Hfiles.
  pose proof (ApiClientFacts.retrying_result_cached net c endpoint 4 w)
    as Hcached.
  cbn [Nat.pred].
  destruct (retrying 4 (get_attempt net c endpoint true) w) as [w' [data|e]];
    simpl in *; [|exact Hfiles].
  split; [|exact Hfiles]. apply Hcached. reflexivity.
Qed.

(** X7. Two endpoints have the same cache file exactly when they have the
    same length and differ only at positions where each has one of [/],
    [?] and [_]; and the name of a cache file keeps the length of the
    endpoint and holds neither [/] nor [?], so the file lies in the cache
    directory itself. *)
Theorem cache_path_collisions :
  forall (c : client) (e1 e2 : string),
    (_get_cache_path c e1 = _get_cache_path c e2 <-> alike e1 e2 = true)
    /\ String.length (cache_key e1) = String.length e1
    /\ Forall (fun ch => ch <> "/"%char /\ ch <> "?"%char)
         (letters (cache_key e1)).
Proof.
  intros c e1 e2. split; [|split].
  - rewrite <- cache_key_alike. unfold _get_cache_path. split.
    + intros H. apply append_inv_head in H. apply append_inv_head in H.
      apply append_inv_tail in H. exact H.
    + intros ->. reflexivity.
  - induction e1 as [|a e1 IH]; [reflexivity|].
    rewrite cache_key_cons. simpl. congruence.
  - apply cache_key_letters.
Qed.

(** X8. The cache file round trip: after [_save_to_cache] of a document
    for an endpoint, [_get_from_cache] returns that document for the
    endpoint, and for an endpoint with another cache file what it returned
    before; a later save for the endpoint replaces the document; and a
    save changes neither the request log nor the time stamp. *)
Theorem cache_round_trip :
  forall (c : client) (endpoint : string) (data : json) (w : world),
    let w1 := fst (_save_to_cache c endpoint data w) in
    _get_from_cache c endpoint w1 = (w1, Ret (Some data))
    /\ (forall other,
          _get_cache_path c other <> _get_cache_path c endpoint ->
          snd (_get_from_cache c other w1) = snd (_get_from_cache c other w))
    /\ (forall newer,
          files (fst (_save_to_cache c endpoint newer w1))
          = files (fst (_save_to_cache c endpoint newer w)))
    /\ requests w1 = requests w
    /\ last_request_time w1 = last_request_time w.
Proof.
  intros c endpoint data w. unfold _save_to_cache, _get_from_cache. simpl.
  split; [|split; [|split; [|split]]]; try reflexivity.
  - rewrite lookup_insert_eq. reflexivity.
  - intros other Hother. rewrite lookup_insert_ne by congruence.
    destruct (files w !! _get_cache_path c other) as [[d|]|]; reflexivity.
  - intros newer. apply insert_insert_eq.
Qed.

Lemma cache_round_trip_witness :
  let w1 := fst (_save_to_cache demo_client "type/2" fighting cold) in
  snd (_get_from_cache demo_client "type/2" w1) = Ret (Some fighting)
  /\ snd (_get_from_cache demo_client "type/3" w1) = Ret None.
Proof.
  intros w1.
  destruct (cache_round_trip demo_client "type/2" fighting cold)
    as (Hsame & Hother & _).
  split.
  - fold w1 in Hsame. rewrite Hsame. reflexivity.
  - fold w1 in Hother. rewrite (Hother "type/3"); [reflexivity|].
    discriminate.
Defined.

End ApiClientLaws.

(** ** The transformers: identifiers, required keys, batches *)

Module TransformerLaws.
Import Json Transformer TransformerTerms TransformerBatch TransformerLawsTerms.
Import TransformerFacts.

(** *** Cutting the identifier out of a URL *)

Lemma append_cons ch (s t : string) : String ch s ++ t = String ch (s ++ t).
Proof. reflexivity. Qed.

Lemma append_empty (t : string) : EmptyString ++ t = t.
Proof. reflexivity. Qed.

Lemma append_assoc (a b c : string) : (a ++ b) ++ c = a ++ (b ++ c).
Proof.
  induction a as [|ch a IH]; [reflexivity|].
  rewrite !append_cons, IH. reflexivity.
Qed.

Lemma rstrip_slashes k : PyStr.rstrip_slash (slashes k) = EmptyString.
Proof.
  induction k as [|k IH]; simpl; [reflexivity | rewrite IH; reflexivity].
Qed.

Lemma rstrip_append_slashes s k :
  PyStr.rstrip_slash (s ++ slashes k) = PyStr.rstrip_slash s.
Proof.
  induction s as [|ch s IH].
  - rewrite append_empty. apply rstrip_slashes.
  - rewrite append_cons. simpl. rewrite IH. reflexivity.
Qed.

Lemma rstrip_segment segment :
  segment <> EmptyString -> no_slash segment = true ->
  PyStr.rstrip_slash segment = segment.
Proof.
  induction segment as [|ch rest IH]; intros Hne Hno; [congruence|].
  simpl in Hno. apply andb_true_iff in Hno. destruct Hno as [Hch Hrest].
  simpl. destruct rest as [|ch' rest'].
  - simpl. unfold PyStr.slash. destruct (Ascii.eqb ch "/"); [discriminate|].
    reflexivity.
  - rewrite IH by (auto; discriminate). reflexivity.
Qed.

Lemma rstrip_ends_in_segment prefix segment :
  segment <> EmptyString -> no_slash segment = true ->
  PyStr.rstrip_slash (prefix ++ segment) = prefix ++ segment.
Proof.
  intros Hne Hno. induction prefix as [|ch p IH].
  - rewrite append_empty. apply rstrip_segment; assumption.
  - rewrite append_cons. simpl. rewrite IH.
    destruct (p ++ segment) eqn:Happ; [|reflexivity].
    exfalso. destruct p; [rewrite append_empty in Happ; congruence|].
    rewrite append_cons in Happ. discriminate.
Qed.

Lemma last_segment_from_no_slash acc segment :
  no_slash segment = true ->
  PyStr.last_segment_from acc segment = acc ++ segment.
Proof.
  revert acc. induction segment as [|ch rest IH]; intros acc Hno; simpl.
  - clear Hno. induction acc as [|a acc IHacc];
      [reflexivity | rewrite append_cons, <- IHacc; reflexivity].
  - simpl in Hno. apply andb_true_iff in Hno. destruct Hno as [Hch Hrest].
    unfold PyStr.slash. destruct (Ascii.eqb ch "/"); [discriminate|].
    rewrite IH by assumption.
    clear. induction acc as [|a acc IHacc];
      [reflexivity | rewrite !append_cons, IHacc; reflexivity].
Qed.

Lemma last_segment_after_slash acc prefix segment :
  no_slash segment = true ->
  PyStr.last_segment_from acc (prefix ++ String "/" segment) = segment.
Proof.
  intros Hno. revert acc. induction prefix as [|ch p IH]; intros acc.
  - rewrite append_empty. simpl.
    rewrite last_segment_from_no_slash by assumption. reflexivity.
  - rewrite append_cons. simpl. destruct (Ascii.eqb ch PyStr.slash); apply IH.
Qed.

Lemma url_last_segment prefix segment k :
  no_slash segment = true -> segment <> EmptyString ->
  PyStr.last_segment
    (PyStr.rstrip_slash (prefix ++ "/" ++ segment ++ slashes k))
  = segment.
Proof.
  intros Hno Hne.
  assert (Hassoc : prefix ++ "/" ++ segment ++ slashes k
                   = (prefix ++ String "/" segment) ++ slashes k).
  { rewrite append_assoc. reflexivity. }
  rewrite Hassoc, rstrip_append_slashes.
  assert (Hsplit : prefix ++ String "/" segment
                   = (prefix ++ "/") ++ segment).
  { rewrite append_assoc. reflexivity. }
  rewrite Hsplit, rstrip_ends_in_segment by assumption.
  rewrite <- Hsplit. apply last_segment_after_slash. assumption.
Qed.

(** X9. [_extract_id_from_url], in the Pokemon transformer and in the type
    transformer: on a URL that ends in a slash, a segment without slashes
    that is not empty, and any number of slashes, the result is what
    [int()] makes of that segment: its value, or [ValueError]. *)
Theorem extract_id_reads_last_segment :
  forall (py_int : string -> option Z) (prefix segment : string) (k : nat),
    no_slash segment = true ->
    segment <> EmptyString ->
    let url := JStr (prefix ++ "/" ++ segment ++ slashes k) in
    let expected :=
      match py_int segment with
      | Some n => Ret n
      | None => Raise ValueError
      end in
    _extract_id_from_url py_int url = expected
    /\ TypeTransformer._extract_id_from_url py_int url = expected.
Proof.
  intros py_int prefix segment k Hno Hne. simpl.
  rewrite (url_last_segment prefix segment k Hno Hne). split; reflexivity.
Qed.

Lemma extract_id_reads_last_segment_witness :
  _extract_id_from_url decimal_int (JStr "https://pokeapi.co/api/v2/type/13/")
  = Ret 13
  /\ TypeTransformer._extract_id_from_url decimal_int
       (JStr "https://pokeapi.co/api/v2/type/13/")
     = Ret 13.
Proof.
  apply (extract_id_reads_last_segment decimal_int
           "https://pokeapi.co/api/v2/type" "13" 1).
  - reflexivity.
  - discriminate.
Defined.

(** *** What [transform_pokemon] needs and what it emits *)

(** X10. [transform_pokemon] raises [AttributeError] on a record that is
    not an object, and [KeyError] on an object that lacks one of the keys
    [id], [name], [height], [weight] and [is_default]. *)
Theorem transform_pokemon_requires :
  forall (py_int : string -> option Z) (raw_data : json),
    ((forall members, raw_data <> JObj members) ->
     transform_pokemon py_int raw_data = Raise AttributeError)
    /\ (forall members key,
          raw_data = JObj members ->
          In key required_keys ->
          assoc key members = None ->
          transform_pokemon py_int raw_data = Raise KeyError).
Proof.
  intros py_int raw_data. split.
  - intros Hnot. destruct raw_data; try reflexivity.
    exfalso. eapply Hnot. reflexivity.
  - intros members key -> Hkey Hmissing.
    unfold transform_pokemon, py_get, py_getitem. simpl.
    repeat (destruct Hkey as [<- | Hkey]); try contradiction;
      destruct (assoc "species_details" members); simpl;
      destruct (assoc "id" members); simpl; try reflexivity;
        try discriminate;
      destruct (assoc "name" members); simpl; try reflexivity;
        try discriminate;
      destruct (assoc "height" members); simpl; try reflexivity;
        try discriminate;
      destruct (assoc "weight" members); simpl; try reflexivity;
        try discriminate;
      destruct (assoc "base_experience" members); simpl;
      destruct (assoc "is_default" members); simpl; try reflexivity;
        try discriminate.
Qed.

Lemma transform_pokemon_requires_witness :
  transform_pokemon decimal_int JNull = Raise AttributeError
  /\ transform_pokemon decimal_int
       (JObj [("id", JInt 25); ("name", JStr "pikachu"); ("height", JInt 4)])
     = Raise KeyError.
Proof.
  split.
  - apply (proj1 (transform_pokemon_requires decimal_int JNull)).
    discriminate.
  - apply (proj2 (transform_pokemon_requires decimal_int _)
             [("id", JInt 25); ("name", JStr "pikachu"); ("height", JInt 4)]
             "weight").
    + reflexivity.
    + simpl. auto.
    + reflexivity.
Defined.

Lemma transform_each_ret {A} raw_data key (f : json -> result A) rows :
  transform_each raw_data key f = Ret rows ->
  exists entries,
    entries_of raw_data key = Ret entries
    /\ Forall2 (fun entry row => f entry = Ret row) entries rows.
Proof.
  unfold transform_each, entries_of. intros H.
  invert_rbind H. invert_rbind H. rewrite Hx. simpl.
  exists x0. split; [assumption|]. apply rmap_ret. assumption.
Qed.

Lemma concat_short {A B} (P : A -> list B -> Prop) entries rows :
  Forall2 P entries rows ->
  (forall entry row, P entry row -> (length row <= 1)%nat) ->
  (length (concat rows) <= length entries)%nat.
Proof.
  intros Hall Hshort. induction Hall as [|entry row entries rows HP _ IH];
    simpl; [lia|].
  rewrite length_app. specialize (Hshort entry row HP). lia.
Qed.

Lemma transform_move_entry_rows py_int raw_id entry rows :
  transform_move_entry py_int raw_id entry = Ret rows ->
  (length rows <= 1)%nat
  /\ Forall (fun r => move_pokemon_id r = raw_id) rows.
Proof.
  intros H. apply transform_move_entry_spec in H.
  destruct H as (url & move_id & details & _ & _ & _ & H).
  apply transform_details_spec in H.
  destruct (find in_version_groups details).
  - destruct H as (level & method & _ & _ & ->). simpl.
    split; [lia|]. constructor; [reflexivity | constructor].
  - subst. simpl. split; [lia | constructor].
Qed.

(** X11. In what [transform_pokemon] returns, every stat, type, ability and
    move row carries the identifier of the Pokemon row; there is one stat
    row per entry of [stats], one type row per entry of [types], one
    ability row per entry of [abilities], and at most one move row per
    entry of [moves]. *)
Theorem transform_pokemon_rows :
  forall (py_int : string -> option Z) (raw_data : json) (out : Transformed),
    transform_pokemon py_int raw_data = Ret out ->
    py_getitem raw_data "id" = Ret (id (pokemon out))
    /\ Forall (fun r => stat_pokemon_id r = id (pokemon out)) (stats out)
    /\ Forall (fun r => type_pokemon_id r = id (pokemon out)) (types out)
    /\ Forall (fun r => ability_pokemon_id r = id (pokemon out))
         (abilities out)
    /\ Forall (fun r => move_pokemon_id r = id (pokemon out)) (moves out)
    /\ (exists entries, entries_of raw_data "stats" = Ret entries
                        /\ length (stats out) = length entries)
    /\ (exists entries, entries_of raw_data "types" = Ret entries
                        /\ length (types out) = length entries)
    /\ (exists entries, entries_of raw_data "abilities" = Ret entries
                        /\ length (abilities out) = length entries)
    /\ (exists entries, entries_of raw_data "moves" = Ret entries
                        /\ (length (moves out) <= length entries)%nat).
Proof.
  intros py_int raw_data out H. unfold transform_pokemon in H.
  apply rbind_ret in H. destruct H as (species & _ & H).
  apply rbind_ret in H. destruct H as (raw_id & Hid & H).
  apply rbind_ret in H. destruct H as (raw_name & _ & H).
  apply rbind_ret in H. destruct H as (raw_height & _ & H).
  apply rbind_ret in H. destruct H as (raw_weight & _ & H).
  apply rbind_ret in H. destruct H as (raw_experience & _ & H).
  apply rbind_ret in H. destruct H as (raw_is_default & _ & H).
  apply rbind_ret in H. destruct H as (raw_order & _ & H).
  apply rbind_ret in H. destruct H as (stat_rows & Hstats & H).
  apply rbind_ret in H. destruct H as (type_rows & Htypes & H).
  apply rbind_ret in H. destruct H as (ability_rows & Habilities & H).
  apply rbind_ret in H. destruct H as (move_rows & Hmoves & H).
  injection H as <-. simpl.
  apply transform_each_ret in Hstats, Htypes, Habilities, Hmoves.
  destruct Hstats as (stat_entries & Hstat_entries & Hstats).
  destruct Htypes as (type_entries & Htype_entries & Htypes).
  destruct Habilities as (ability_entries & Hability_entries & Habilities).
  destruct Hmoves as (move_entries & Hmove_entries & Hmoves).
  split; [exact Hid|]. repeat split.
  - clear Hstat_entries. induction Hstats as [|e r es rs He _ IH];
      constructor; [|exact IH].
    unfold transform_stat in He. repeat invert_rbind He.
    injection He as <-. reflexivity.
  - clear Htype_entries. induction Htypes as [|e r es rs He _ IH];
      constructor; [|exact IH].
    unfold transform_type in He. repeat invert_rbind He.
    injection He as <-. reflexivity.
  - clear Hability_entries. induction Habilities as [|e r es rs He _ IH];
      constructor; [|exact IH].
    unfold transform_ability in He. repeat invert_rbind He.
    injection He as <-. reflexivity.
  - clear Hmove_entries. induction Hmoves as [|e r es rs He _ IH]; simpl;
      [constructor|].
    apply Forall_app. split; [|exact IH].
    apply transform_move_entry_rows in He. apply He.
  - exists stat_entries. split; [assumption|].
    symmetry. eapply Forall2_length; eauto.
  - exists type_entries. split; [assumption|].
    symmetry. eapply Forall2_length; eauto.
  - exists ability_entries. split; [assumption|].
    symmetry. eapply Forall2_length; eauto.
  - exists move_entries. split; [assumption|].
    eapply concat_short; [exact Hmoves|].
    intros entry row Hrow. apply transform_move_entry_rows in Hrow.
    apply Hrow.
Qed.

Lemma transform_pokemon_rows_witness :
  exists out,
    transform_pokemon decimal_int pikachu = Ret out
    /\ id (pokemon out) = JInt 25
    /\ length (stats out) = 1%nat
    /\ (length (moves out) <= 3)%nat.
Proof.
  destruct (transform_pokemon decimal_int pikachu) as [out|e] eqn:Hout;
    [|vm_compute in Hout; discriminate].
  exists out. split; [reflexivity|].
  pose proof (transform_pokemon_rows decimal_int pikachu out Hout)
    as (Hid & _ & _ & _ & _ & (stat_entries & Hstat_entries & Hstats) & _ & _
        & (move_entries & Hmove_entries & Hmoves)).
  vm_compute in Hid. injection Hid as Hid.
  vm_compute in Hstat_entries. injection Hstat_entries as <-.
  vm_compute in Hmove_entries. injection Hmove_entries as <-.
  split; [symmetry; exact Hid|]. split; [exact Hstats | exact Hmoves].
Defined.

(** *** Batches *)

Lemma fold_extend_batch outs acc :
  fold_left extend_batch outs acc
  = {| all_pokemon := all_pokemon acc ++ map pokemon outs;
       all_stats := all_stats acc ++ concat (map stats outs);
       all_types := all_types acc ++ concat (map types outs);
       all_abilities := all_abilities acc ++ concat (map abilities outs);
       all_moves := all_moves acc ++ concat (map moves outs) |}.
Proof.
  revert acc. induction outs as [|out outs IH]; intros acc; simpl.
  - rewrite !app_nil_r. destruct acc; reflexivity.
  - rewrite IH. simpl. rewrite <- !app_assoc. reflexivity.
Qed.

Lemma transform_pokemon_batch_from_spec py_int batch acc :
  transform_pokemon_batch_from py_int acc batch
  = (let? outs := rmap (transform_pokemon py_int) batch in
     Ret (fold_left extend_batch outs acc))%result.
Proof.
  revert acc. induction batch as [|raw batch IH]; intros acc; simpl;
    [reflexivity|].
  destruct (transform_pokemon py_int raw) as [out|e]; simpl; [|reflexivity].
  rewrite IH.
  destruct (rmap (transform_pokemon py_int) batch); reflexivity.
Qed.

(** X12. [transform_pokemon_batch] transforms the records in order and
    stops at the first one [transform_pokemon] raises on, with that
    exception and no partial result; when none raises, its lists are the
    Pokemon rows in the order of the batch, and the stat, type, ability and
    move rows of the records, concatenated in that order. *)
Theorem transform_pokemon_batch_spec :
  forall (py_int : string -> option Z) (raw_data_batch : list json),
    transform_pokemon_batch py_int raw_data_batch
    = (let? outs := rmap (transform_pokemon py_int) raw_data_batch in
       Ret {| all_pokemon := map pokemon outs;
              all_stats := concat (map stats outs);
              all_types := concat (map types outs);
              all_abilities := concat (map abilities outs);
              all_moves := concat (map moves outs) |})%result.
Proof.
  intros py_int batch. unfold transform_pokemon_batch.
  rewrite transform_pokemon_batch_from_spec.
  destruct (rmap (transform_pokemon py_int) batch) as [outs|e]; simpl;
    [|reflexivity].
  rewrite fold_extend_batch. reflexivity.
Qed.

End TransformerLaws.

Module TypeTransformerLaws.
Import Json TypeTransformer TransformerLawsTerms.
Import TransformerFacts.

Lemma relation_entries_ret py_int raw_data relation value rows :
  relation_entries py_int raw_data relation value = Ret rows ->
  exists targets,
    relation_targets raw_data relation = Ret targets
    /\ Forall2
         (fun target row =>
            py_getitem raw_data "id" = Ret (attack_type_id row)
            /\ (let? url := py_getitem target "url" in
                _extract_id_from_url py_int url)%result
               = Ret (defense_type_id row)
            /\ effectiveness row = value)
         targets rows.
Proof.
  unfold relation_entries, relation_targets. intros H.
  invert_rbind H. invert_rbind H. invert_rbind H.
  rewrite Hx. simpl. rewrite Hx0. simpl. exists x1. split; [assumption|].
  clear Hx1. apply rmap_ret in H.
  induction H as [|target row targets rows Hrow _ IH]; [constructor|].
  constructor; [|exact IH].
  unfold relation_entry in Hrow.
  apply rbind_ret in Hrow. destruct Hrow as (attack & Hattack & Hrow).
  apply rbind_ret in Hrow. destruct Hrow as (url & Hurl & Hrow).
  apply rbind_ret in Hrow. destruct Hrow as (defense & Hdefense & Hrow).
  injection Hrow as <-. simpl. rewrite Hurl. simpl. auto.
Qed.

Lemma entries_values {A} (P : A -> EffectivenessDict -> Prop) value
    targets rows :
  Forall2 P targets rows ->
  (forall target row, P target row -> effectiveness row = value) ->
  map effectiveness rows = repeat value (length targets).
Proof.
  intros Hall Hvalue.
  induction Hall as [|target row targets rows HP _ IH]; simpl;
    [reflexivity|].
  rewrite IH, (Hvalue target row HP). reflexivity.
Qed.

(** The effectiveness values the transformer emits are values the
    [Numeric(3, 2)] column of the table holds as they are given. *)
Lemma transformed_effectiveness_held py_int raw_data out :
  transform_type py_int raw_data = Ret out ->
  Forall (fun entry => Schema.Numeric_3_2 (effectiveness entry) = true)
    (effectiveness_entries out).
Proof.
  intros H. unfold transform_type in H.
  apply rbind_ret in H. destruct H as (raw_id & _ & H).
  apply rbind_ret in H. destruct H as (raw_name & _ & H).
  apply rbind_ret in H. destruct H as (rows0 & H0 & H).
  apply rbind_ret in H. destruct H as (rows1 & H1 & H).
  apply rbind_ret in H. destruct H as (rows2 & H2 & H).
  injection H as <-. simpl.
  assert (Hheld : forall relation value rows,
            Schema.Numeric_3_2 value = true ->
            relation_entries py_int raw_data relation value = Ret rows ->
            Forall
              (fun entry => Schema.Numeric_3_2 (effectiveness entry) = true)
              rows).
  { intros relation value rows Hvalue Hrows.
    apply relation_entries_ret in Hrows.
    destruct Hrows as (targets & _ & Hall).
    induction Hall as [|t r ts rs (_ & _ & Hr) _ IH]; constructor;
      [rewrite Hr; exact Hvalue | exact IH]. }
  apply Forall_app. split; [|apply Forall_app; split].
  - exact (Hheld _ 0%Q _ eq_refl H0).
  - exact (Hheld _ (1 # 2)%Q _ eq_refl H1).
  - exact (Hheld _ 2%Q _ eq_refl H2).
Qed.

(** X13. What [transform_type] returns holds the identifier and the name of
    the raw type, and one effectiveness entry per target of
    [no_damage_to], then of [half_damage_to], then of [double_damage_to],
    with the values 0, 1/2 and 2 in that order (so never the neutral 1);
    every entry has the raw type as its attacker and the identifier cut
    out of the target's URL as its defender. *)
Theorem transform_type_entries :
  forall (py_int : string -> option Z) (raw_data : json)
         (out : TransformedType),
    transform_type py_int raw_data = Ret out ->
    py_getitem raw_data "id" = Ret (id (type_ out))
    /\ py_getitem raw_data "name" = Ret (name (type_ out))
    /\ exists no_damage half_damage double_damage,
         relation_targets raw_data "no_damage_to" = Ret no_damage
         /\ relation_targets raw_data "half_damage_to" = Ret half_damage
         /\ relation_targets raw_data "double_damage_to" = Ret double_damage
         /\ map effectiveness (effectiveness_entries out)
            = (repeat 0%Q (length no_damage)
               ++ repeat (1 # 2)%Q (length half_damage)
               ++ repeat 2%Q (length double_damage))%list
         /\ Forall2
              (fun target entry =>
                 attack_type_id entry = id (type_ out)
                 /\ (let? url := py_getitem target "url" in
                     _extract_id_from_url py_int url)%result
                    = Ret (defense_type_id entry))
              (no_damage ++ half_damage ++ double_damage)
              (effectiveness_entries out).
Proof.
  intros py_int raw_data out H. unfold transform_type in H.
  apply rbind_ret in H. destruct H as (raw_id & Hid & H).
  apply rbind_ret in H. destruct H as (raw_name & Hname & H).
  apply rbind_ret in H. destruct H as (rows0 & H0 & H).
  apply rbind_ret in H. destruct H as (rows1 & H1 & H).
  apply rbind_ret in H. destruct H as (rows2 & H2 & H).
  injection H as <-. simpl.
  apply relation_entries_ret in H0, H1, H2.
  destruct H0 as (no_damage & Hno & H0).
  destruct H1 as (half_damage & Hhalf & H1).
  destruct H2 as (double_damage & Hdouble & H2).
  split; [exact Hid|]. split; [exact Hname|].
  exists no_damage, half_damage, double_damage.
  split; [exact Hno|]. split; [exact Hhalf|]. split; [exact Hdouble|].
  split.
  - rewrite !map_app.
    rewrite (entries_values _ 0%Q _ _ H0) by (intros ? ? (_ & _ & ?); auto).
    rewrite (entries_values _ (1 # 2)%Q _ _ H1)
      by (intros ? ? (_ & _ & ?); auto).
    rewrite (entries_values _ 2%Q _ _ H2) by (intros ? ? (_ & _ & ?); auto).
    reflexivity.
  - assert (Hweaken : forall value targets rows,
              Forall2
                (fun target row =>
                   py_getitem raw_data "id" = Ret (attack_type_id row)
                   /\ (let? url := py_getitem target "url" in
                       _extract_id_from_url py_int url)%result
                      = Ret (defense_type_id row)
                   /\ effectiveness row = value)
                targets rows ->
              Forall2
                (fun target entry =>
                   attack_type_id entry = raw_id
                   /\ (let? url := py_getitem target "url" in
                       _extract_id_from_url py_int url)%result
                      = Ret (defense_type_id entry))
                targets rows).
    { intros value targets rows Hall.
      induction Hall as [|t r ts rs (Hattack & Hdefense & _) _ IH];
        [constructor|].
      constructor; [|exact IH].
      split; [congruence | exact Hdefense]. }
    apply Forall2_app; [eapply Hweaken; eauto|].
    apply Forall2_app; eapply Hweaken; eauto.
Qed.

Lemma transform_type_entries_witness :
  exists out,
    transform_type Transformer.decimal_int fire = Ret out
    /\ id (type_ out) = JInt 10
    /\ map effectiveness (effectiveness_entries out)
       = [(1 # 2)%Q; 2%Q; 2%Q].
Proof.
  destruct (transform_type Transformer.decimal_int fire) as [out|e] eqn:Hout;
    [|vm_compute in Hout; discriminate].
  exists out. split; [reflexivity|].
  pose proof (transform_type_entries Transformer.decimal_int fire out Hout)
    as (Hid & _ & no_damage & half_damage & double_damage & Hno & Hhalf
        & Hdouble & Hvalues & _).
  vm_compute in Hid. injection Hid as Hid.
  vm_compute in Hno. injection Hno as <-.
  vm_compute in Hhalf. injection Hhalf as <-.
  vm_compute in Hdouble. injection Hdouble as <-.
  split; [symmetry; exact Hid | exact Hvalues].
Defined.

Lemma transform_type_batch_from_spec py_int batch acc :
  transform_type_batch_from py_int acc batch
  = (let? outs := rmap (transform_type py_int) batch in
     Ret {| type_dicts := type_dicts acc ++ map type_ outs;
            effectiveness_dicts :=
              effectiveness_dicts acc
              ++ concat (map effectiveness_entries outs) |})%result.
Proof.
  revert acc. induction batch as [|raw batch IH]; intros acc; simpl.
  - rewrite !app_nil_r. destruct acc; reflexivity.
  - destruct (transform_type py_int raw) as [out|e]; simpl; [|reflexivity].
    rewrite IH.
    destruct (rmap (transform_type py_int) batch); simpl; [|reflexivity].
    rewrite <- !app_assoc. reflexivity.
Qed.

(** X14. [transform_type_batch] transforms the raw types in order and stops
    at the first one [transform_type] raises on, with that exception; when
    none raises, its lists are the type rows in the order of the batch and
    the effectiveness entries of the types, concatenated in that order. *)
Theorem transform_type_batch_spec :
  forall (py_int : string -> option Z) (raw_data_batch : list json),
    transform_type_batch py_int raw_data_batch
    = (let? outs := rmap (transform_type py_int) raw_data_batch in
       Ret {| type_dicts := map type_ outs;
              effectiveness_dicts :=
                concat (map effectiveness_entries outs) |})%result.
Proof.
  intros py_int batch. unfold transform_type_batch.
  apply transform_type_batch_from_spec.
Qed.

End TypeTransformerLaws.

Module AbilityTransformerLaws.
Import Json AbilityTransformer TransformerLawsTerms.
Import TransformerFacts.

(** What [next] returns, read off the entries. *)
Lemma next_english_ret field entries default v :
  next_english field entries default = Ret v ->
  match find is_english entries with
  | Some entry => py_getitem entry field = Ret v
  | None => v = default
  end.
Proof.
  induction entries as [|entry rest IH]; simpl; intros H.
  - injection H as <-. reflexivity.
  - unfold is_english, language_of at 1.
    destruct (py_getitem entry "language") as [language|e]; simpl in *;
      [|discriminate].
    destruct (py_getitem language "name") as [language_name|e]; simpl in *;
      [|discriminate].
    destruct (py_eq_str language_name "en"); [exact H | apply IH; exact H].
Qed.

(** The generator is not advanced past the first English entry. *)
Lemma next_english_lazy field before entry after default :
  Forall other_language before ->
  is_english entry = true ->
  next_english field (before ++ entry :: after) default
  = py_getitem entry field.
Proof.
  intros Hbefore Henglish.
  induction Hbefore as [|other before (n & Hn & Hne) _ IH]; simpl.
  - unfold is_english, language_of in Henglish.
    destruct (py_getitem entry "language") as [language|e]; simpl in *;
      [|discriminate].
    destruct (py_getitem language "name") as [language_name|e]; simpl in *;
      [|discriminate].
    rewrite Henglish. reflexivity.
  - unfold language_of in Hn.
    destruct (py_getitem other "language") as [language|e]; simpl in *;
      [|discriminate].
    rewrite Hn. simpl. rewrite Hne. exact IH.
Qed.

(** X15. In what [transform_ability] returns, the name, the effect and the
    flavor text are those of the first English entry of [names],
    [effect_entries] and [flavor_text_entries]; without an English entry
    the name is the raw name and the two texts are empty strings.  The
    entries that follow the first English one are not looked at: whatever
    they are, [next] yields the field of that entry. *)
Theorem transform_ability_english :
  forall (raw_ability : json),
    (forall out,
       transform_ability raw_ability = Ret out ->
       py_getitem raw_ability "id" = Ret (id out)
       /\ (exists names,
             entries_of raw_ability "names" = Ret names
             /\ match find is_english names with
                | Some entry => py_getitem entry "name" = Ret (name out)
                | None => py_getitem raw_ability "name" = Ret (name out)
                end)
       /\ (exists effect_entries,
             entries_of raw_ability "effect_entries" = Ret effect_entries
             /\ match find is_english effect_entries with
                | Some entry => py_getitem entry "effect" = Ret (effect out)
                | None => effect out = JStr EmptyString
                end)
       /\ (exists flavor_entries,
             entries_of raw_ability "flavor_text_entries" = Ret flavor_entries
             /\ match find is_english flavor_entries with
                | Some entry =>
                    py_getitem entry "flavor_text" = Ret (flavor_text out)
                | None => flavor_text out = JStr EmptyString
                end))
    /\ (forall field before entry after default,
          Forall other_language before ->
          is_english entry = true ->
          next_english field (before ++ entry :: after) default
          = py_getitem entry field).
Proof.
  intros raw_ability. split; [|apply next_english_lazy].
  intros out H. unfold transform_ability in H.
  apply rbind_ret in H. destruct H as (effect_value & Heffect_value & H).
  apply rbind_ret in H. destruct H as (effect_entries & Heffect_entries & H).
  apply rbind_ret in H. destruct H as (effect & Heffect & H).
  apply rbind_ret in H. destruct H as (flavor_value & Hflavor_value & H).
  apply rbind_ret in H. destruct H as (flavor_entries & Hflavor_entries & H).
  apply rbind_ret in H. destruct H as (flavor & Hflavor & H).
  apply rbind_ret in H. destruct H as (names_value & Hnames_value & H).
  apply rbind_ret in H. destruct H as (names & Hnames & H).
  apply rbind_ret in H. destruct H as (raw_name & Hraw_name & H).
  apply rbind_ret in H. destruct H as (name & Hname & H).
  apply rbind_ret in H. destruct H as (raw_id & Hid & H).
  apply rbind_ret in H. destruct H as (main & Hmain & H).
  injection H as <-. simpl.
  apply next_english_ret in Heffect, Hflavor, Hname.
  split; [exact Hid|]. split; [|split].
  - exists names. unfold entries_of. rewrite Hnames_value. simpl.
    split; [exact Hnames|].
    destruct (find is_english names); [exact Hname | congruence].
  - exists effect_entries. unfold entries_of. rewrite Heffect_value. simpl.
    split; [exact Heffect_entries | exact Heffect].
  - exists flavor_entries. unfold entries_of. rewrite Hflavor_value. simpl.
    split; [exact Hflavor_entries | exact Hflavor].
Qed.

Lemma transform_ability_english_witness :
  (exists out,
     transform_ability stench = Ret out
     /\ name out = JStr "Stench"
     /\ effect out = JStr "May cause flinching."
     /\ flavor_text out = JStr EmptyString)
  /\ next_english "name"
       [in_language "de" [("name", JStr "Duftnote")];
        in_language "en" [("name", JStr "Stench")]; JNull; JInt 3]
       (JStr "stench")
     = Ret (JStr "Stench").
Proof.
  split.
  - destruct (transform_ability stench) as [out|e] eqn:Hout;
      [|vm_compute in Hout; discriminate].
    exists out. split; [reflexivity|].
    pose proof (proj1 (transform_ability_english stench) out Hout)
      as (_ & (names & Hnames & Hname) & (effects & Heffects & Heffect)
          & (flavors & Hflavors & Hflavor)).
    vm_compute in Hnames. injection Hnames as <-.
    vm_compute in Heffects. injection Heffects as <-.
    vm_compute in Hflavors. injection Hflavors as <-.
    vm_compute in Hname. vm_compute in Heffect. simpl in Hflavor.
    injection Hname as Hname. injection Heffect as Heffect.
    split; [symmetry; exact Hname|]. split; [symmetry; exact Heffect|].
    exact Hflavor.
  - apply (proj2 (transform_ability_english stench) "name"
             [in_language "de" [("name", JStr "Duftnote")]]
             (in_language "en" [("name", JStr "Stench")])
             [JNull; JInt 3] (JStr "stench")).
    + constructor; [|constructor]. eexists. split; reflexivity.
    + reflexivity.
Defined.

End AbilityTransformerLaws.

(** ** The loader: reloads, row order, foreign keys, first load *)

Module LoaderLaws.
Import Schema Loader LoaderTerms LoaderLawsTerms.
Import LoaderFacts.

(** *** Rows of a table under a batch of upserts *)

Section RowLaws.

Context {R K : Type}.
Variable same_key : R -> R -> bool.
Variable assign : R -> R -> R.
Variable key : R -> K.

Hypothesis same_key_spec :
  forall data r, same_key data r = true <-> key r = key data.
Hypothesis assign_spec :
  forall data r, same_key data r = true -> assign data r = data.

Lemma update_at_same i (f : R -> R) objs r :
  nth_error objs i = Some r -> f r = r -> update_at i f objs = objs.
Proof.
  revert i. induction objs as [|o objs IH]; intros [|i] H Hf; simpl in *;
    try discriminate.
  - injection H as ->. rewrite Hf. reflexivity.
  - rewrite (IH i H Hf). reflexivity.
Qed.

Lemma no_match_filter (p : R -> bool) rows :
  find_index p rows = None -> List.filter p rows = [].
Proof.
  intros H. apply AnalyzerFacts.filter_none.
  apply find_index_None. exact H.
Qed.

Lemma filter_In_single (p : R -> bool) rows e r :
  List.filter p rows = [e] -> In r rows -> p r = true -> r = e.
Proof.
  intros Hfilter Hin Hp.
  assert (Hr : In r (List.filter p rows)) by (apply filter_In; auto).
  rewrite Hfilter in Hr. destruct Hr as [<-|[]]. reflexivity.
Qed.

(** When the one row of each key of the batch is the batch's entity, the
    upserts stage nothing new. *)
Lemma staged_live_fixed rows batch :
  (forall e, In e batch -> List.filter (same_key e) rows = [e]) ->
  staged_live same_key assign rows batch rows = rows.
Proof using same_key_spec assign_spec.
  unfold staged_live. induction batch as [|d batch IH]; intros Hrows; simpl;
    [reflexivity|].
  assert (Hone : stage_one same_key assign rows rows d = rows).
  { unfold stage_one.
    destruct (find_index (same_key d) rows) as [i|] eqn:Hfind;
      [|reflexivity].
    destruct (find_index_Some _ _ _ Hfind) as (r & Hnth & Hr).
    assert (r = d).
    { eapply filter_In_single; [apply Hrows; left; reflexivity | | exact Hr].
      eapply nth_error_In; eauto. }
    subst r. apply (update_at_same _ _ _ d Hnth).
    apply assign_spec. apply (same_key_refl same_key key same_key_spec). }
  rewrite Hone. apply IH. intros e He. apply Hrows. right. exact He.
Qed.

Lemma staged_pending_fixed rows batch :
  (forall e, In e batch -> List.filter (same_key e) rows = [e]) ->
  staged_pending same_key rows batch = [].
Proof using Type.
  intros Hrows. unfold staged_pending. apply AnalyzerFacts.filter_none.
  intros e He.
  destruct (find_index (same_key e) rows) eqn:Hfind; [reflexivity|].
  apply no_match_filter in Hfind. rewrite (Hrows e He) in Hfind.
  discriminate.
Qed.

Lemma upserted_fixed rows batch :
  (forall e, In e batch -> List.filter (same_key e) rows = [e]) ->
  upserted same_key assign rows batch = rows.
Proof using same_key_spec assign_spec.
  intros Hrows. unfold upserted.
  rewrite staged_live_fixed, staged_pending_fixed by assumption.
  apply app_nil_r.
Qed.

(** Every entity of the batch has a row with its key afterwards. *)
Lemma upserted_has rows batch d :
  In d batch ->
  exists r, In r (upserted same_key assign rows batch)
            /\ same_key d r = true.
Proof using same_key_spec assign_spec.
  intros Hd. unfold upserted.
  destruct (find_index (same_key d) rows) as [i|] eqn:Hfind.
  - destruct (find_index_Some _ _ _ Hfind) as (r & Hnth & Hr).
    assert (Hkeys : map key (staged_live same_key assign rows batch rows)
                    = map key rows)
      by (apply (staged_live_keys same_key assign key same_key_spec
                   assign_spec); reflexivity).
    destruct (nth_error_same_length key _ _ i r Hkeys Hnth) as (r' & Hnth').
    exists r'. split.
    + apply in_or_app. left. eapply nth_error_In; eauto.
    + rewrite (same_key_congr same_key key same_key_spec d r' r); [exact Hr|].
      eapply nth_error_keys; eauto.
  - exists d. split.
    + apply in_or_app. right. apply pending_In. auto.
    + apply (same_key_refl same_key key same_key_spec).
Qed.

(** *** Order *)

Lemma same_key_sym a b : same_key a b = true -> same_key b a = true.
Proof using same_key_spec.
  intros H. apply same_key_spec. apply same_key_spec in H. congruence.
Qed.

Lemma same_key_trans a b c :
  same_key a b = true -> same_key b c = true -> same_key a c = true.
Proof using same_key_spec.
  intros H1 H2. apply same_key_spec.
  apply same_key_spec in H1. apply same_key_spec in H2. congruence.
Qed.

Lemma Forall2_update_at (P : R -> R -> Prop) i f rows objs :
  Forall2 P rows objs ->
  (forall old cur, nth_error rows i = Some old -> nth_error objs i = Some cur ->
                   P old cur -> P old (f cur)) ->
  Forall2 P rows (update_at i f objs).
Proof using Type.
  intros Hall. revert i. induction Hall as [|old cur rows objs HP Hall IH];
    intros i Hf; [destruct i; constructor|].
  destruct i as [|i]; simpl.
  - constructor; [apply Hf; auto | exact Hall].
  - constructor; [exact HP | apply IH; intros; eapply (Hf old0 cur0); eauto].
Qed.

Lemma staged_live_replaced all rows batch objs :
  (forall e, In e batch -> In e all) ->
  Forall2 (kept_or_replaced same_key all) rows objs ->
  Forall2 (kept_or_replaced same_key all) rows
    (staged_live same_key assign rows batch objs).
Proof using same_key_spec assign_spec.
  unfold staged_live. revert objs.
  induction batch as [|d batch IH]; intros objs Hsub Hall; simpl;
    [exact Hall|].
  apply IH; [intros e He; apply Hsub; right; exact He|].
  unfold stage_one.
  destruct (find_index (same_key d) rows) as [i|] eqn:Hfind; [|exact Hall].
  destruct (find_index_Some _ _ _ Hfind) as (r & Hnth & Hr).
  apply Forall2_update_at; [exact Hall|].
  intros old cur Hold Hcur Hkept.
  rewrite Hnth in Hold. injection Hold as <-.
  assert (Hcur_key : same_key d cur = true).
  { destruct Hkept as [->|[_ Hsame]]; [exact Hr|].
    eapply same_key_trans; eauto. }
  rewrite (assign_spec d cur Hcur_key).
  right. split; [apply Hsub; left; reflexivity|].
  apply same_key_sym. exact Hr.
Qed.

Lemma kept_refl batch rows :
  Forall2 (kept_or_replaced same_key batch) rows rows.
Proof using Type.
  induction rows; constructor; auto. left. reflexivity.
Qed.

Lemma upserted_order rows batch :
  order_kept same_key batch rows (upserted same_key assign rows batch).
Proof using same_key_spec assign_spec.
  exists (staged_live same_key assign rows batch rows),
         (staged_pending same_key rows batch).
  split; [reflexivity|]. split.
  - apply staged_live_replaced; [auto | apply kept_refl].
  - apply List.Forall_forall. intros e He. apply pending_In in He.
    destruct He as [He Hfind]. split; [exact He|].
    apply no_match_filter. exact Hfind.
Qed.

Lemma order_kept_refl rows : order_kept same_key [] rows rows.
Proof using Type.
  exists rows, []. rewrite app_nil_r.
  split; [reflexivity|]. split; [apply kept_refl | constructor].
Qed.

Lemma kept_matches batch before kept x :
  Forall2 (kept_or_replaced same_key batch) before kept ->
  List.filter (same_key x) kept = [] ->
  List.filter (same_key x) before = [].
Proof using same_key_spec.
  induction 1 as [|old new before kept Hkept _ IH]; simpl; [reflexivity|].
  destruct (same_key x new) eqn:Hnew; [discriminate|].
  intros Hrest. rewrite (IH Hrest).
  destruct (same_key x old) eqn:Hold; [|reflexivity].
  exfalso. destruct Hkept as [->|[_ Hsame]]; [congruence|].
  rewrite (same_key_trans x old new Hold Hsame) in Hnew. discriminate.
Qed.

Lemma order_kept_compose d batch rows rows1 rows2 :
  order_kept same_key [d] rows rows1 ->
  order_kept same_key batch rows1 rows2 ->
  order_kept same_key (d :: batch) rows rows2.
Proof using same_key_spec.
  intros (kept1 & added1 & -> & Hkept1 & Hadded1)
         (kept2 & added2 & -> & Hkept2 & Hadded2).
  apply Forall2_app_inv_l in Hkept2.
  destruct Hkept2 as (kept2a & kept2b & Hkept2a & Hkept2b & ->).
  exists kept2a, (kept2b ++ added2)%list.
  split; [rewrite app_assoc; reflexivity|]. split.
  - clear Hadded1 Hadded2 Hkept2b. revert kept2a Hkept2a.
    induction Hkept1 as [|old mid rows kept1 Hmid _ IH]; intros kept2a H2;
      inversion H2 as [|? new ? kept2a' Hnew Hrest]; subst; constructor.
    + destruct Hnew as [->|[Hin Hsame]].
      * destruct Hmid as [->|[Hin Hsame]]; [left; reflexivity|].
        right. split; [|exact Hsame].
        destruct Hin as [<-|[]]. left. reflexivity.
      * right. split; [right; exact Hin|].
        destruct Hmid as [->|[_ Hsame']]; [exact Hsame|].
        eapply same_key_trans; eauto.
    + apply IH. exact Hrest.
  - apply Forall_app. split.
    + clear Hkept1 Hkept2a Hadded2. revert kept2b Hkept2b.
      induction Hadded1 as [|a added1 [Ha Hnone] _ IH]; intros kept2b H2;
        inversion H2 as [|? new ? kept2b' Hnew Hrest]; subst; constructor.
      * destruct Ha as [<-|[]].
        destruct Hnew as [->|[Hin Hsame]];
          [split; [left; reflexivity|exact Hnone]|].
        split; [right; exact Hin|].
        rewrite <- Hnone. apply filter_ext. intros x.
        symmetry. apply (same_key_interchangeable same_key key same_key_spec).
        exact Hsame.
      * apply IH. exact Hrest.
    + apply List.Forall_forall. intros e He.
      rewrite List.Forall_forall in Hadded2.
      destruct (Hadded2 e He) as [Hin Hnone].
      split; [right; exact Hin|].
      rewrite List.filter_app in Hnone. apply app_eq_nil in Hnone.
      destruct Hnone as [Hnone _].
      eapply kept_matches; eauto.
Qed.

End RowLaws.

(** *** Sessions without failures to come *)

Lemma session_eta s :
  clean s -> faults s = [] ->
  s = {| store := store s; live := store s; pending := empty_db;
         faults := [] |}.
Proof. intros [Hlive Hpending] Hfaults. destruct s; simpl in *. congruence. Qed.

Lemma upsert_runs {R} (T : table R) same_key assign data s :
  faults s = [] ->
  exists s', upsert T same_key assign data s = (s', Ret tt) /\ faults s' = [].
Proof.
  intros Hfaults. unfold upsert, query_first, bind, round_trip.
  rewrite Hfaults.
  destruct (find_index (same_key data) (view T (store s)));
    unfold set_attributes, add; eexists; split; try reflexivity; exact Hfaults.
Qed.

Lemma for_each_upsert_runs {R} (T : table R) same_key assign batch s :
  faults s = [] ->
  exists s',
    for_each (upsert T same_key assign) batch s = (s', Ret tt)
    /\ faults s' = [].
Proof.
  revert s. induction batch as [|d batch IH]; intros s Hfaults; simpl.
  - exists s. auto.
  - unfold bind.
    destruct (upsert_runs T same_key assign d s Hfaults) as (s1 & -> & H1).
    apply IH. exact H1.
Qed.

Lemma transaction_keeps_store body s s' e :
  (forall s0 s1 r, body s0 = (s1, r) -> store s1 = store s0) ->
  transaction body s = (s', Raise e) ->
  store s' = store s /\ clean s'.
Proof.
  intros Hbody H. apply transaction_raise in H.
  destruct H as (failed & Hwork & Hstore & Hclean).
  split; [|exact Hclean]. rewrite Hstore.
  unfold unit_of_work, bind in Hwork.
  destruct (body s) as [s1 [[]|e1]] eqn:Hrun.
  - apply commit_raise in Hwork. rewrite Hwork. eapply Hbody; eauto.
  - injection Hwork as <- _. eapply Hbody; eauto.
Qed.

Section TableLaws.

Context {R K : Type} (T : table R).
Variable same_key : R -> R -> bool.
Variable assign : R -> R -> R.
Variable key : R -> K.
Hypothesis laws : table_laws T.
Hypothesis same_key_spec :
  forall data r, same_key data r = true <-> key r = key data.
Hypothesis assign_spec :
  forall data r, same_key data r = true -> assign data r = data.

Lemma batch_raise batch s s' e :
  transaction (for_each (upsert T same_key assign) batch) s = (s', Raise e) ->
  store s' = store s /\ clean s'.
Proof using Type.
  apply transaction_keeps_store. intros s0 s1 r.
  apply (for_each_upsert_store T same_key assign).
Qed.

(** Without a failure to come, a load is a function of the store. *)
Lemma batch_load_runs batch s :
  clean s ->
  faults s = [] ->
  let target :=
    put T (upserted same_key assign (view T (store s)) batch) (store s) in
  transaction (for_each (upsert T same_key assign) batch) s
  = if integrity_ok target
    then ({| store := target; live := target; pending := empty_db;
             faults := [] |}, Ret tt)
    else (s, Raise IntegrityError).
Proof using laws.
  intros Hclean Hfaults target.
  destruct (for_each_upsert_runs T same_key assign batch s Hfaults)
    as (staged & Hstaged & Hfaults').
  pose proof (for_each_upsert_ret T same_key assign laws batch s staged Hstaged)
    as (Hs & Hl & Hp).
  destruct Hclean as [Hlive Hpending].
  assert (Hflushed : db_app (live staged) (pending staged) = target).
  { rewrite Hl, Hp, Hlive, Hpending, (view_empty T laws). simpl.
    apply (flush_put T laws). }
  unfold transaction, try_except, unit_of_work, bind.
  rewrite Hstaged. unfold commit, bind, round_trip. rewrite Hfaults'.
  rewrite Hflushed.
  destruct (integrity_ok target); [rewrite Hfaults'; reflexivity|].
  unfold rollback, raise. simpl. rewrite Hs, Hfaults'.
  f_equal. symmetry. apply session_eta; [split|]; assumption.
Qed.

(** A load of entities that are stored as they are changes nothing. *)
Lemma batch_again batch s1 s2 r :
  clean s1 ->
  (forall e, In e batch ->
     List.filter (same_key e) (view T (store s1)) = [e]) ->
  transaction (for_each (upsert T same_key assign) batch) s1 = (s2, r) ->
  store s2 = store s1 /\ clean s2.
Proof using laws same_key_spec assign_spec.
  intros Hclean Hrows H. destruct r as [[]|e]; [|eapply batch_raise; eauto].
  apply (batch_load T same_key assign batch s1 s2 laws Hclean) in H.
  destruct H as (Hclean2 & Hstore). split; [|exact Hclean2].
  rewrite Hstore.
  rewrite (upserted_fixed same_key assign key same_key_spec assign_spec)
    by exact Hrows.
  apply (put_view T laws).
Qed.

Lemma each_again batch s1 s2 r :
  clean s1 ->
  (forall e, In e batch ->
     List.filter (same_key e) (view T (store s1)) = [e]) ->
  for_each (fun data => transaction (upsert T same_key assign data)) batch s1
  = (s2, r) ->
  store s2 = store s1 /\ clean s2.
Proof using laws same_key_spec assign_spec.
  revert s1. induction batch as [|d batch IH]; intros s1 Hclean Hrows; simpl.
  - unfold ret. intros H. injection H as <- _. auto.
  - unfold bind.
    destruct (transaction (upsert T same_key assign d) s1) as [s [[]|e]] eqn:E;
      rewrite (transaction_ext _ (for_each (upsert T same_key assign) [d]))
        in E by (intros s0; symmetry; apply for_each_single);
      apply batch_again in E; try exact Hclean;
      try (intros e0 [<-|[]]; apply Hrows; left; reflexivity);
      destruct E as (Hstore & Hclean').
    + intros H. apply IH in H; [|exact Hclean'|].
      * destruct H as (Hstore2 & Hclean2). split; [congruence | exact Hclean2].
      * intros e He. rewrite Hstore. apply Hrows. right. exact He.
    + intros H. injection H as <- _. auto.
Qed.

Lemma batch_order batch s s' :
  clean s ->
  transaction (for_each (upsert T same_key assign) batch) s = (s', Ret tt) ->
  order_kept same_key batch (view T (store s)) (view T (store s')).
Proof using laws same_key_spec assign_spec.
  intros Hclean H.
  apply (batch_load T same_key assign batch s s' laws Hclean) in H.
  destruct H as (_ & ->). rewrite (view_put T laws).
  apply (upserted_order same_key assign key same_key_spec assign_spec).
Qed.

Lemma each_order batch s s' :
  clean s ->
  for_each (fun data => transaction (upsert T same_key assign data)) batch s
  = (s', Ret tt) ->
  order_kept same_key batch (view T (store s)) (view T (store s')).
Proof using laws same_key_spec assign_spec.
  revert s. induction batch as [|d batch IH]; intros s Hclean; simpl.
  - unfold ret. intros H. injection H as <-. apply order_kept_refl.
  - unfold bind.
    destruct (transaction (upsert T same_key assign d) s)
      as [s1 [[]|e]] eqn:E; [|discriminate].
    rewrite (transaction_ext _ (for_each (upsert T same_key assign) [d]))
      in E by (intros s0; symmetry; apply for_each_single).
    pose proof (batch_order [d] s s1 Hclean E) as Hfirst.
    apply (batch_load T same_key assign [d] s s1 laws Hclean) in E.
    destruct E as (Hclean1 & _).
    intros H. apply IH in H; [|exact Hclean1].
    eapply (order_kept_compose same_key key same_key_spec); eauto.
Qed.

(** A batch with an entity that the constraints rule out, whatever rows
    come with it, is not loaded. *)
Lemma batch_rejected (ruled_out : R -> Prop) batch d s :
  clean s ->
  (forall a b, same_key a b = true -> ruled_out a -> ruled_out b) ->
  (forall rows r, In r rows -> ruled_out r ->
                  integrity_ok (put T rows (store s)) = false) ->
  In d batch ->
  ruled_out d ->
  exists s' e,
    transaction (for_each (upsert T same_key assign) batch) s = (s', Raise e)
    /\ store s' = store s
    /\ (faults s = [] -> e = IntegrityError).
Proof using laws same_key_spec assign_spec.
  intros Hclean Hkey Hrule Hd Hout.
  destruct (upserted_has same_key assign key same_key_spec assign_spec
              (view T (store s)) batch d Hd) as (r & Hr & Hsame).
  assert (Hbad : integrity_ok
                   (put T (upserted same_key assign (view T (store s)) batch)
                      (store s)) = false)
    by (eapply Hrule; eauto).
  destruct (transaction (for_each (upsert T same_key assign) batch) s)
    as [s' [[]|e]] eqn:E.
  - exfalso.
    pose proof E as Hret. apply transaction_ret in Hret.
    destruct Hret as (staged & _ & Hcommit).
    apply commit_ret in Hcommit. destruct Hcommit as (_ & _ & Hok).
    apply (batch_load T same_key assign batch s s' laws Hclean) in E.
    destruct E as (_ & Hstore). rewrite Hstore in Hok. congruence.
  - exists s', e. split; [reflexivity|].
    split; [eapply batch_raise; eauto|].
    intros Hfaults. rewrite (batch_load_runs batch s Hclean Hfaults) in E.
    cbv zeta in E. rewrite Hbad in E. congruence.
Qed.

End TableLaws.

(** *** Kind by kind *)

Lemma entity_kinds_again K :
  In K entity_kinds ->
  forall batch s1 s2 r,
    clean s1 ->
    (forall e, In e batch -> stored K e (store s1) = [e]) ->
    load K batch s1 = (s2, r) ->
    store s2 = store s1 /\ clean s2.
Proof.
  unfold entity_kinds, stored. simpl.
  intros [<-|[<-|[<-|[<-|[<-|[<-|[<-|[<-|[]]]]]]]]]; simpl.
  - apply (each_again _ _ _ _ pokemon_table_laws pokemon_key_spec
             pokemon_assign_spec).
  - apply (batch_again _ _ _ _ pokemon_stats_table_laws stat_key_spec
             stat_assign_spec).
  - apply (batch_again _ _ _ _ types_table_laws type_key_spec
             type_assign_spec).
  - apply (batch_again _ _ _ _ type_effectiveness_table_laws
             effectiveness_key_spec effectiveness_assign_spec).
  - apply (batch_again _ _ _ _ pokemon_types_table_laws pokemon_type_key_spec
             pokemon_type_assign_spec).
  - apply (batch_again _ _ _ _ abilities_table_laws ability_key_spec
             ability_assign_spec).
  - apply (each_again _ _ _ _ pokemon_abilities_table_laws
             pokemon_ability_key_spec pokemon_ability_assign_spec).
  - apply (each_again _ _ _ _ pokemon_moves_table_laws pokemon_move_key_spec
             pokemon_move_assign_spec).
Qed.

Lemma entity_kinds_order K :
  In K entity_kinds ->
  forall batch s s',
    clean s ->
    load K batch s = (s', Ret tt) ->
    order_kept (same_key K) batch (view (tbl K) (store s))
      (view (tbl K) (store s')).
Proof.
  unfold entity_kinds. simpl.
  intros [<-|[<-|[<-|[<-|[<-|[<-|[<-|[<-|[]]]]]]]]]; simpl.
  - apply (each_order _ _ _ _ pokemon_table_laws pokemon_key_spec
             pokemon_assign_spec).
  - apply (batch_order _ _ _ _ pokemon_stats_table_laws stat_key_spec
             stat_assign_spec).
  - apply (batch_order _ _ _ _ types_table_laws type_key_spec
             type_assign_spec).
  - apply (batch_order _ _ _ _ type_effectiveness_table_laws
             effectiveness_key_spec effectiveness_assign_spec).
  - apply (batch_order _ _ _ _ pokemon_types_table_laws pokemon_type_key_spec
             pokemon_type_assign_spec).
  - apply (batch_order _ _ _ _ abilities_table_laws ability_key_spec
             ability_assign_spec).
  - apply (each_order _ _ _ _ pokemon_abilities_table_laws
             pokemon_ability_key_spec pokemon_ability_assign_spec).
  - apply (each_order _ _ _ _ pokemon_moves_table_laws pokemon_move_key_spec
             pokemon_move_assign_spec).
Qed.

(** X16. For every entity type: when a batch without a repeated key has
    been loaded, on a session with nothing staged whose store held at most
    one row for each key of the batch, loading the same batch again leaves
    the store exactly as it is, whether the second load returns or fails
    on the way. *)
Theorem reload_changes_nothing :
  forall K : entity_kind,
    In K entity_kinds ->
    forall (s s1 s2 : Session) (batch : list (row K)) (r : result unit),
      clean s ->
      distinct (same_key K) batch = true ->
      (forall e, In e batch -> (length (stored K e (store s)) <= 1)%nat) ->
      load K batch s = (s1, Ret tt) ->
      load K batch s1 = (s2, r) ->
      store s2 = store s1 /\ clean s2.
Proof.
  intros K HK s s1 s2 batch r Hclean Hdistinct Hstored Hfirst Hsecond.
  destruct (entity_kinds_load_spec K HK) as [_ Hspec].
  destruct (Hspec batch s s1 Hclean Hfirst) as (Hclean1 & _ & _ & _ & Hrow & _).
  eapply (entity_kinds_again K HK); eauto.
Qed.

Lemma reload_changes_nothing_witness :
  let batch := [a_stat 25 "speed" 90; a_stat 25 "attack" 56] in
  let s1 := fst (load_pokemon_stats batch fresh_session) in
  let s2 := fst (load_pokemon_stats batch s1) in
  store s2 = store s1 /\ clean s2.
Proof.
  intros batch s1 s2.
  apply (reload_changes_nothing stat_kind ltac:(simpl; auto) fresh_session
           s1 s2 batch (snd (load_pokemon_stats batch s1))).
  - split; reflexivity.
  - reflexivity.
  - intros e [<-|[<-|[]]]; vm_compute; lia.
  - vm_compute. reflexivity.
  - vm_compute. reflexivity.
Defined.

(** X17. For every entity type, a load that returns, on a session with
    nothing staged, keeps the rows of the table in their order: each row
    is as it was or has been replaced, at its position, by an entity of
    the batch with the same natural key; the rows that follow are new,
    each an entity of the batch whose key had no row before. *)
Theorem load_keeps_order :
  forall K : entity_kind,
    In K entity_kinds ->
    forall (s s' : Session) (batch : list (row K)),
      clean s ->
      load K batch s = (s', Ret tt) ->
      order_kept (same_key K) batch (view (tbl K) (store s))
        (view (tbl K) (store s')).
Proof.
  intros K HK s s' batch Hclean Hload.
  eapply (entity_kinds_order K HK); eauto.
Qed.

Lemma load_keeps_order_witness :
  let batch := [a_stat 25 "speed" 90; a_stat 25 "attack" 56] in
  order_kept stat_key batch [a_stat 25 "attack" 55]
    [a_stat 25 "attack" 56; a_stat 25 "speed" 90].
Proof.
  intros batch.
  apply (load_keeps_order stat_kind ltac:(simpl; auto) fresh_session
           (fst (load_pokemon_stats batch fresh_session)) batch).
  - split; reflexivity.
  - vm_compute. reflexivity.
Defined.

(** *** Foreign keys *)

Lemma integrity_children d :
  integrity_ok d = true ->
  (forall r, In r (pokemon_stats d) ->
     In (PokemonStat.pokemon_id r) (map Pokemon.id (pokemon d)))
  /\ (forall r, In r (pokemon_types d) ->
        In (PokemonType.pokemon_id r) (map Pokemon.id (pokemon d))
        /\ In (PokemonType.type_id r) (map Type_.id (types d)))
  /\ (forall r, In r (type_effectiveness d) ->
        In (TypeEffectiveness.attack_type_id r) (map Type_.id (types d))
        /\ In (TypeEffectiveness.defense_type_id r) (map Type_.id (types d)))
  /\ (forall r, In r (pokemon_moves d) ->
        In (PokemonMove.pokemon_id r) (map Pokemon.id (pokemon d))
        /\ In (PokemonMove.move_id r) (map Move.id (moves d))).
Proof.
  unfold integrity_ok. intros H.
  repeat (apply andb_true_iff in H; destruct H as [H ?]).
  repeat match goal with
         | Hall : forallb _ _ = true |- _ =>
             rewrite forallb_forall in Hall
         end.
  split; [|split; [|split]]; intros r Hr;
    match goal with
    | Hall : forall x, In x ?l -> _ |- _ =>
        match type of Hr with
        | In _ l => specialize (Hall r Hr)
        end
    end;
    rewrite ?andb_true_iff in *;
    repeat match goal with
           | Hand : _ /\ _ |- _ => destruct Hand
           end;
    try split; apply AnalyzerFacts.references_In; assumption.
Qed.

Lemma run_as_load c :
  exists K batch,
    In K entity_kinds /\ forall s, run c s = load K batch s.
Proof.
  destruct c as [d|l|l|l|l|l|d|d].
  - exists pokemon_kind, [d]. split; [simpl; auto|].
    intros s. symmetry. apply (for_each_single load_pokemon).
  - exists stat_kind, l. split; [simpl; auto 10 | reflexivity].
  - exists type_kind, l. split; [simpl; auto 10 | reflexivity].
  - exists effectiveness_kind, l. split; [simpl; auto 10 | reflexivity].
  - exists pokemon_type_kind, l. split; [simpl; auto 10 | reflexivity].
  - exists ability_kind, l. split; [simpl; auto 10 | reflexivity].
  - exists pokemon_ability_kind, [d]. split; [simpl; auto 10|].
    intros s. symmetry. apply (for_each_single _load_pokemon_ability).
  - exists pokemon_move_kind, [d]. split; [simpl; auto 10|].
    intros s. symmetry. apply (for_each_single _load_pokemon_move).
Qed.

Lemma put_keeps_moves K rows d :
  In K entity_kinds -> moves (put (tbl K) rows d) = moves d.
Proof.
  unfold entity_kinds. simpl.
  intros [<-|[<-|[<-|[<-|[<-|[<-|[<-|[<-|[]]]]]]]]]; reflexivity.
Qed.

Lemma run_keeps_moves c s :
  clean s ->
  moves (store (fst (run c s))) = moves (store s)
  /\ clean (fst (run c s)).
Proof.
  intros Hclean.
  pose proof (transaction_outcome c s) as Hout.
  destruct (run_as_load c) as (K & batch & HK & Hrun).
  destruct (run c s) as [s' [[]|e]] eqn:E; simpl.
  - destruct Hout as (_ & _ & Hclean'). split; [|exact Hclean'].
    rewrite Hrun in E.
    destruct (entity_kinds_load_spec K HK) as [_ Hspec].
    destruct (Hspec batch s s' Hclean E) as (_ & Hstore & _).
    rewrite Hstore. apply put_keeps_moves. exact HK.
  - destruct Hout as (_ & Hstore & Hclean'). rewrite Hstore. auto.
Qed.

Lemma load_pokemon_move_rejected move_data s :
  clean s ->
  moves (store s) = [] ->
  exists s' e,
    _load_pokemon_move move_data s = (s', Raise e)
    /\ store s' = store s
    /\ clean s'
    /\ (faults s = [] -> e = IntegrityError).
Proof.
  intros Hclean Hmoves. unfold _load_pokemon_move.
  rewrite (transaction_ext _
             (for_each (upsert pokemon_moves_table pokemon_move_key
                          pokemon_move_assign) [move_data]))
    by (intros s0; symmetry; apply for_each_single).
  destruct (batch_rejected pokemon_moves_table pokemon_move_key
              pokemon_move_assign _ pokemon_moves_table_laws
              pokemon_move_key_spec pokemon_move_assign_spec
              (fun _ => True) [move_data] move_data s Hclean)
    as (s' & e & Hrun & Hstore & Hfaults); auto.
  - intros rows r Hr _.
    destruct (integrity_ok (put pokemon_moves_table rows (store s)))
      eqn:Hok; [|reflexivity].
    apply integrity_children in Hok. destruct Hok as (_ & _ & _ & Hfk).
    destruct (Hfk r Hr) as [_ Hmove]. simpl in Hmove.
    rewrite Hmoves in Hmove. destruct Hmove.
  - left. reflexivity.
  - exists s', e. split; [exact Hrun|]. split; [exact Hstore|].
    split; [|exact Hfaults].
    eapply (batch_raise pokemon_moves_table); eauto.
Qed.

Lemma calls_with_move_raise calls s move_data :
  clean s ->
  moves (store s) = [] ->
  In (LoadPokemonMove move_data) calls ->
  exists s' e, for_each run calls s = (s', Raise e).
Proof.
  revert s. induction calls as [|c calls IH]; intros s Hclean Hmoves Hin;
    [destruct Hin|].
  simpl. unfold bind.
  destruct (run_keeps_moves c s Hclean) as [Hkeep Hclean'].
  destruct (run c s) as [s1 [[]|e]] eqn:E; [|eauto].
  simpl in Hkeep, Hclean'.
  destruct Hin as [->|Hin].
  - simpl in E.
    destruct (load_pokemon_move_rejected move_data s Hclean Hmoves)
      as (s' & e & Hrun & _).
    congruence.
  - apply IH; auto. congruence.
Qed.

(** X18. No write method touches the [moves] table: a write call on a
    session with nothing staged leaves it as it is.  So, the database
    enforcing its foreign keys, on a store whose [moves] table is empty
    [_load_pokemon_move] raises for every move row and leaves the store as
    it is ([IntegrityError], unless a round trip failed first), and
    [load_all_pokemon_data] raises for every batch that holds a move
    row. *)
Theorem moves_are_never_loaded :
  forall s : Session,
    clean s ->
    (forall c : write_call, moves (store (fst (run c s))) = moves (store s))
    /\ (moves (store s) = [] ->
        (forall move_data,
           exists s' e,
             _load_pokemon_move move_data s = (s', Raise e)
             /\ store s' = store s
             /\ (faults s = [] -> e = IntegrityError))
        /\ (forall transformed_data,
              batch_moves transformed_data <> [] ->
              exists s' e,
                load_all_pokemon_data transformed_data s = (s', Raise e))).
Proof.
  intros s Hclean. split.
  - intros c. apply run_keeps_moves. exact Hclean.
  - intros Hmoves. split.
    + intros move_data.
      destruct (load_pokemon_move_rejected move_data s Hclean Hmoves)
        as (s' & e & Hrun & Hstore & _ & Hfaults).
      exists s', e. auto.
    + intros transformed_data Hbatch.
      rewrite load_all_pokemon_data_calls.
      destruct (batch_moves transformed_data) as [|move_data rest] eqn:Hrows;
        [congruence|].
      apply (calls_with_move_raise _ s move_data Hclean Hmoves).
      unfold pokemon_data_calls. rewrite Hrows.
      apply in_or_app. right. apply in_or_app. right.
      apply in_or_app. right. left. reflexivity.
Qed.

Lemma moves_are_never_loaded_witness :
  (exists s' e,
     _load_pokemon_move (a_move 25 85 0 "machine") fresh_session
     = (s', Raise e)
     /\ store s' = pikachu_db
     /\ (faults fresh_session = [] -> e = IntegrityError))
  /\ exists s' e, load_all_pokemon_data pikachu_batch fresh_session
                  = (s', Raise e).
Proof.
  pose proof (moves_are_never_loaded fresh_session ltac:(split; reflexivity))
    as [_ H].
  specialize (H eq_refl). destruct H as [Hmove Hall]. split.
  - apply Hmove.
  - apply Hall. discriminate.
Defined.

Section Parents.

Variable s : Session.
Hypothesis Hclean : clean s.

Lemma stats_rejected stats_data d :
  In d stats_data ->
  ~ In (PokemonStat.pokemon_id d) (map Pokemon.id (pokemon (store s))) ->
  exists s' e,
    load_pokemon_stats stats_data s = (s', Raise e)
    /\ store s' = store s
    /\ (faults s = [] -> e = IntegrityError).
Proof using Hclean.
  intros Hd Hmissing. unfold load_pokemon_stats.
  apply (batch_rejected pokemon_stats_table stat_key stat_assign _
           pokemon_stats_table_laws stat_key_spec stat_assign_spec
           (fun r => ~ In (PokemonStat.pokemon_id r)
                        (map Pokemon.id (pokemon (store s))))
           stats_data d s Hclean); auto.
  - intros a b Hsame. apply stat_key_spec in Hsame.
    injection Hsame as -> _. auto.
  - intros rows r Hr Hout.
    destruct (integrity_ok (put pokemon_stats_table rows (store s)))
      eqn:Hok; [|reflexivity].
    apply integrity_children in Hok. destruct Hok as (Hfk & _).
    exfalso. apply Hout. apply (Hfk r Hr).
Qed.

Lemma pokemon_types_rejected pokemon_types_data d :
  In d pokemon_types_data ->
  ~ In (PokemonType.pokemon_id d) (map Pokemon.id (pokemon (store s)))
  \/ ~ In (PokemonType.type_id d) (map Type_.id (types (store s))) ->
  exists s' e,
    load_pokemon_types pokemon_types_data s = (s', Raise e)
    /\ store s' = store s
    /\ (faults s = [] -> e = IntegrityError).
Proof using Hclean.
  intros Hd Hmissing. unfold load_pokemon_types.
  apply (batch_rejected pokemon_types_table pokemon_type_key
           pokemon_type_assign _ pokemon_types_table_laws
           pokemon_type_key_spec pokemon_type_assign_spec
           (fun r => ~ In (PokemonType.pokemon_id r)
                        (map Pokemon.id (pokemon (store s)))
                     \/ ~ In (PokemonType.type_id r)
                           (map Type_.id (types (store s))))
           pokemon_types_data d s Hclean); auto.
  - intros a b Hsame. apply pokemon_type_key_spec in Hsame.
    injection Hsame as -> ->. auto.
  - intros rows r Hr Hout.
    destruct (integrity_ok (put pokemon_types_table rows (store s)))
      eqn:Hok; [|reflexivity].
    apply integrity_children in Hok. destruct Hok as (_ & Hfk & _).
    exfalso. destruct (Hfk r Hr) as [Hpokemon Htype].
    destruct Hout as [Hout|Hout]; apply Hout; assumption.
Qed.

Lemma effectiveness_rejected effectiveness_data d :
  In d effectiveness_data ->
  ~ In (TypeEffectiveness.attack_type_id d) (map Type_.id (types (store s)))
  \/ ~ In (TypeEffectiveness.defense_type_id d)
         (map Type_.id (types (store s))) ->
  exists s' e,
    load_type_effectiveness effectiveness_data s = (s', Raise e)
    /\ store s' = store s
    /\ (faults s = [] -> e = IntegrityError).
Proof using Hclean.
  intros Hd Hmissing. unfold load_type_effectiveness.
  apply (batch_rejected type_effectiveness_table effectiveness_key
           effectiveness_assign _ type_effectiveness_table_laws
           effectiveness_key_spec effectiveness_assign_spec
           (fun r => ~ In (TypeEffectiveness.attack_type_id r)
                        (map Type_.id (types (store s)))
                     \/ ~ In (TypeEffectiveness.defense_type_id r)
                           (map Type_.id (types (store s))))
           effectiveness_data d s Hclean); auto.
  - intros a b Hsame. apply effectiveness_key_spec in Hsame.
    injection Hsame as -> ->. auto.
  - intros rows r Hr Hout.
    destruct (integrity_ok (put type_effectiveness_table rows (store s)))
      eqn:Hok; [|reflexivity].
    apply integrity_children in Hok. destruct Hok as (_ & _ & Hfk & _).
    exfalso. destruct (Hfk r Hr) as [Hattack Hdefense].
    destruct Hout as [Hout|Hout]; apply Hout; assumption.
Qed.

End Parents.

(** X19. Rows that refer to a row the store does not hold are not loaded
    (the database enforcing its foreign keys): on a session with nothing
    staged, [load_pokemon_stats] given a stat of
    a Pokemon that is not stored, [load_pokemon_types] given an
    association whose Pokemon or type is not stored, and
    [load_type_effectiveness] given an entry whose attacking or defending
    type is not stored, raise and leave the store as it is, whatever else
    the batch holds; the exception is [IntegrityError] unless a round trip
    failed first. *)
Theorem children_need_parents :
  forall s : Session,
    clean s ->
    (forall stats_data d,
       In d stats_data ->
       ~ In (PokemonStat.pokemon_id d) (map Pokemon.id (pokemon (store s))) ->
       exists s' e,
         load_pokemon_stats stats_data s = (s', Raise e)
         /\ store s' = store s
         /\ (faults s = [] -> e = IntegrityError))
    /\ (forall pokemon_types_data d,
          In d pokemon_types_data ->
          ~ In (PokemonType.pokemon_id d) (map Pokemon.id (pokemon (store s)))
          \/ ~ In (PokemonType.type_id d) (map Type_.id (types (store s))) ->
          exists s' e,
            load_pokemon_types pokemon_types_data s = (s', Raise e)
            /\ store s' = store s
            /\ (faults s = [] -> e = IntegrityError))
    /\ (forall effectiveness_data d,
          In d effectiveness_data ->
          ~ In (TypeEffectiveness.attack_type_id d)
              (map Type_.id (types (store s)))
          \/ ~ In (TypeEffectiveness.defense_type_id d)
                (map Type_.id (types (store s))) ->
          exists s' e,
            load_type_effectiveness effectiveness_data s = (s', Raise e)
            /\ store s' = store s
            /\ (faults s = [] -> e = IntegrityError)).
Proof.
  intros s Hclean. split; [|split].
  - apply stats_rejected. exact Hclean.
  - apply pokemon_types_rejected. exact Hclean.
  - apply effectiveness_rejected. exact Hclean.
Qed.

Lemma children_need_parents_witness :
  (exists s' e,
     load_pokemon_stats [a_stat 25 "speed" 90; a_stat 26 "speed" 110]
       fresh_session = (s', Raise e)
     /\ store s' = pikachu_db
     /\ (faults fresh_session = [] -> e = IntegrityError))
  /\ (exists s' e,
        load_pokemon_types
          [ {| PokemonType.pokemon_id := 25; PokemonType.type_id := 13;
               PokemonType.slot := 1 |} ] fresh_session = (s', Raise e)
        /\ store s' = pikachu_db
        /\ (faults fresh_session = [] -> e = IntegrityError))
  /\ (exists s' e,
        load_type_effectiveness (batch_effectiveness electric_batch)
          fresh_session = (s', Raise e)
        /\ store s' = pikachu_db
        /\ (faults fresh_session = [] -> e = IntegrityError)).
Proof.
  pose proof (children_need_parents fresh_session ltac:(split; reflexivity))
    as (Hstats & Htypes & Heffectiveness).
  split; [|split].
  - apply (Hstats _ (a_stat 26 "speed" 110)).
    + right. left. reflexivity.
    + simpl. intros [H|[]]. discriminate.
  - eapply Htypes.
    + left. reflexivity.
    + right. simpl. intros [].
  - eapply Heffectiveness.
    + left. reflexivity.
    + left. simpl. intros [].
Defined.

(** *** Loads without a failure to come *)

(** X20. On a session with nothing staged and no round-trip failure to
    come, a write call on a table without a unique column (every call but
    [load_types] and [load_all_ability_data]), whose values the columns
    hold as they are given and whose queries match at most one stored row
    each, is a function of the store: it returns exactly when the database
    accepts the table of the call after its upserts, and that is then the
    store; otherwise it raises [IntegrityError] and the session is as it
    was. *)
Theorem fault_free_write :
  forall (c : write_call) (s : Session),
    clean s ->
    faults s = [] ->
    settled c (store s) = true ->
    run c s
    = if integrity_ok (flushed c (store s))
      then (committed (flushed c (store s)), Ret tt)
      else (s, Raise IntegrityError).
Proof.
  intros c s Hclean Hfaults _.
  destruct c as [d|l|l|l|l|l|d|d]; simpl;
    unfold load_pokemon, load_pokemon_stats, load_types,
      load_type_effectiveness, load_pokemon_types, load_all_ability_data,
      _load_pokemon_ability, _load_pokemon_move, committed.
  - rewrite (transaction_ext _
               (for_each (upsert pokemon_table pokemon_key pokemon_assign) [d]))
      by (intros s0; symmetry; apply for_each_single).
    apply (batch_load_runs pokemon_table _ _ pokemon_table_laws); assumption.
  - apply (batch_load_runs pokemon_stats_table _ _ pokemon_stats_table_laws);
      assumption.
  - apply (batch_load_runs types_table _ _ types_table_laws); assumption.
  - apply (batch_load_runs type_effectiveness_table _ _
             type_effectiveness_table_laws); assumption.
  - apply (batch_load_runs pokemon_types_table _ _ pokemon_types_table_laws);
      assumption.
  - apply (batch_load_runs abilities_table _ _ abilities_table_laws);
      assumption.
  - rewrite (transaction_ext _
               (for_each (upsert pokemon_abilities_table pokemon_ability_key
                            pokemon_ability_assign) [d]))
      by (intros s0; symmetry; apply for_each_single).
    apply (batch_load_runs pokemon_abilities_table _ _
             pokemon_abilities_table_laws); assumption.
  - rewrite (transaction_ext _
               (for_each (upsert pokemon_moves_table pokemon_move_key
                            pokemon_move_assign) [d]))
      by (intros s0; symmetry; apply for_each_single).
    apply (batch_load_runs pokemon_moves_table _ _ pokemon_moves_table_laws);
      assumption.
Qed.

Lemma fault_free_write_witness :
  run (LoadPokemonStats [a_stat 25 "speed" 90]) fresh_session
  = (committed
       {| pokemon := [pikachu_row];
          pokemon_stats := [a_stat 25 "attack" 55; a_stat 25 "speed" 90];
          types := []; pokemon_types := []; type_effectiveness := [];
          abilities := []; pokemon_abilities := []; moves := [];
          pokemon_moves := [] |}, Ret tt).
Proof.
  apply (fault_free_write (LoadPokemonStats [a_stat 25 "speed" 90])
           fresh_session).
  - split; reflexivity.
  - reflexivity.
  - reflexivity.
Defined.

Lemma upserted_nil {R} (same_key : R -> R -> bool) assign batch :
  upserted same_key assign [] batch = batch.
Proof.
  unfold upserted, staged_live, staged_pending. simpl.
  assert (Hlive : forall objs,
            fold_left (stage_one same_key assign []) batch objs = objs)
    by (induction batch; simpl; auto).
  rewrite Hlive. clear Hlive. simpl.
  induction batch as [|d batch IH]; simpl; [reflexivity|].
  rewrite IH. reflexivity.
Qed.

Lemma integrity_type_data type_rows effectiveness_rows :
  integrity_ok
    (type_data_db {| batch_type_rows := type_rows;
                     batch_effectiveness := effectiveness_rows |})
  = integrity_ok
      (type_data_db {| batch_type_rows := type_rows;
                       batch_effectiveness := [] |})
    && forallb
         (fun r =>
            references (map Type_.id type_rows)
              (TypeEffectiveness.attack_type_id r)
            && references (map Type_.id type_rows)
                 (TypeEffectiveness.defense_type_id r))
         effectiveness_rows.
Proof.
  unfold integrity_ok, type_data_db. simpl. rewrite !andb_true_r.
  reflexivity.
Qed.

(** X21. The first load of types: on an empty database, with no round-trip
    failure to come, for a batch whose values the columns hold as they are
    given, [load_all_type_data] returns exactly when the rows of the batch
    satisfy the constraints (distinct type identifiers and names, and
    every effectiveness entry between types of the batch), and the store
    is then the batch, row by row in its order; otherwise it raises
    [IntegrityError]. *)
Theorem first_type_load :
  forall transformed_data : TypeBatch,
    type_batch_columns transformed_data = true ->
    if integrity_ok (type_data_db transformed_data)
    then load_all_type_data transformed_data empty_session
         = (committed (type_data_db transformed_data), Ret tt)
    else exists s',
           load_all_type_data transformed_data empty_session
           = (s', Raise IntegrityError).
Proof.
  intros [type_rows effectiveness_rows] _.
  set (types_only := type_data_db {| batch_type_rows := type_rows;
                                     batch_effectiveness := [] |}).
  set (all_rows :=
         type_data_db {| batch_type_rows := type_rows;
                         batch_effectiveness := effectiveness_rows |}).
  assert (Hfirst : load_types type_rows empty_session
                   = if integrity_ok types_only
                     then (committed types_only, Ret tt)
                     else (empty_session, Raise IntegrityError)).
  { unfold load_types.
    rewrite (batch_load_runs types_table _ _ types_table_laws)
      by (try split; reflexivity).
    cbv zeta. simpl. rewrite upserted_nil. reflexivity. }
  assert (Hsecond : load_type_effectiveness effectiveness_rows
                      (committed types_only)
                    = if integrity_ok all_rows
                      then (committed all_rows, Ret tt)
                      else (committed types_only, Raise IntegrityError)).
  { unfold load_type_effectiveness.
    rewrite (batch_load_runs type_effectiveness_table _ _
               type_effectiveness_table_laws)
      by (try split; reflexivity).
    cbv zeta. simpl. rewrite upserted_nil. reflexivity. }
  rewrite load_all_type_data_calls. unfold type_data_calls.
  cbn [batch_type_rows batch_effectiveness for_each run]. unfold bind.
  rewrite Hfirst.
  pose proof (integrity_type_data type_rows effectiveness_rows) as Hsplit.
  fold types_only all_rows in Hsplit.
  destruct (integrity_ok types_only).
  - rewrite Hsecond. destruct (integrity_ok all_rows).
    + reflexivity.
    + eexists. reflexivity.
  - rewrite Hsplit. simpl. eexists. reflexivity.
Qed.

Lemma first_type_load_witness :
  load_all_type_data fire_and_water empty_session
  = (committed (type_data_db fire_and_water), Ret tt).
Proof. exact (first_type_load fire_and_water eq_refl). Defined.

End LoaderLaws.

(** ** The analyzer: outcomes of the matrix and the profile, rankings *)

Module AnalyzerLaws.
Import Schema Analyzer AnalyzerTerms AnalyzerLawsTerms TypeRanking.
Import TransformerFacts AnalyzerFacts.

(** *** The labels of the matrix *)

Lemma ascii_compare_lt_trans a b c :
  Ascii.compare a b = Lt -> Ascii.compare b c = Lt -> Ascii.compare a c = Lt.
Proof.
  unfold Ascii.compare. rewrite !N.compare_lt_iff. lia.
Qed.

Lemma compare_lt_trans x y z :
  String.compare x y = Lt -> String.compare y z = Lt ->
  String.compare x z = Lt.
Proof.
  revert y z. induction x as [|a x IH]; intros [|b y] [|c z]; simpl;
    try discriminate; try reflexivity.
  destruct (Ascii.compare a b) eqn:Hab; try discriminate;
    destruct (Ascii.compare b c) eqn:Hbc; try discriminate; intros Hxy Hyz.
  - apply Ascii.compare_eq_iff in Hab. apply Ascii.compare_eq_iff in Hbc.
    subst. destruct (Ascii.compare c c) eqn:Hcc.
    + eapply IH; eauto.
    + reflexivity.
    + pose proof (Ascii.compare_antisym c c) as Hanti.
      rewrite Hcc in Hanti. discriminate.
  - apply Ascii.compare_eq_iff in Hab. subst. rewrite Hbc. reflexivity.
  - apply Ascii.compare_eq_iff in Hbc. subst. rewrite Hab. reflexivity.
  - rewrite (ascii_compare_lt_trans a b c Hab Hbc). reflexivity.
Qed.

Lemma insert_label_sorted x labels :
  StronglySorted (fun a b => String.compare a b = Lt) labels ->
  StronglySorted (fun a b => String.compare a b = Lt) (insert_label x labels).
Proof.
  induction 1 as [|y rest Hsorted IH Hy]; simpl.
  - constructor; constructor.
  - destruct (String.compare x y) eqn:Hxy.
    + constructor; assumption.
    + constructor; [constructor; assumption|].
      constructor; [exact Hxy|].
      eapply List.Forall_impl; [|exact Hy].
      intros z Hz. eapply compare_lt_trans; eauto.
    + constructor; [exact IH|].
      apply List.Forall_forall. intros z Hz.
      apply (proj1 (insert_label_In _ _ _)) in Hz. destruct Hz as [->|Hz].
      * rewrite String.compare_antisym, Hxy. reflexivity.
      * rewrite List.Forall_forall in Hy. auto.
Qed.

Lemma unique_sorted_sorted labels :
  StronglySorted (fun a b => String.compare a b = Lt) (unique_sorted labels).
Proof.
  unfold unique_sorted. induction labels as [|x labels IH]; simpl;
    [constructor | apply insert_label_sorted; exact IH].
Qed.

Lemma compare_refl_eq x : String.compare x x = Eq.
Proof.
  pose proof (String.compare_antisym x x) as Hanti.
  destruct (String.compare x x); [reflexivity | discriminate | discriminate].
Qed.

Lemma sorted_NoDup labels :
  StronglySorted (fun a b => String.compare a b = Lt) labels ->
  List.NoDup labels.
Proof.
  induction 1 as [|x rest _ IH Hx]; constructor; [|exact IH].
  intros Hin. rewrite List.Forall_forall in Hx. specialize (Hx x Hin).
  rewrite compare_refl_eq in Hx. discriminate.
Qed.

Lemma unique_sorted_NoDup labels : List.NoDup (unique_sorted labels).
Proof. apply sorted_NoDup, unique_sorted_sorted. Qed.

(** *** The query under the constraints *)

Lemma effectiveness_query_joined db :
  effectiveness_query db = flat_map (joined_rows db) (type_effectiveness db).
Proof. reflexivity. Qed.

Lemma integrity_type_ids db :
  integrity_ok db = true ->
  distinct Z.eqb (map Type_.id (types db)) = true.
Proof.
  unfold integrity_ok. intros H.
  repeat (apply andb_true_iff in H; destruct H as [H ?]). assumption.
Qed.

Lemma names_ids db x y :
  integrity_ok db = true ->
  In x (types db) -> In y (types db) ->
  String.eqb (Type_.name x) (Type_.name y) = (Type_.id x =? Type_.id y).
Proof.
  intros Hok Hx Hy.
  destruct (integrity_types db Hok) as (Hid & Hname & _).
  destruct (String.eqb_spec (Type_.name x) (Type_.name y)) as [Hn|Hn];
    destruct (Z.eqb_spec (Type_.id x) (Type_.id y)) as [Hi|Hi]; auto.
  - exfalso. apply Hi. rewrite (Hname x y Hx Hy Hn). reflexivity.
  - exfalso. apply Hn. rewrite (Hid x y Hx Hy Hi). reflexivity.
Qed.

Lemma joined_single db te :
  integrity_ok db = true ->
  In te (type_effectiveness db) ->
  exists ta td,
    In ta (types db) /\ In td (types db)
    /\ Type_.id ta = TypeEffectiveness.attack_type_id te
    /\ Type_.id td = TypeEffectiveness.defense_type_id te
    /\ joined_rows db te
       = [ {| attacking_type := Type_.name ta;
              defending_type := Type_.name td;
              effectiveness := TypeEffectiveness.effectiveness te |} ].
Proof.
  intros Hok Hte.
  destruct (integrity_types db Hok) as (_ & _ & Hfk).
  destruct (Hfk te Hte) as ((ta & Hta & Hida) & (td & Htd & Hidd)).
  exists ta, td. repeat split; try assumption.
  apply query_step; auto using integrity_type_ids.
Qed.

Lemma joined_exists db tes ta td :
  integrity_ok db = true ->
  (forall te, In te tes -> In te (type_effectiveness db)) ->
  In ta (types db) -> In td (types db) ->
  existsb (same_pair (Type_.name ta) (Type_.name td))
    (flat_map (joined_rows db) tes)
  = existsb (fun te => (TypeEffectiveness.attack_type_id te =? Type_.id ta)
                       && (TypeEffectiveness.defense_type_id te =? Type_.id td))
      tes.
Proof.
  intros Hok Hsub Hta Htd. induction tes as [|te tes IH]; [reflexivity|].
  cbn [flat_map]. rewrite existsb_app. cbn [existsb].
  rewrite IH by (intros x Hx; apply Hsub; right; exact Hx).
  destruct (joined_single db te Hok (Hsub te (or_introl eq_refl)))
    as (xa & xd & Hxa & Hxd & Hida & Hidd & ->).
  cbn [existsb]. unfold same_pair. cbn [attacking_type defending_type].
  rewrite orb_false_r.
  rewrite (names_ids db xa ta Hok Hxa Hta), (names_ids db xd td Hok Hxd Htd).
  rewrite Hida, Hidd. reflexivity.
Qed.

Lemma existsb_pointwise {A} (f g : A -> bool) l :
  (forall x, f x = g x) -> existsb f l = existsb g l.
Proof.
  intros H. induction l as [|x l IH]; simpl; [reflexivity|].
  rewrite H, IH. reflexivity.
Qed.

Lemma joined_duplicates db tes :
  integrity_ok db = true ->
  (forall te, In te tes -> In te (type_effectiveness db)) ->
  has_duplicate_pair (flat_map (joined_rows db) tes)
  = negb (distinct Loader.effectiveness_key tes).
Proof.
  intros Hok Hsub. induction tes as [|te tes IH]; [reflexivity|].
  cbn [flat_map distinct].
  destruct (joined_single db te Hok (Hsub te (or_introl eq_refl)))
    as (xa & xd & Hxa & Hxd & Hida & Hidd & ->).
  cbn [app has_duplicate_pair attacking_type defending_type].
  rewrite IH by (intros x Hx; apply Hsub; right; exact Hx).
  rewrite (joined_exists db tes xa xd Hok
             (fun x Hx => Hsub x (or_intror Hx)) Hxa Hxd).
  rewrite negb_andb, negb_involutive. f_equal.
  apply existsb_pointwise. intros x. unfold Loader.effectiveness_key.
  rewrite Hida, Hidd. reflexivity.
Qed.

Lemma joined_nonempty db :
  integrity_ok db = true ->
  type_effectiveness db <> [] ->
  effectiveness_query db <> [].
Proof.
  intros Hok Hrows. rewrite effectiveness_query_joined.
  destruct (type_effectiveness db) as [|te tes] eqn:Htes; [congruence|].
  destruct (joined_single db te Hok) as (xa & xd & _ & _ & _ & _ & Hrow).
  { rewrite Htes. left. reflexivity. }
  cbn [flat_map]. rewrite Hrow. discriminate.
Qed.

(** The outcome of [get_effectiveness_matrix] on a store that meets the
    constraints. *)
Lemma matrix_outcome db :
  integrity_ok db = true ->
  if pairs_distinct db
  then exists matrix,
         get_effectiveness_matrix db = Ret matrix
         /\ index matrix
            = unique_sorted (map attacking_type (effectiveness_query db))
         /\ columns matrix
            = unique_sorted (map defending_type (effectiveness_query db))
  else get_effectiveness_matrix db = Raise ValueError.
Proof.
  intros Hok. unfold get_effectiveness_matrix, pivot, pairs_distinct.
  rewrite effectiveness_query_joined, (joined_duplicates db _ Hok) by auto.
  destruct (distinct Loader.effectiveness_key (type_effectiveness db)); simpl;
    [|reflexivity].
  eexists. split; [reflexivity|]. split; reflexivity.
Qed.

Lemma matrix_raises db e :
  get_effectiveness_matrix db = Raise e -> e = ValueError.
Proof.
  unfold get_effectiveness_matrix, pivot.
  destruct (has_duplicate_pair (effectiveness_query db)); simpl;
    [congruence | discriminate].
Qed.

Lemma matrix_axes db matrix :
  get_effectiveness_matrix db = Ret matrix ->
  index matrix = unique_sorted (map attacking_type (effectiveness_query db))
  /\ columns matrix
     = unique_sorted (map defending_type (effectiveness_query db)).
Proof.
  unfold get_effectiveness_matrix, pivot.
  destruct (has_duplicate_pair (effectiveness_query db)); simpl;
    [discriminate|].
  intros H. injection H as <-. split; reflexivity.
Qed.

Lemma unique_sorted_nil labels : unique_sorted labels = [] -> labels = [].
Proof.
  destruct labels as [|x labels]; [reflexivity|]. intros H. exfalso.
  assert (Hin : In x (unique_sorted (x :: labels)))
    by (apply unique_sorted_In; left; reflexivity).
  rewrite H in Hin. destruct Hin.
Qed.

(** X22. On a store that meets the constraints,
    [get_effectiveness_matrix] returns a matrix exactly when no ordered
    pair of types has two stored effectiveness rows; when some pair has,
    it raises [ValueError].  It raises nothing else, on any store. *)
Theorem matrix_needs_distinct_pairs :
  forall db : DB,
    (forall e, get_effectiveness_matrix db = Raise e -> e = ValueError)
    /\ (integrity_ok db = true ->
        if pairs_distinct db
        then exists matrix, get_effectiveness_matrix db = Ret matrix
        else get_effectiveness_matrix db = Raise ValueError).
Proof.
  intros db. split; [apply matrix_raises|].
  intros Hok. pose proof (matrix_outcome db Hok) as H.
  destruct (pairs_distinct db); [|exact H].
  destruct H as (matrix & Hmatrix & _). eauto.
Qed.

Lemma matrix_needs_distinct_pairs_witness :
  (exists matrix, get_effectiveness_matrix demo_db = Ret matrix)
  /\ get_effectiveness_matrix doubled_db = Raise ValueError.
Proof.
  split.
  - exact (proj2 (matrix_needs_distinct_pairs demo_db) eq_refl).
  - exact (proj2 (matrix_needs_distinct_pairs doubled_db) eq_refl).
Defined.

(** *** The weakness profile *)

Lemma sorted_weaken {A} (R R' : A -> A -> Prop) l :
  (forall a b, R a b -> R' a b) ->
  StronglySorted R l -> StronglySorted R' l.
Proof.
  intros H. induction 1 as [|x l _ IH Hx]; constructor; [exact IH|].
  eapply List.Forall_impl; [|exact Hx]. intros y. apply H.
Qed.

Lemma has_a_type_false db pokemon_id :
  has_a_type db pokemon_id = false ->
  pokemon_types_query db pokemon_id = [].
Proof.
  intros H. apply no_types_no_names. apply List.Forall_forall.
  intros pt Hpt Heq. unfold has_a_type in H.
  assert (Hex : existsb (fun pt => PokemonType.pokemon_id pt =? pokemon_id)
                  (pokemon_types db) = true).
  { apply existsb_exists. exists pt. split; [exact Hpt|].
    apply Z.eqb_eq. exact Heq. }
  congruence.
Qed.

Lemma has_a_type_true db pokemon_id :
  integrity_ok db = true ->
  has_a_type db pokemon_id = true ->
  pokemon_types_query db pokemon_id <> []
  /\ exists pokemon_name, pokemon_name_query db pokemon_id = Ret pokemon_name.
Proof.
  intros Hok H. unfold has_a_type in H. apply existsb_exists in H.
  destruct H as (pt & Hpt & Hid). apply Z.eqb_eq in Hid.
  destruct (LoaderLaws.integrity_children db Hok) as (_ & Hfk & _).
  destruct (Hfk pt Hpt) as [Hpokemon Htype]. split.
  - apply in_map_iff in Htype. destruct Htype as (t & Ht & Hin).
    assert (Hname : In (Type_.name t) (pokemon_types_query db pokemon_id)).
    { unfold pokemon_types_query. apply in_flat_map. exists pt. split.
      - apply sort_by_In. apply filter_In. split; [exact Hpt|].
        apply Z.eqb_eq. exact Hid.
      - apply in_map. unfold types_with_id. apply filter_In.
        split; [exact Hin|]. apply Z.eqb_eq. exact Ht. }
    intros Hnil. rewrite Hnil in Hname. destruct Hname.
  - rewrite Hid in Hpokemon. apply in_map_iff in Hpokemon.
    destruct Hpokemon as (p & Hp & Hin). unfold pokemon_name_query.
    destruct (find (fun p => Pokemon.id p =? pokemon_id) (pokemon db))
      as [found|] eqn:Hfind; [eauto|].
    exfalso. apply (find_none _ _ Hfind) in Hin.
    apply Z.eqb_neq in Hin. contradiction.
Qed.

(** An entry of the matrix is a stored Decimal or the float 1.0. *)
Lemma matrix_cell db matrix a d :
  get_effectiveness_matrix db = Ret matrix ->
  (exists v, cell matrix a d = Decimal v) \/ cell matrix a d = Float 1.
Proof.
  unfold get_effectiveness_matrix, pivot.
  destruct (has_duplicate_pair (effectiveness_query db)); simpl;
    [discriminate|].
  intros H. injection H as <-. simpl.
  destruct (option_map effectiveness
              (find (same_pair a d) (effectiveness_query db))); eauto.
Qed.

(** The entry of a row of the query is a stored one. *)
Lemma matrix_stored db matrix r :
  get_effectiveness_matrix db = Ret matrix ->
  In r (effectiveness_query db) ->
  In (attacking_type r) (index matrix)
  /\ In (defending_type r) (columns matrix)
  /\ exists v, cell matrix (attacking_type r) (defending_type r) = Decimal v.
Proof.
  unfold get_effectiveness_matrix, pivot.
  destruct (has_duplicate_pair (effectiveness_query db)); simpl;
    [discriminate|].
  intros H Hr. injection H as <-. simpl. split; [|split].
  - apply unique_sorted_In. apply in_map. exact Hr.
  - apply unique_sorted_In. apply in_map. exact Hr.
  - destruct (find (same_pair (attacking_type r) (defending_type r))
                (effectiveness_query db)) as [found|] eqn:Hfind;
      [simpl; eauto|].
    exfalso. apply (find_none _ _ Hfind) in Hr. unfold same_pair in Hr.
    rewrite !String.eqb_refl in Hr. discriminate.
Qed.

(** Every column of the matrix has a stored entry, and so has every
    row. *)
Lemma stored_in_column db matrix d :
  get_effectiveness_matrix db = Ret matrix ->
  In d (columns matrix) ->
  exists a v, In a (index matrix) /\ cell matrix a d = Decimal v.
Proof.
  intros Hmatrix Hd. destruct (matrix_axes db matrix Hmatrix) as [_ Hcolumns].
  rewrite Hcolumns in Hd. apply (proj1 (unique_sorted_In _ _)) in Hd.
  apply in_map_iff in Hd. destruct Hd as (r & <- & Hr).
  destruct (matrix_stored db matrix r Hmatrix Hr) as (Ha & _ & v & Hv).
  eauto.
Qed.

Lemma stored_in_row db matrix a :
  get_effectiveness_matrix db = Ret matrix ->
  In a (index matrix) ->
  exists d v, In d (columns matrix) /\ cell matrix a d = Decimal v.
Proof.
  intros Hmatrix Ha. destruct (matrix_axes db matrix Hmatrix) as [Hindex _].
  rewrite Hindex in Ha. apply (proj1 (unique_sorted_In _ _)) in Ha.
  apply in_map_iff in Ha. destruct Ha as (r & <- & Hr).
  destruct (matrix_stored db matrix r Hmatrix Hr) as (_ & Hd & v & Hv).
  eauto.
Qed.

(** A list comprehension raises what its first failing element raises. *)
Lemma rmap_raise {A B} (f : A -> result B) xs e :
  rmap f xs = Raise e -> exists x, In x xs /\ f x = Raise e.
Proof.
  induction xs as [|x xs IH]; simpl; [discriminate|].
  destruct (f x) as [y|e0] eqn:Hx; simpl.
  - destruct (rmap f xs) as [ys|e1]; simpl; [discriminate|].
    intros H. injection H as ->.
    destruct (IH eq_refl) as (x' & Hin & Hx'). eauto.
  - intros H. injection H as ->. eauto.
Qed.

Lemma rmap_raises {A B} (f : A -> result B) xs x e e0 :
  (forall y e', In y xs -> f y = Raise e' -> e' = e) ->
  In x xs -> f x = Raise e0 ->
  rmap f xs = Raise e.
Proof.
  intros Honly Hin Hx.
  destruct (rmap f xs) as [ys|e1] eqn:Hrun.
  - apply rmap_ret in Hrun.
    destruct (Forall2_left _ _ _ x Hrun Hin) as (y & _ & Hy). congruence.
  - apply rmap_raise in Hrun. destruct Hrun as (y & Hy & Hraise).
    rewrite (Honly y e1 Hy Hraise). reflexivity.
Qed.

Lemma defended_columns db pokemon_id matrix :
  get_effectiveness_matrix db = Ret matrix ->
  defended db pokemon_id
  = existsb (fun d => mem d (columns matrix))
      (pokemon_types_query db pokemon_id).
Proof.
  intros Hmatrix. destruct (matrix_axes db matrix Hmatrix) as [_ Hcolumns].
  unfold defended. apply existsb_pointwise. intros d.
  apply eq_true_iff_eq. rewrite !mem_In, Hcolumns, unique_sorted_In.
  reflexivity.
Qed.

(** X23. The outcome of [get_pokemon_weakness_profile] on a store that
    meets the constraints: the empty frame for a Pokemon without a type
    association; otherwise [ValueError] when some ordered pair of types
    has two stored effectiveness rows, and [KeyError] when no
    effectiveness row is stored.  In every other case: [TypeError] when
    some type of the Pokemon is the defending type of a stored row (the
    loop then multiplies its float by a Decimal), and else a frame with at
    least one row, each row reporting 1. *)
Theorem weakness_profile_outcome :
  forall (db : DB) (pokemon_id : Z),
    integrity_ok db = true ->
    if negb (has_a_type db pokemon_id)
    then get_pokemon_weakness_profile db pokemon_id = Ret []
    else if negb (pairs_distinct db)
    then get_pokemon_weakness_profile db pokemon_id = Raise ValueError
    else match type_effectiveness db with
         | [] => get_pokemon_weakness_profile db pokemon_id = Raise KeyError
         | _ =>
             if defended db pokemon_id
             then get_pokemon_weakness_profile db pokemon_id
                  = Raise TypeError
             else exists rows,
                    get_pokemon_weakness_profile db pokemon_id = Ret rows
                    /\ rows <> []
                    /\ Forall (fun r => profile_effectiveness r = 1%Q) rows
         end.
Proof.
  intros db pokemon_id Hok.
  destruct (has_a_type db pokemon_id) eqn:Htyped; simpl.
  2: { unfold get_pokemon_weakness_profile.
       rewrite (has_a_type_false _ _ Htyped). reflexivity. }
  destruct (has_a_type_true db pokemon_id Hok Htyped)
    as (Hquery & pokemon_name & Hname).
  pose proof (matrix_outcome db Hok) as Hmatrix.
  destruct (pairs_distinct db); simpl.
  2: { unfold get_pokemon_weakness_profile. cbv zeta.
       destruct (pokemon_types_query db pokemon_id) as [|t ts];
         [congruence|].
       rewrite Hmatrix. reflexivity. }
  destruct Hmatrix as (matrix & Hmatrix & Hindex & _).
  rewrite (defended_columns db pokemon_id matrix Hmatrix).
  destruct (pokemon_types_query db pokemon_id) as [|t ts] eqn:Htypes;
    [congruence|].
  destruct (type_effectiveness db) as [|te tes] eqn:Hrows.
  - unfold get_pokemon_weakness_profile. cbv zeta.
    rewrite Htypes, Hmatrix. cbn [rbind].
    rewrite effectiveness_query_joined, Hrows in Hindex. simpl in Hindex.
    rewrite Hindex. reflexivity.
  - assert (Hne : index matrix <> []).
    { rewrite Hindex. intros Hnil. apply unique_sorted_nil in Hnil.
      apply map_eq_nil in Hnil. revert Hnil. apply joined_nonempty; auto.
      rewrite Hrows. discriminate. }
    destruct (existsb (fun d => mem d (columns matrix)) (t :: ts))
      eqn:Hdefended.
    + apply existsb_exists in Hdefended.
      destruct Hdefended as (d & Hd & Hcolumn). apply mem_In in Hcolumn.
      destruct (stored_in_column db matrix d Hmatrix Hcolumn)
        as (a & v & Ha & Hcell).
      unfold get_pokemon_weakness_profile. cbv zeta.
      rewrite Htypes, Hmatrix. cbn [rbind].
      rewrite (rmap_raises _ (index matrix) a TypeError TypeError);
        [reflexivity | | exact Ha |].
      * intros y e' Hy He'.
        destruct (combine matrix y (t :: ts) 1%Q) as [c|e0] eqn:Hcombine;
          simpl in He'; [discriminate|].
        injection He' as <-. eapply combine_raise; eauto.
      * rewrite (combine_stored matrix a (t :: ts) 1%Q d v Ha Hd Hcolumn
                   Hcell).
        reflexivity.
    + assert (Hskip : forall d, In d (t :: ts) ->
                                mem d (columns matrix) = false).
      { intros d Hd. destruct (mem d (columns matrix)) eqn:Hmem;
          [|reflexivity].
        assert (existsb (fun d => mem d (columns matrix)) (t :: ts) = true);
          [|congruence].
        apply existsb_exists. eauto. }
      set (made := map (fun a => {| profile_type := a;
                                    profile_effectiveness := 1%Q |})
                     (index matrix)).
      assert (Hrun : get_pokemon_weakness_profile db pokemon_id
                     = Ret (sort_by by_effectiveness_descending made)).
      { unfold get_pokemon_weakness_profile. cbv zeta.
        rewrite Htypes, Hmatrix. cbn [rbind].
        rewrite (rmap_pure _ (fun a => {| profile_type := a;
                                          profile_effectiveness := 1%Q |}));
          cycle 1.
        { intros a _. cbv beta.
          rewrite (combine_skips matrix a (t :: ts) 1%Q Hskip).
          reflexivity. }
        fold made. cbn [rbind].
        destruct made as [|r0 rest] eqn:Hmade.
        { unfold made in Hmade. apply map_eq_nil in Hmade. congruence. }
        cbn [rbind]. rewrite Hname. reflexivity. }
      exists (sort_by by_effectiveness_descending made).
      split; [exact Hrun|]. split.
      * intros Hnil. apply Hne.
        apply (f_equal (@length ProfileRow)) in Hnil.
        rewrite (Permutation_length (sort_by_perm _ _)) in Hnil.
        unfold made in Hnil. rewrite length_map in Hnil.
        destruct (index matrix); [reflexivity | discriminate].
      * apply List.Forall_forall. intros r Hr. apply sort_by_In in Hr.
        unfold made in Hr. apply in_map_iff in Hr.
        destruct Hr as (a & <- & _). reflexivity.
Qed.

Lemma weakness_profile_outcome_witness :
  get_pokemon_weakness_profile demo_db 999 = Ret []
  /\ get_pokemon_weakness_profile doubled_db 7 = Raise ValueError
  /\ get_pokemon_weakness_profile bare_db 7 = Raise KeyError
  /\ get_pokemon_weakness_profile demo_db 7 = Raise TypeError
  /\ exists rows, get_pokemon_weakness_profile shadow_db 10101 = Ret rows
                  /\ rows <> []
                  /\ Forall (fun r => profile_effectiveness r = 1%Q) rows.
Proof.
  split; [|split; [|split; [|split]]].
  - exact (weakness_profile_outcome demo_db 999 eq_refl).
  - exact (weakness_profile_outcome doubled_db 7 eq_refl).
  - exact (weakness_profile_outcome bare_db 7 eq_refl).
  - exact (weakness_profile_outcome demo_db 7 eq_refl).
  - exact (weakness_profile_outcome shadow_db 10101 eq_refl).
Defined.

(** X24. A profile with rows has exactly one row for each attacking type
    of the matrix, and its rows stand in descending order of
    effectiveness. *)
Theorem weakness_profile_shape :
  forall (db : DB) (pokemon_id : Z) (rows : list ProfileRow),
    get_pokemon_weakness_profile db pokemon_id = Ret rows ->
    rows <> [] ->
    exists matrix,
      get_effectiveness_matrix db = Ret matrix
      /\ Permutation (map profile_type rows) (index matrix)
      /\ List.NoDup (map profile_type rows)
      /\ StronglySorted
           (fun x y => (profile_effectiveness y <= profile_effectiveness x)%Q)
           rows.
Proof.
  intros db pokemon_id rows H Hrows.
  unfold get_pokemon_weakness_profile in H. cbv zeta in H.
  destruct (pokemon_types_query db pokemon_id) as [|t ts];
    [injection H as <-; congruence|].
  apply rbind_ret in H. destruct H as (matrix & Hmatrix & H).
  apply rbind_ret in H. destruct H as (made & Hmade & H).
  apply rbind_ret in H. destruct H as (df & Hdf & H).
  apply rbind_ret in H. destruct H as (pokemon_name & _ & H).
  injection H as <-.
  destruct made as [|r made]; [discriminate|]. injection Hdf as <-.
  apply rmap_ret in Hmade.
  assert (Htypes : map profile_type (r :: made) = index matrix).
  { clear Hrows. induction Hmade as [|a row labels made' Hrow _ IH];
      [reflexivity|].
    apply rbind_ret in Hrow. destruct Hrow as (e & _ & Hrow).
    injection Hrow as <-. simpl. rewrite IH. reflexivity. }
  exists matrix. split; [exact Hmatrix|].
  assert (Hperm : Permutation
                    (map profile_type
                       (sort_by by_effectiveness_descending (r :: made)))
                    (index matrix)).
  { rewrite <- Htypes. apply Permutation_map. apply sort_by_perm. }
  split; [exact Hperm|]. split.
  - eapply Permutation_NoDup; [symmetry; exact Hperm|].
    destruct (matrix_axes db matrix Hmatrix) as [-> _].
    apply unique_sorted_NoDup.
  - apply (sorted_weaken
             (fun x y => by_effectiveness_descending x y = true)).
    + intros x y Hxy. apply Qle_bool_iff. exact Hxy.
    + apply (sort_by_sorted by_effectiveness_descending (r :: made));
        [apply descending_total | apply descending_trans].
Qed.

Lemma weakness_profile_shape_witness :
  exists rows matrix,
    get_pokemon_weakness_profile shadow_db 10101 = Ret rows
    /\ get_effectiveness_matrix shadow_db = Ret matrix
    /\ Permutation (map profile_type rows) (index matrix)
    /\ List.NoDup (map profile_type rows).
Proof.
  destruct (get_pokemon_weakness_profile shadow_db 10101) as [rows|e]
    eqn:Hrows; [|vm_compute in Hrows; discriminate].
  assert (Hne : rows <> []).
  { intros ->. vm_compute in Hrows. discriminate. }
  destruct (weakness_profile_shape shadow_db 10101 rows Hrows Hne)
    as (matrix & Hmatrix & Hperm & Hnodup & _).
  exists rows, matrix. auto.
Defined.

(** *** The rankings *)

Lemma filter_disjoint_length {A} (p q : A -> bool) l :
  (forall x, p x = true -> q x = false) ->
  (length (List.filter p l) + length (List.filter q l) <= length l)%nat.
Proof.
  intros H. induction l as [|x l IH]; simpl; [lia|].
  destruct (p x) eqn:Hp; [rewrite (H x Hp)|destruct (q x)]; simpl; lia.
Qed.

Lemma filter_subset_length {A} (p q : A -> bool) l :
  (forall x, p x = true -> q x = true) ->
  (length (List.filter p l) <= length (List.filter q l))%nat.
Proof.
  intros H. induction l as [|x l IH]; simpl; [lia|].
  destruct (p x) eqn:Hp; [rewrite (H x Hp)|destruct (q x)]; simpl; lia.
Qed.

Lemma above_not_zero v : above_one v = true -> is_zero v = false.
Proof.
  unfold above_one, is_zero. intros H.
  destruct (Qeq_bool v 0) eqn:Hz; [|reflexivity].
  apply Qeq_bool_iff in Hz. apply negb_true_iff in H.
  assert (Hle : Qle_bool v 1 = true)
    by (apply Qle_bool_iff; rewrite Hz; discriminate).
  congruence.
Qed.

Lemma above_not_below v : above_one v = true -> below_one v = false.
Proof.
  unfold above_one, below_one. intros H. apply negb_true_iff in H.
  apply negb_false_iff. apply Qle_bool_iff. apply Qlt_le_weak.
  apply Qnot_le_lt. intros Hle. apply Qle_bool_iff in Hle. congruence.
Qed.

Lemma zero_is_below v : is_zero v = true -> below_one v = true.
Proof.
  unfold is_zero, below_one. intros H. apply Qeq_bool_iff in H.
  apply negb_true_iff. destruct (Qle_bool 1 v) eqn:Hle; [|reflexivity].
  apply Qle_bool_iff in Hle. rewrite H in Hle. exfalso. apply Hle.
  reflexivity.
Qed.

(** The sum of an array of objects: it raises nothing but [TypeError], and
    only when a float is among the entries; when it returns and a Decimal
    is among the entries, every entry is a Decimal. *)
Lemma add_up_raise total values e :
  add_up total values = Raise e ->
  e = TypeError
  /\ ((exists q, total = Float q) \/ exists q, In (Float q) values).
Proof.
  revert total. induction values as [|v rest IH]; intros total; simpl;
    [discriminate|].
  destruct total as [a|a], v as [b|b]; simpl.
  - intros H. destruct (IH _ H) as (-> & [(q & Hq)|(q & Hq)]);
      [discriminate|]. split; [reflexivity|]. right. eauto.
  - intros H. injection H as <-. split; [reflexivity|]. right. eauto.
  - intros H. injection H as <-. split; [reflexivity|]. left. eauto.
  - intros H. destruct (IH _ H) as (-> & _). split; [reflexivity|].
    left. eauto.
Qed.

Lemma add_up_ret total values t :
  add_up total values = Ret t ->
  (exists v, In (Decimal v) (total :: values)) ->
  forall x, In x (total :: values) -> exists v, x = Decimal v.
Proof.
  revert total. induction values as [|v rest IH]; intros total; simpl.
  - intros _ (w & [Hw|[]]) x [<-|[]]. eauto.
  - destruct total as [a|a], v as [b|b]; simpl; try discriminate.
    + intros H _ x [<-|[<-|Hx]]; eauto.
      apply (IH _ H); [exists (a + b)%Q; left; reflexivity|].
      right. exact Hx.
    + intros H (w & [Hw|[Hw|Hw]]); try discriminate.
      exfalso.
      destruct (IH _ H (ex_intro _ w (or_intror Hw)) (Float (a + b))
                  (or_introl eq_refl)) as (v & Hv).
      discriminate.
Qed.

Lemma rounded_mean_raise round2 values e :
  rounded_mean round2 values = Raise e ->
  e = TypeError /\ exists q, In (Float q) values.
Proof.
  destruct values as [|first rest]; simpl; [discriminate|].
  destruct (add_up first rest) as [t|e0] eqn:Hsum; simpl; [discriminate|].
  intros H. injection H as <-.
  destruct (add_up_raise _ _ _ Hsum) as (-> & [(q & ->)|(q & Hq)]);
    split; eauto.
Qed.

Lemma rounded_mean_ret round2 values q :
  rounded_mean round2 values = Ret q ->
  (exists v, In (Decimal v) values) ->
  forall x, In x values -> exists v, x = Decimal v.
Proof.
  destruct values as [|first rest]; simpl.
  - intros _ (v & []).
  - destruct (add_up first rest) as [t|e0] eqn:Hsum; simpl; [|discriminate].
    intros _. apply (add_up_ret _ _ _ Hsum).
Qed.

Lemma attack_order_total x y :
  attack_order x y = false -> attack_order y x = true.
Proof.
  unfold attack_order. intros H.
  apply orb_false_iff in H. destruct H as [Hlt Hrest].
  apply Z.ltb_ge in Hlt.
  destruct (Z.ltb_spec (super_effective_count x) (super_effective_count y));
    [reflexivity|]. simpl.
  assert (Heq : super_effective_count y = super_effective_count x) by lia.
  rewrite Heq, Z.eqb_refl in Hrest. simpl in Hrest.
  rewrite Heq, Z.eqb_refl. simpl.
  apply Qle_bool_iff. apply Qlt_le_weak. apply Qnot_le_lt.
  intros Hle. apply Qle_bool_iff in Hle. congruence.
Qed.

Lemma attack_order_trans x y z :
  attack_order x y = true -> attack_order y z = true ->
  attack_order x z = true.
Proof.
  unfold attack_order. intros Hxy Hyz.
  apply orb_true_iff in Hxy. apply orb_true_iff in Hyz.
  apply orb_true_iff.
  destruct Hxy as [Hxy|Hxy]; destruct Hyz as [Hyz|Hyz];
    rewrite ?andb_true_iff, ?Z.ltb_lt, ?Z.eqb_eq, ?Qle_bool_iff in *.
  - left. lia.
  - left. lia.
  - left. lia.
  - right. split; [lia|]. eapply Qle_trans; [apply Hyz | apply Hxy].
Qed.

Lemma attack_order_counts x y :
  attack_order x y = true ->
  super_effective_count y <= super_effective_count x.
Proof.
  unfold attack_order. intros H. apply orb_true_iff in H.
  rewrite andb_true_iff, Z.ltb_lt, Z.eqb_eq in H. lia.
Qed.

(** X25. [find_best_attacking_types] raises [ValueError] when the matrix
    does, [KeyError] when the matrix has no row, and [TypeError] when some
    entry of the matrix is a filled one: [np.mean] then adds the float 1.0
    and a Decimal of one row.  It returns only for a matrix whose entries
    are all stored ones, and then one row per attacking type of the
    matrix, in descending order of the super effective count; in each row
    the two counts are not negative and together do not exceed the number
    of defending types. *)
Theorem attack_ranking :
  forall (round2 : number -> nat -> Q) (db : DB),
    match find_best_attacking_types round2 db with
    | Ret rows =>
        exists matrix made,
          get_effectiveness_matrix db = Ret matrix
          /\ (forall a d, In a (index matrix) -> In d (columns matrix) ->
                          exists v, cell matrix a d = Decimal v)
          /\ Forall2 (fun a row => attack_row round2 matrix a = Ret row)
               (index matrix) made
          /\ rows <> []
          /\ Permutation rows made
          /\ StronglySorted
               (fun x y => super_effective_count y <= super_effective_count x)
               rows
          /\ Forall (fun r =>
                       0 <= super_effective_count r
                       /\ 0 <= no_effect_count r
                       /\ super_effective_count r + no_effect_count r
                          <= Z.of_nat (length (columns matrix)))
               rows
    | Raise e =>
        (e = ValueError /\ get_effectiveness_matrix db = Raise ValueError)
        \/ (e = KeyError
            /\ exists matrix, get_effectiveness_matrix db = Ret matrix
                              /\ index matrix = [])
        \/ (e = TypeError
            /\ exists matrix a d,
                 get_effectiveness_matrix db = Ret matrix
                 /\ In a (index matrix) /\ In d (columns matrix)
                 /\ cell matrix a d = Float 1)
    end.
Proof.
  intros round2 db. unfold find_best_attacking_types.
  destruct (get_effectiveness_matrix db) as [matrix|e] eqn:Hmatrix;
    cbn [rbind].
  2: { left. apply matrix_raises in Hmatrix. subst. auto. }
  destruct (rmap (attack_row round2 matrix) (index matrix)) as [made|e]
    eqn:Hmade; cbn [rbind].
  2: { right. right. apply rmap_raise in Hmade.
       destruct Hmade as (a & Ha & Hrow). unfold attack_row in Hrow.
       destruct (rounded_mean round2 (row_values matrix a)) as [q|e0]
         eqn:Hmean; simpl in Hrow; [discriminate|].
       injection Hrow as <-.
       destruct (rounded_mean_raise _ _ _ Hmean) as (-> & q & Hq).
       split; [reflexivity|]. unfold row_values in Hq.
       apply in_map_iff in Hq. destruct Hq as (d & Hcell & Hd).
       exists matrix, a, d. split; [reflexivity|].
       split; [exact Ha|]. split; [exact Hd|].
       destruct (matrix_cell db matrix a d Hmatrix) as [(v & Hv)|Hfill];
         [congruence | exact Hfill]. }
  apply rmap_ret in Hmade.
  destruct made as [|r made].
  { right. left. split; [reflexivity|]. exists matrix.
    split; [reflexivity|]. inversion Hmade. reflexivity. }
  exists matrix, (r :: made). split; [reflexivity|].
  assert (Hperm : Permutation (sort_by attack_order (r :: made)) (r :: made))
    by apply sort_by_perm.
  split; [|split; [exact Hmade|split; [|split; [exact Hperm|split]]]].
  - intros a d Ha Hd.
    destruct (Forall2_left _ _ _ a Hmade Ha) as (row & _ & Hrow).
    unfold attack_row in Hrow.
    destruct (rounded_mean round2 (row_values matrix a)) as [q|e0]
      eqn:Hmean; simpl in Hrow; [|discriminate].
    destruct (stored_in_row db matrix a Hmatrix Ha) as (d' & v & Hd' & Hv).
    apply (rounded_mean_ret _ _ _ Hmean).
    + exists v. unfold row_values. rewrite <- Hv. apply in_map. exact Hd'.
    + unfold row_values. apply in_map. exact Hd.
  - intros Hnil. rewrite Hnil in Hperm. apply Permutation_nil in Hperm.
    discriminate.
  - apply (sorted_weaken (fun x y => attack_order x y = true)).
    + intros x y. apply attack_order_counts.
    + apply (sort_by_sorted attack_order (r :: made));
        [apply attack_order_total | apply attack_order_trans].
  - eapply Permutation_Forall; [symmetry; exact Hperm|].
    apply List.Forall_forall. intros row Hrow.
    destruct (Forall2_right _ _ _ row Hmade Hrow) as (a & _ & Ha).
    unfold attack_row in Ha.
    destruct (rounded_mean round2 (row_values matrix a)) as [q|e0];
      simpl in Ha; [|discriminate].
    injection Ha as <-. unfold count_where. simpl.
    pose proof (filter_disjoint_length
                  (fun v => above_one (value_of v))
                  (fun v => is_zero (value_of v))
                  (row_values matrix a)
                  (fun v => above_not_zero (value_of v))) as Hsum.
    unfold row_values in Hsum at 3. rewrite length_map in Hsum. lia.
Qed.

(** On the sample store, whose matrix has filled entries, the ranking
    raises; on a store with a row for each pair it ranks water, which is
    super effective against fire, before fire. *)
Example attack_ranking_samples :
  find_best_attacking_types keep demo_db = Raise TypeError
  /\ exists rows,
       find_best_attacking_types keep complete_db = Ret rows
       /\ map attack_type rows = ["water"; "fire"]
       /\ map super_effective_count rows = [1; 0].
Proof. split; [reflexivity|]. eexists. repeat split. Qed.

Lemma defense_order_total x y :
  defense_order x y = false -> defense_order y x = true.
Proof.
  unfold defense_order. intros H.
  apply orb_false_iff in H. destruct H as [Hlt Hrest].
  apply Z.ltb_ge in Hlt.
  destruct (Z.ltb_spec (immunities_count x) (immunities_count y));
    [reflexivity|]. simpl.
  assert (Heq : immunities_count y = immunities_count x) by lia.
  rewrite Heq, Z.eqb_refl in Hrest. simpl in Hrest.
  rewrite Heq, Z.eqb_refl. simpl.
  apply orb_false_iff in Hrest. destruct Hrest as [Hlt' Hrest].
  apply Z.ltb_ge in Hlt'.
  destruct (Z.ltb_spec (resistances_count x) (resistances_count y));
    [reflexivity|]. simpl.
  assert (Heq' : resistances_count y = resistances_count x) by lia.
  rewrite Heq', Z.eqb_refl in Hrest. simpl in Hrest.
  rewrite Heq', Z.eqb_refl. simpl.
  apply Qle_bool_iff. apply Qlt_le_weak. apply Qnot_le_lt.
  intros Hle. apply Qle_bool_iff in Hle. congruence.
Qed.

Lemma defense_order_trans x y z :
  defense_order x y = true -> defense_order y z = true ->
  defense_order x z = true.
Proof.
  unfold defense_order. intros Hxy Hyz.
  rewrite ?orb_true_iff, ?andb_true_iff, ?orb_true_iff, ?andb_true_iff,
    ?Z.ltb_lt, ?Z.eqb_eq, ?Qle_bool_iff in *.
  destruct Hxy as [Hxy|[Hxy [Hxy'|[Hxy' Hxy'']]]];
    destruct Hyz as [Hyz|[Hyz [Hyz'|[Hyz' Hyz'']]]];
    try (left; lia); right; (split; [lia|]); try (left; lia).
  right. split; [lia|]. eapply Qle_trans; eauto.
Qed.

Lemma defense_order_counts x y :
  defense_order x y = true -> immunities_count y <= immunities_count x.
Proof.
  unfold defense_order. intros H. apply orb_true_iff in H.
  rewrite andb_true_iff, Z.ltb_lt, Z.eqb_eq in H. lia.
Qed.

(** X26. [find_best_defensive_types] raises [ValueError] when the matrix
    does, [KeyError] when the matrix has no column, and [TypeError] when
    some entry of the matrix is a filled one: [np.mean] then adds the
    float 1.0 and a Decimal of one column.  It returns only for a matrix
    whose entries are all stored ones, and then one row per defending type
    of the matrix, in descending order of the immunities count; in each
    row every immunity is counted among the resistances as well, and the
    weaknesses and the resistances together do not exceed the number of
    attacking types. *)
Theorem defense_ranking :
  forall (round2 : number -> nat -> Q) (db : DB),
    match find_best_defensive_types round2 db with
    | Ret rows =>
        exists matrix made,
          get_effectiveness_matrix db = Ret matrix
          /\ (forall a d, In a (index matrix) -> In d (columns matrix) ->
                          exists v, cell matrix a d = Decimal v)
          /\ Forall2 (fun d row => defense_row round2 matrix d = Ret row)
               (columns matrix) made
          /\ rows <> []
          /\ Permutation rows made
          /\ StronglySorted
               (fun x y => immunities_count y <= immunities_count x) rows
          /\ Forall (fun r =>
                       0 <= immunities_count r <= resistances_count r
                       /\ 0 <= weaknesses_count r
                       /\ weaknesses_count r + resistances_count r
                          <= Z.of_nat (length (index matrix)))
               rows
    | Raise e =>
        (e = ValueError /\ get_effectiveness_matrix db = Raise ValueError)
        \/ (e = KeyError
            /\ exists matrix, get_effectiveness_matrix db = Ret matrix
                              /\ columns matrix = [])
        \/ (e = TypeError
            /\ exists matrix a d,
                 get_effectiveness_matrix db = Ret matrix
                 /\ In a (index matrix) /\ In d (columns matrix)
                 /\ cell matrix a d = Float 1)
    end.
Proof.
  intros round2 db. unfold find_best_defensive_types.
  destruct (get_effectiveness_matrix db) as [matrix|e] eqn:Hmatrix;
    cbn [rbind].
  2: { left. apply matrix_raises in Hmatrix. subst. auto. }
  destruct (rmap (defense_row round2 matrix) (columns matrix)) as [made|e]
    eqn:Hmade; cbn [rbind].
  2: { right. right. apply rmap_raise in Hmade.
       destruct Hmade as (d & Hd & Hrow). unfold defense_row in Hrow.
       destruct (rounded_mean round2 (column_values matrix d)) as [q|e0]
         eqn:Hmean; simpl in Hrow; [discriminate|].
       injection Hrow as <-.
       destruct (rounded_mean_raise _ _ _ Hmean) as (-> & q & Hq).
       split; [reflexivity|]. unfold column_values in Hq.
       apply in_map_iff in Hq. destruct Hq as (a & Hcell & Ha).
       exists matrix, a, d. split; [reflexivity|].
       split; [exact Ha|]. split; [exact Hd|].
       destruct (matrix_cell db matrix a d Hmatrix) as [(v & Hv)|Hfill];
         [congruence | exact Hfill]. }
  apply rmap_ret in Hmade.
  destruct made as [|r made].
  { right. left. split; [reflexivity|]. exists matrix.
    split; [reflexivity|]. inversion Hmade. reflexivity. }
  exists matrix, (r :: made). split; [reflexivity|].
  assert (Hperm : Permutation (sort_by defense_order (r :: made)) (r :: made))
    by apply sort_by_perm.
  split; [|split; [exact Hmade|split; [|split; [exact Hperm|split]]]].
  - intros a d Ha Hd.
    destruct (Forall2_left _ _ _ d Hmade Hd) as (row & _ & Hrow).
    unfold defense_row in Hrow.
    destruct (rounded_mean round2 (column_values matrix d)) as [q|e0]
      eqn:Hmean; simpl in Hrow; [|discriminate].
    destruct (stored_in_column db matrix d Hmatrix Hd)
      as (a' & v & Ha' & Hv).
    apply (rounded_mean_ret _ _ _ Hmean).
    + exists v. unfold column_values. rewrite <- Hv.
      apply (in_map (fun a0 => cell matrix a0 d)). exact Ha'.
    + unfold column_values.
      apply (in_map (fun a0 => cell matrix a0 d)). exact Ha.
  - intros Hnil. rewrite Hnil in Hperm. apply Permutation_nil in Hperm.
    discriminate.
  - apply (sorted_weaken (fun x y => defense_order x y = true)).
    + intros x y. apply defense_order_counts.
    + apply (sort_by_sorted defense_order (r :: made));
        [apply defense_order_total | apply defense_order_trans].
  - eapply Permutation_Forall; [symmetry; exact Hperm|].
    apply List.Forall_forall. intros row Hrow.
    destruct (Forall2_right _ _ _ row Hmade Hrow) as (d & _ & Hd).
    unfold defense_row in Hd.
    destruct (rounded_mean round2 (column_values matrix d)) as [q|e0];
      simpl in Hd; [|discriminate].
    injection Hd as <-. unfold count_where. simpl.
    pose proof (filter_disjoint_length
                  (fun v => above_one (value_of v))
                  (fun v => below_one (value_of v))
                  (column_values matrix d)
                  (fun v => above_not_below (value_of v))) as Hsum.
    pose proof (filter_subset_length
                  (fun v => is_zero (value_of v))
                  (fun v => below_one (value_of v))
                  (column_values matrix d)
                  (fun v => zero_is_below (value_of v))) as Hsub.
    unfold column_values in Hsum at 3. rewrite length_map in Hsum. lia.
Qed.

(** The same samples for the defensive ranking: fire, which resists both
    types, stands before water. *)
Example defense_ranking_samples :
  find_best_defensive_types keep demo_db = Raise TypeError
  /\ exists rows,
       find_best_defensive_types keep complete_db = Ret rows
       /\ map defense_type rows = ["water"; "fire"]
       /\ map resistances_count rows = [2; 1].
Proof. split; [reflexivity|]. eexists. repeat split. Qed.

End AnalyzerLaws.

(** ** From the loader to the analyzer *)

Module PipelineLaws.
Import Schema Loader LoaderTerms Analyzer AnalyzerTerms AnalyzerLawsTerms.
Import LoaderFacts.

Lemma repeated_key_not_distinct {R} (same_key : R -> R -> bool)
    (before between after : list R) d1 d2 :
  same_key d1 d2 = true ->
  distinct same_key (before ++ d1 :: between ++ d2 :: after)%list = false.
Proof.
  intros Hsame.
  destruct (distinct same_key (before ++ d1 :: between ++ d2 :: after)%list)
    eqn:Hdistinct; [|reflexivity].
  apply distinct_app_r in Hdistinct. apply distinct_cons in Hdistinct.
  destruct Hdistinct as [Hfresh _].
  rewrite (Hfresh d2) in Hsame; [discriminate|].
  apply in_or_app. right. left. reflexivity.
Qed.

Lemma find_index_pointwise {R} (p q : R -> bool) rows :
  (forall r, p r = q r) -> find_index p rows = find_index q rows.
Proof.
  intros H. induction rows as [|r rows IH]; simpl; [reflexivity|].
  rewrite H, IH. reflexivity.
Qed.

(** X27. A repeated pair in one batch breaks the matrix: when
    [load_type_effectiveness] returns for a batch that holds two entries
    of one ordered pair of types, a pair the store had no row for, the
    store holds both entries, and [get_effectiveness_matrix] on it raises
    [ValueError]. *)
Theorem repeated_pair_breaks_matrix :
  forall (s s' : Session)
         (before between after : list TypeEffectiveness.t)
         (d1 d2 : TypeEffectiveness.t),
    clean s ->
    effectiveness_key d1 d2 = true ->
    stored effectiveness_kind d1 (store s) = [] ->
    load_type_effectiveness (before ++ d1 :: between ++ d2 :: after)%list s
    = (s', Ret tt) ->
    In d1 (type_effectiveness (store s'))
    /\ In d2 (type_effectiveness (store s'))
    /\ get_effectiveness_matrix (store s') = Raise ValueError.
Proof.
  intros s s' before between after d1 d2 Hclean Hsame Hnone Hload.
  unfold load_type_effectiveness in Hload.
  pose proof Hload as Hret. apply transaction_ret in Hret.
  destruct Hret as (staged & _ & Hcommit).
  apply commit_ret in Hcommit. destruct Hcommit as (_ & _ & Hok).
  apply (batch_load type_effectiveness_table effectiveness_key
           effectiveness_assign _ s s' type_effectiveness_table_laws Hclean)
    in Hload.
  destruct Hload as (_ & Hstore).
  set (batch := (before ++ d1 :: between ++ d2 :: after)%list) in *.
  set (rows := view type_effectiveness_table (store s)) in *.
  assert (Hrows : type_effectiveness (store s')
                  = upserted effectiveness_key effectiveness_assign rows batch)
    by (rewrite Hstore; reflexivity).
  assert (Hmiss1 : find_index (effectiveness_key d1) rows = None).
  { destruct (find_index (effectiveness_key d1) rows) as [i|] eqn:Hfind;
      [|reflexivity].
    destruct (find_index_Some _ _ _ Hfind) as (r & Hnth & Hr).
    exfalso.
    change (List.filter (effectiveness_key d1) rows = []) in Hnone.
    assert (Hin : In r (List.filter (effectiveness_key d1) rows)).
    { apply filter_In. split; [eapply nth_error_In; eauto | exact Hr]. }
    rewrite Hnone in Hin. destruct Hin. }
  assert (Hmiss2 : find_index (effectiveness_key d2) rows = None).
  { rewrite <- Hmiss1. apply find_index_pointwise. intros r. symmetry.
    apply (same_key_interchangeable _ _ effectiveness_key_spec). exact Hsame. }
  assert (Hpending :
            staged_pending effectiveness_key rows batch
            = (staged_pending effectiveness_key rows before
               ++ d1 :: staged_pending effectiveness_key rows between
               ++ d2 :: staged_pending effectiveness_key rows after)%list).
  { unfold staged_pending, batch.
    rewrite List.filter_app. cbn [List.filter]. rewrite Hmiss1.
    rewrite List.filter_app. cbn [List.filter]. rewrite Hmiss2.
    reflexivity. }
  split; [|split].
  - rewrite Hrows. unfold upserted. apply in_or_app. right.
    rewrite Hpending. apply in_or_app. right. left. reflexivity.
  - rewrite Hrows. unfold upserted. apply in_or_app. right.
    rewrite Hpending. apply in_or_app. right. right.
    apply in_or_app. right. left. reflexivity.
  - pose proof (AnalyzerLaws.matrix_outcome (store s') Hok) as Hmatrix.
    assert (Hdup : pairs_distinct (store s') = false).
    { unfold pairs_distinct. rewrite Hrows. unfold upserted.
      destruct (distinct effectiveness_key
                  (staged_live effectiveness_key effectiveness_assign rows
                     batch rows
                   ++ staged_pending effectiveness_key rows batch))
        eqn:Hdistinct; [|reflexivity].
      apply distinct_app_r in Hdistinct. rewrite Hpending in Hdistinct.
      rewrite (repeated_key_not_distinct effectiveness_key _ _ _ d1 d2 Hsame)
        in Hdistinct.
      discriminate. }
    rewrite Hdup in Hmatrix. exact Hmatrix.
Qed.

Lemma repeated_pair_breaks_matrix_witness :
  let s' := fst (load_type_effectiveness [relation 5 11 0; relation 5 11 2]
                   demo_session) in
  In (relation 5 11 0) (type_effectiveness (store s'))
  /\ In (relation 5 11 2) (type_effectiveness (store s'))
  /\ get_effectiveness_matrix (store s') = Raise ValueError.
Proof.
  intros s'.
  apply (repeated_pair_breaks_matrix demo_session s' [] [] []
           (relation 5 11 0) (relation 5 11 2)).
  - split; reflexivity.
  - reflexivity.
  - reflexivity.
  - vm_compute. reflexivity.
Defined.

End PipelineLaws.

(** ** The fetchers: which failures are skipped *)

Module FetcherLaws.
Import Json ApiClient ApiClientSamples PyValue FetcherSamples.

Lemma get_requests net c endpoint use_cache w :
  (length (requests (fst (get net c endpoint use_cache w)))
   <= length (requests w) + 5)%nat.
Proof.
  unfold get, on_exception. change (Nat.pred 5) with 4%nat.
  destruct (ApiClientLaws.retrying_log net c endpoint use_cache 4 w)
    as (k & Hk & Hreq & _).
  cbv zeta in Hreq. rewrite Hreq, length_app, repeat_length. lia.
Qed.

Lemma py_range_length start stop :
  length (py_range start stop) = Z.to_nat (stop - start).
Proof. unfold py_range. rewrite length_map, length_seq. reflexivity. Qed.

Lemma py_range_In start stop i :
  In i (py_range start stop) -> start <= i < stop.
Proof.
  unfold py_range. intros H. apply in_map_iff in H.
  destruct H as (k & <- & Hk). apply in_seq in Hk. lia.
Qed.

(** The loop over the identifiers returns, whatever the fetches do. *)
Lemma fetch_each_returns net c ability_ids abilities w :
  exists w' more,
    AbilityFetcher.fetch_each net c ability_ids abilities w
    = (w', Ret (abilities ++ more)%list)
    /\ (length more <= length ability_ids)%nat
    /\ Forall (fun ability_data =>
                 exists ability_id w0,
                   In ability_id ability_ids
                   /\ snd (AbilityFetcher.fetch_ability net c ability_id w0)
                      = Ret ability_data)
         more
    /\ (length (requests w')
        <= length (requests w) + 5 * length ability_ids)%nat.
Proof.
  revert abilities w.
  induction ability_ids as [|ability_id rest IH]; intros abilities w.
  - exists w, []. rewrite app_nil_r. simpl. repeat split; auto; lia.
  - cbn [AbilityFetcher.fetch_each]. unfold bind at 1, try_except, bind.
    pose proof (get_requests net c ("ability/" ++ py_str_int ability_id) true w)
      as Hbudget.
    fold (AbilityFetcher.fetch_ability net c ability_id) in Hbudget.
    destruct (AbilityFetcher.fetch_ability net c ability_id w)
      as [w1 [ability_data|e]] eqn:Hfetch; simpl in Hbudget; unfold ret.
    + destruct (IH (abilities ++ [ability_data])%list w1)
        as (w' & more & Hrun & Hlen & Hall & Hreq).
      exists w', (ability_data :: more).
      rewrite Hrun, <- app_assoc. split; [reflexivity|].
      split; [simpl; lia|]. split; [|simpl; lia].
      constructor.
      * exists ability_id, w. split; [left; reflexivity|].
        rewrite Hfetch. reflexivity.
      * eapply List.Forall_impl; [|exact Hall].
        intros a (i & w0 & Hi & Ha). exists i, w0. split; [right|]; auto.
    + destruct (IH abilities w1) as (w' & more & Hrun & Hlen & Hall & Hreq).
      exists w', more. rewrite Hrun. split; [reflexivity|].
      split; [simpl; lia|]. split; [|simpl; lia].
      eapply List.Forall_impl; [|exact Hall].
      intros a (i & w0 & Hi & Ha). exists i, w0. split; [right|]; auto.
Qed.

(** X28. [fetch_all_abilities] raises what the request for the list of
    abilities raises.  When that request returns a document whose [count]
    is the integer [n], the call returns, whatever happens to the requests
    for the abilities: an ability whose fetch raises is left out.  So the
    result holds at most [n] documents, each a document [fetch_ability]
    returned for an identifier from 1 to [n], and at most [5 n] requests
    are made for them. *)
Theorem fetch_all_abilities_skips_failures :
  forall (net : network) (c : client) (w : world),
    match get net c "ability" true w with
    | (w1, Raise e) =>
        AbilityFetcher.fetch_all_abilities net c w = (w1, Raise e)
    | (w1, Ret ability_list) =>
        forall n : Z,
          py_getitem ability_list "count" = Ret (JInt n) ->
          exists w' abilities,
            AbilityFetcher.fetch_all_abilities net c w = (w', Ret abilities)
            /\ (length abilities <= Z.to_nat n)%nat
            /\ Forall (fun ability_data =>
                         exists ability_id w0,
                           1 <= ability_id <= n
                           /\ snd (AbilityFetcher.fetch_ability net c
                                     ability_id w0)
                              = Ret ability_data)
                 abilities
            /\ (length (requests w')
                <= length (requests w1) + 5 * Z.to_nat n)%nat
    end.
Proof.
  intros net c w. unfold AbilityFetcher.fetch_all_abilities, bind.
  destruct (get net c "ability" true w) as [w1 [ability_list|e]];
    [|reflexivity].
  intros n Hcount. unfold lift. rewrite Hcount. cbn [py_add_one].
  destruct (fetch_each_returns net c (py_range 1 (n + 1)) [] w1)
    as (w' & more & Hrun & Hlen & Hall & Hreq).
  rewrite py_range_length in Hlen, Hreq.
  replace (n + 1 - 1) with n in Hlen, Hreq by lia.
  exists w', more. split; [exact Hrun|]. split; [exact Hlen|].
  split; [|exact Hreq].
  eapply List.Forall_impl; [|exact Hall].
  intros a (i & w0 & Hi & Ha). exists i, w0. split; [|exact Ha].
  apply py_range_In in Hi. lia.
Qed.

Lemma fetch_all_abilities_skips_failures_witness :
  exists w' abilities,
    AbilityFetcher.fetch_all_abilities service demo_client cold
    = (w', Ret abilities)
    /\ (length abilities <= 2)%nat.
Proof.
  pose proof (fetch_all_abilities_skips_failures service demo_client cold)
    as H.
  destruct (get service demo_client "ability" true cold)
    as [w1 [ability_list|e]] eqn:Hlist; [|vm_compute in Hlist; discriminate].
  assert (Hcount : py_getitem ability_list "count" = Ret (JInt 2)).
  { vm_compute in Hlist. injection Hlist as _ <-. reflexivity. }
  destruct (H 2 Hcount) as (w' & abilities & Hrun & Hlen & _).
  exists w', abilities. split; [exact Hrun | exact Hlen].
Defined.

(** The loop over the entries of the list of types, when each entry has a
    name. *)
Lemma fetch_details_named net c repr entries types_data w :
  Forall has_name entries ->
  exists w' more,
    TypeFetcher.fetch_details net c repr entries types_data w
    = (w', Ret (types_data ++ more)%list)
    /\ (length more <= length entries)%nat.
Proof.
  intros Hnamed. revert types_data w.
  induction Hnamed as [|type_info rest (type_name & Hname) _ IH];
    intros types_data w.
  - exists w, []. rewrite app_nil_r. simpl. auto.
  - cbn [TypeFetcher.fetch_details].
    unfold bind at 1, try_except, bind at 1, lift at 1. rewrite Hname.
    unfold bind at 1.
    destruct (TypeFetcher.fetch_type_detail net c repr type_name w)
      as [w1 [type_data|e]]; unfold ret.
    + destruct (IH (types_data ++ [type_data])%list w1)
        as (w' & more & Hrun & Hlen).
      exists w', (type_data :: more). rewrite Hrun, <- app_assoc.
      split; [reflexivity | simpl; lia].
    + unfold bind, lift. cbv beta iota.
      destruct (IH types_data w1) as (w' & more & Hrun & Hlen).
      exists w', more. rewrite Hrun. split; [reflexivity | simpl; lia].
Qed.

(** The loop stops at the first entry without a name: the handler of that
    entry raises what the subscript raised. *)
Lemma fetch_details_nameless net c repr before type_info after types_data
    w e :
  Forall has_name before ->
  py_getitem type_info "name" = Raise e ->
  exists w',
    TypeFetcher.fetch_details net c repr (before ++ type_info :: after)
      types_data w
    = (w', Raise e).
Proof.
  intros Hnamed Hnameless. revert types_data w.
  induction Hnamed as [|named_info rest (type_name & Hname) _ IH];
    intros types_data w.
  - cbn [app TypeFetcher.fetch_details].
    unfold bind, try_except, lift. rewrite Hnameless. eauto.
  - cbn [app TypeFetcher.fetch_details].
    unfold bind at 1, try_except, bind at 1, lift at 1. rewrite Hname.
    unfold bind at 1.
    destruct (TypeFetcher.fetch_type_detail net c repr type_name w)
      as [w1 [type_data|e1]]; unfold ret.
    + apply IH.
    + unfold bind, lift. cbv beta iota. apply IH.
Qed.

(** X29. [fetch_all_types_with_effectiveness], once the list of types is
    fetched: when every entry of the list has a name, the call returns,
    whatever happens to the requests for the types, with at most one
    document per entry; but the first entry without a name makes the call
    raise what subscripting it raised ([KeyError], or [TypeError] for an
    entry that is not an object), because the handler reads the name
    again for its log line. *)
Theorem fetch_all_types_needs_names :
  forall (net : network) (c : client) (repr : json -> string)
         (w w1 : world) (types_list : json) (entries : list json),
    TypeFetcher.fetch_type_list net c w = (w1, Ret types_list) ->
    py_iter types_list = Ret entries ->
    (Forall has_name entries ->
     exists w' types_data,
       TypeFetcher.fetch_all_types_with_effectiveness net c repr w
       = (w', Ret types_data)
       /\ (length types_data <= length entries)%nat)
    /\ (forall before type_info after e,
          entries = (before ++ type_info :: after)%list ->
          Forall has_name before ->
          py_getitem type_info "name" = Raise e ->
          exists w',
            TypeFetcher.fetch_all_types_with_effectiveness net c repr w
            = (w', Raise e)).
Proof.
  intros net c repr w w1 types_list entries Hlist Hentries.
  unfold TypeFetcher.fetch_all_types_with_effectiveness, bind.
  rewrite Hlist. unfold lift. rewrite Hentries. split.
  - intros Hnamed.
    destruct (fetch_details_named net c repr entries [] w1 Hnamed)
      as (w' & more & Hrun & Hlen).
    exists w', more. auto.
  - intros before type_info after e -> Hnamed Hnameless.
    apply fetch_details_nameless; assumption.
Qed.

Lemma fetch_all_types_needs_names_witness :
  exists w',
    TypeFetcher.fetch_all_types_with_effectiveness service demo_client
      no_repr cold
    = (w', Raise KeyError).
Proof.
  destruct (TypeFetcher.fetch_type_list service demo_client cold)
    as [w1 [types_list|e]] eqn:Hlist; [|vm_compute in Hlist; discriminate].
  assert (Hentries : py_iter types_list
                     = Ret [JObj [("name", JStr "fighting")];
                            JObj [("url", JStr "type/3")]]).
  { vm_compute in Hlist. injection Hlist as _ <-. reflexivity. }
  apply (proj2 (fetch_all_types_needs_names service demo_client no_repr cold
                  w1 types_list _ Hlist Hentries)
           [JObj [("name", JStr "fighting")]] (JObj [("url", JStr "type/3")])
           []).
  - reflexivity.
  - constructor; [|constructor]. eexists. reflexivity.
  - reflexivity.
Defined.

End FetcherLaws.
